(** * PhotoDupeDrop: the near-duplicate photo pipeline

    A shallow embedding of
    - the perceptual-hash engine, native (Kotlin [PHashModule]) and web
      fallback ([utils/pHash.ts]): hash generation from DCT coefficients,
      hex packing, Hamming distance;
    - the candidate generator [findMatchesInBatch];
    - the deduplication engine [utils/matchDeduplication.ts];
    - the callers of these: the grayscale conversion in front of the
      transform, the batch loop and the state handlers of the search
      screen, [findSimilarPhotos] of the photo detail view, and the view
      counter [utils/viewCounter.ts].

    Conventions.  A Kotlin [Int] and a JavaScript integer-valued [number]
    are modelled by [Z]; the quantities that occur (hex digits, bit counts,
    string lengths, epoch milliseconds) stay far from the 32-bit and 2^53
    limits.  A JavaScript [number] that carries a ratio (confidence,
    average distance, overlap ratios) is modelled by an exact rational
    [Q].  The doubles of the cosine transform are idealised as real
    numbers [R], that is without rounding.  Strings are [string], whose
    characters are the code units below 256; a [Set<string>] is a
    [gset string]. *)

From Stdlib Require Import ZArith QArith Qminmax Lia ZifyBool List Ascii String.
From Stdlib Require Import Reals Lra Lqa.
From Stdlib Require DecimalString HexadecimalString.
From stdpp Require Import base decidable list sorting gmap strings.

Local Open Scope string_scope.
Local Open Scope list_scope.
Local Open Scope Z_scope.

(** ** Outcomes of fallible code *)

Inductive exn : Type :=
| LengthMismatch        (* "Hash lengths must be equal" *)
| NumberFormat          (* Kotlin [String.toInt(radix)] on a non-numeral *)
| IndexOutOfBounds.     (* Kotlin list indexing out of range *)

(** [Diverge] is reached only when a loop of the model runs out of fuel. *)
Inductive outcome (A : Type) : Type :=
| Ret (a : A)
| Throw (e : exn)
| Diverge.
Arguments Ret {A} a.
Arguments Throw {A} e.
Arguments Diverge {A}.

Definition bind {A B : Type} (x : outcome A) (k : A -> outcome B) : outcome B :=
  match x with
  | Ret a => k a
  | Throw e => Throw e
  | Diverge => Diverge
  end.

Notation "'let*' x ':=' e 'in' k" := (bind e (fun x => k))
  (at level 10, x name, e at level 100, k at level 200).

(** ** Character and numeral helpers shared by both hash paths *)

Module Numeral.

(** Value of one digit character in radix 16, [None] when the character is
    no hexadecimal digit. *)
Definition hexDigitValue (c : ascii) : option Z :=
  let n := Z.of_N (N_of_ascii c) in
  if (48 <=? n) && (n <=? 57) then Some (n - 48)
  else if (97 <=? n) && (n <=? 102) then Some (n - 87)
  else if (65 <=? n) && (n <=? 70) then Some (n - 55)
  else None.

Definition binDigitValue (c : ascii) : option Z :=
  let n := Z.of_N (N_of_ascii c) in
  if n =? 48 then Some 0 else if n =? 49 then Some 1 else None.

(** Kotlin [s.toInt(2)] on an unsigned numeral: every character must be a
    binary digit and there must be at least one. *)
Fixpoint toInt2_go (s : string) (acc : Z) : option Z :=
  match s with
  | EmptyString => Some acc
  | String c r =>
      match binDigitValue c with
      | Some d => toInt2_go r (2 * acc + d)
      | None => None
      end
  end.

Definition toInt2 (s : string) : outcome Z :=
  match s with
  | EmptyString => Throw NumberFormat
  | _ => match toInt2_go s 0 with
         | Some v => Ret v
         | None => Throw NumberFormat
         end
  end.

(** JavaScript [parseInt(s, 2)] on an unsigned numeral: the longest prefix
    of binary digits is read; [None] stands for [NaN] (no digit read). *)
Fixpoint parseInt2_go (s : string) (acc : Z) : Z :=
  match s with
  | EmptyString => acc
  | String c r =>
      match binDigitValue c with
      | Some d => parseInt2_go r (2 * acc + d)
      | None => acc
      end
  end.

Definition parseInt2 (s : string) : option Z :=
  match s with
  | EmptyString => None
  | String c _ =>
      match binDigitValue c with
      | Some _ => Some (parseInt2_go s 0)
      | None => None
      end
  end.

(** [n.toString(16)]: lower-case hexadecimal numeral. *)
Definition toString16 (n : Z) : string :=
  HexadecimalString.NilZero.string_of_int (Z.to_hex_int n).

Definition upperChar (c : ascii) : ascii :=
  let n := N_of_ascii c in
  if ((97 <=? n) && (n <=? 122))%N then ascii_of_N (n - 32) else c.

(** [uppercase()] / [toUpperCase()] on ASCII text. *)
Fixpoint uppercase (s : string) : string :=
  match s with
  | EmptyString => EmptyString
  | String c r => String (upperChar c) (uppercase r)
  end.

(** [padEnd(4, '0')]. *)
Definition padEnd4 (s : string) : string :=
  (s ++ string_of_list_ascii (repeat "0"%char (4 - String.length s)))%string.

End Numeral.

(** ** The fingerprint engine

    [generateHashFromDCT] only compares and sorts the DCT coefficients, so
    both copies are embedded over an arbitrary coefficient type [C] with a
    decidable strict order [lt] (the [<] of doubles; [a > b] is [lt b a]).
    The coefficient matrix is the [size] by [size] array allocated by
    [applyDCT] with [size = 32], given here as a total function of its two
    indices; every access below has both indices under 8. *)

Section Order.
Context {C : Type} (lt : C -> C -> Prop) `{!RelDecision lt}.

(** Ascending order, as used by Kotlin's [sorted()] and by
    [sort((a, b) => a - b)]. *)
Definition ascending (a b : C) : Prop := ~ lt b a.

#[global] Instance ascending_dec : RelDecision ascending.
Proof. intros a b. unfold ascending. apply _. Defined.
End Order.

Definition bitChar (b : bool) : string := if b then "1" else "0".

(** Order of the real coefficients. *)
#[global] Instance Rlt_decision : RelDecision Rlt := Rlt_dec.

(** *** Native path: [PHashModule.kt] *)

Module Kotlin.

(** [applyDCT]: the value stored in [dct[u][v]].  For each [(u, v)] the
    loops over [x] and [y] accumulate [sum], which is then scaled.
    [pixels] is the row-major grid; the indices [x * size + y] stay inside
    it for a [size] by [size] grid. *)
Definition applyDCT (pixels : list R) (size : nat) (u v : nat) : R :=
  let sum :=
    fold_left (fun sum x =>
      fold_left (fun sum y =>
        let pixelValue := nth (x * size + y) pixels 0%R in
        let cosU := cos (INR ((2 * x + 1) * u) * PI / INR (2 * size)) in
        let cosV := cos (INR ((2 * y + 1) * v) * PI / INR (2 * size)) in
        (sum + pixelValue * cosU * cosV)%R) (seq 0 size) sum)
      (seq 0 size) 0%R in
  let alphaU := if Nat.eqb u 0 then (1 / sqrt 2)%R else 1%R in
  let alphaV := if Nat.eqb v 0 then (1 / sqrt 2)%R else 1%R in
  (2 / INR size * alphaU * alphaV * sum)%R.

Section Engine.
Context {C : Type} (lt : C -> C -> Prop) `{!RelDecision lt}.

Definition hashSize : nat := 8.

(** The nested [for] loops collecting the 8x8 block in row-major order,
    skipping the DC component at [0][0]. *)
Definition collectCoefficients (dctCoefficients : nat -> nat -> C) : list C :=
  flat_map (fun i =>
    flat_map (fun j =>
      if (Nat.eqb i 0 && Nat.eqb j 0)%bool then []
      else [dctCoefficients i j]) (seq 0 hashSize)) (seq 0 hashSize).

(** [binaryHash]: the [StringBuilder] receives one character per
    coefficient, '1' when [coeff > median]. *)
Definition binaryHashOf (median : C) (coefficients : list C) : string :=
  fold_left (fun acc coeff =>
               (acc ++ bitChar (bool_decide (lt median coeff)))%string)
            coefficients "".

(** The [while (i < binaryHash.length)] loop.  Each round takes
    [substring(i, minOf(i + 4, length))], pads it at the end to four
    characters with '0', reads it in radix 2 and appends the digit. *)
Fixpoint hexLoop (fuel : nat) (binaryHash : string) (i : nat)
    (hexHash : string) : outcome string :=
  if (i <? String.length binaryHash)%nat then
    match fuel with
    | O => Diverge
    | S fuel' =>
        let binaryChunk :=
          substring i (Nat.min (i + 4) (String.length binaryHash) - i)
                    binaryHash in
        let paddedChunk := Numeral.padEnd4 binaryChunk in
        let* v := Numeral.toInt2 paddedChunk in
        hexLoop fuel' binaryHash (i + 4) (hexHash ++ Numeral.toString16 v)
    end
  else Ret hexHash.

(** Binary to hexadecimal, then [uppercase()]. *)
Definition binaryToHex (binaryHash : string) : outcome string :=
  let* hexHash := hexLoop (String.length binaryHash) binaryHash 0 "" in
  Ret (Numeral.uppercase hexHash).

Definition generateHashFromDCT (dctCoefficients : nat -> nat -> C)
    : outcome string :=
  let coefficients := collectCoefficients dctCoefficients in
  let sortedCoefficients := merge_sort (ascending lt) coefficients in
  match sortedCoefficients !! (length sortedCoefficients / 2)%nat with
  | None => Throw IndexOutOfBounds
  | Some median => binaryToHex (binaryHashOf median coefficients)
  end.
End Engine.

(** The steps of [calculatePerceptualHash] that follow the grayscale
    conversion of the 32x32 bitmap. *)
Definition hashOfGrayscale (grayscalePixels : list R) : outcome string :=
  let dctCoefficients := applyDCT grayscalePixels 32 in
  generateHashFromDCT Rlt dctCoefficients.

(** [xor and 1] / [xor shr 1] until [xor] is 0; [fuel] bounds the number
    of rounds. *)
Fixpoint countBits (fuel : nat) (xor distance : Z) : outcome Z :=
  if xor =? 0 then Ret distance
  else match fuel with
       | O => Diverge
       | S fuel' =>
           countBits fuel' (Z.shiftr xor 1) (distance + Z.land xor 1)
       end.

(** [hash1[i].toString().toInt(16)].  A character of the model is a code
    unit below 256; among these [toInt(16)] reads the ASCII digits and the
    letters [a-f], [A-F] and fails on every other one.  The digits beyond
    ASCII that it also reads cannot occur in a [string]; statements about
    the native distance on text that is not made of hexadecimal digits
    say that the text is ASCII ([allAscii]). *)
Definition toInt16 (c : ascii) : outcome Z :=
  match Numeral.hexDigitValue c with
  | Some v => Ret v
  | None => Throw NumberFormat
  end.

(** The [for (i in hash1.indices)] loop, run on two strings of equal
    length; an [Int] has 32 bits, which bounds the inner loop. *)
Fixpoint distanceLoop (hash1 hash2 : string) (distance : Z) : outcome Z :=
  match hash1, hash2 with
  | String c1 r1, String c2 r2 =>
      let* int1 := toInt16 c1 in
      let* int2 := toInt16 c2 in
      let* distance' := countBits 32 (Z.lxor int1 int2) distance in
      distanceLoop r1 r2 distance'
  | _, _ => Ret distance
  end.

Definition hammingDistance (hash1 hash2 : string) : outcome Z :=
  if negb (Nat.eqb (String.length hash1) (String.length hash2))
  then Throw LengthMismatch
  else distanceLoop hash1 hash2 0.

(** [convertToGrayscale]: one luminance value per pixel of the bitmap.  A
    pixel is the 32-bit [Int] that packs alpha, red, green and blue, eight
    bits each; [shr] is the arithmetic shift. *)
Definition convertToGrayscale (pixels : list Z) : list R :=
  map (fun pixel =>
         let r := Z.land (Z.shiftr pixel 16) 255 in
         let g := Z.land (Z.shiftr pixel 8) 255 in
         let b := Z.land pixel 255 in
         (0.299 * IZR r + 0.587 * IZR g + 0.114 * IZR b)%R) pixels.

End Kotlin.

(** *** Web fallback path: [utils/pHash.ts] *)

Module Web.

(** [applyDCT]: the value stored in [dct[u][v]], by the same loops as in
    the native copy. *)
Definition applyDCT (pixels : list R) (size : nat) (u v : nat) : R :=
  let sum :=
    fold_left (fun sum x =>
      fold_left (fun sum y =>
        let pixelValue := nth (x * size + y) pixels 0%R in
        let cosU := cos (INR ((2 * x + 1) * u) * PI / INR (2 * size)) in
        let cosV := cos (INR ((2 * y + 1) * v) * PI / INR (2 * size)) in
        (sum + pixelValue * cosU * cosV)%R) (seq 0 size) sum)
      (seq 0 size) 0%R in
  let alphaU := if Nat.eqb u 0 then (1 / sqrt 2)%R else 1%R in
  let alphaV := if Nat.eqb v 0 then (1 / sqrt 2)%R else 1%R in
  (2 / INR size * alphaU * alphaV * sum)%R.

Section Engine.
Context {C : Type} (lt : C -> C -> Prop) `{!RelDecision lt}.

Definition hashSize : nat := 8.

Definition collectCoefficients (dctCoefficients : nat -> nat -> C) : list C :=
  flat_map (fun i =>
    flat_map (fun j =>
      if (Nat.eqb i 0 && Nat.eqb j 0)%bool then []
      else [dctCoefficients i j]) (seq 0 hashSize)) (seq 0 hashSize).

(** [binaryHash += coeff > median ? '1' : '0'].  An [undefined] median
    (empty list) makes every comparison false. *)
Definition binaryHashOf (median : option C) (coefficients : list C) : string :=
  fold_left (fun acc coeff =>
               (acc ++ bitChar (match median with
                                | Some m => bool_decide (lt m coeff)
                                | None => false
                                end))%string)
            coefficients "".

(** The [for (let i = 0; i < binaryHash.length; i += 4)] loop:
    [substr(i, 4)], [parseInt(chunk, 2).toString(16)]. *)
Fixpoint hexLoop (fuel : nat) (binaryHash : string) (i : nat)
    (hexHash : string) : outcome string :=
  if (i <? String.length binaryHash)%nat then
    match fuel with
    | O => Diverge
    | S fuel' =>
        let binaryChunk := substring i 4 binaryHash in
        let digit := match Numeral.parseInt2 binaryChunk with
                     | Some v => Numeral.toString16 v
                     | None => "NaN"
                     end in
        hexLoop fuel' binaryHash (i + 4) (hexHash ++ digit)
    end
  else Ret hexHash.

Definition binaryToHex (binaryHash : string) : outcome string :=
  let* hexHash := hexLoop (String.length binaryHash) binaryHash 0 "" in
  Ret (Numeral.uppercase hexHash).

Definition generateHashFromDCT (dctCoefficients : nat -> nat -> C)
    : outcome string :=
  let coefficients := collectCoefficients dctCoefficients in
  let sortedCoefficients := merge_sort (ascending lt) coefficients in
  let median := sortedCoefficients !! (length sortedCoefficients / 2)%nat in
  binaryToHex (binaryHashOf median coefficients).
End Engine.

(** The steps of [calculatePHashWeb] that follow the grayscale conversion
    of the 32x32 canvas. *)
Definition hashOfGrayscale (grayscale : list R) : outcome string :=
  let size := 32%nat in
  let dctCoefficients := applyDCT grayscale size in
  generateHashFromDCT Rlt dctCoefficients.

(** The [while (xor !== 0)] loop with [xor & 1] and [xor >>= 1]. *)
Fixpoint countBits (fuel : nat) (xor distance : Z) : outcome Z :=
  if xor =? 0 then Ret distance
  else match fuel with
       | O => Diverge
       | S fuel' =>
           countBits fuel' (Z.shiftr xor 1) (distance + Z.land xor 1)
       end.

(** [parseInt(hash[i], 16)] followed by [^], whose ToInt32 turns [NaN]
    into 0. *)
Definition parseInt16 (c : ascii) : option Z := Numeral.hexDigitValue c.

Definition toInt32 (v : option Z) : Z :=
  match v with Some n => n | None => 0 end.

Fixpoint distanceLoop (hash1 hash2 : string) (distance : Z) : outcome Z :=
  match hash1, hash2 with
  | String c1 r1, String c2 r2 =>
      let int1 := parseInt16 c1 in
      let int2 := parseInt16 c2 in
      let* distance' := countBits 32 (Z.lxor (toInt32 int1) (toInt32 int2))
                                  distance in
      distanceLoop r1 r2 distance'
  | _, _ => Ret distance
  end.

(** The JavaScript implementation that follows the platform check. *)
Definition hammingDistanceJS (hash1 hash2 : string) : outcome Z :=
  if negb (Nat.eqb (String.length hash1) (String.length hash2))
  then Throw LengthMismatch
  else distanceLoop hash1 hash2 0.

(** [calculateHammingDistance]: on a mobile platform with the native module
    loaded ([native = true]) the native result is returned; a native
    failure is caught and logged, and control falls through to the
    JavaScript implementation. *)
Definition calculateHammingDistance (native : bool) (hash1 hash2 : string)
    : outcome Z :=
  if native then
    match Kotlin.hammingDistance hash1 hash2 with
    | Ret d => Ret d
    | _ => hammingDistanceJS hash1 hash2
    end
  else hammingDistanceJS hash1 hash2.

(** [areImagesSimilar]. *)
Definition areImagesSimilar (native : bool) (hash1 hash2 : string)
    (threshold : Z) : outcome bool :=
  let* distance := calculateHammingDistance native hash1 hash2 in
  Ret (distance <=? threshold).

(** The grayscale loop of [calculatePHashWeb].  [pixels] is the data of
    the [ImageData], four bytes (red, green, blue, alpha) per pixel; its
    length is a multiple of four, so that every round of the loop finds
    its group of four complete. *)
Fixpoint grayscaleOf (pixels : list Z) : list R :=
  match pixels with
  | r :: g :: b :: _ :: rest =>
      (0.299 * IZR r + 0.587 * IZR g + 0.114 * IZR b)%R :: grayscaleOf rest
  | _ => []
  end.

End Web.

(** ** Sorting with a comparator

    [Array.prototype.sort] is stable, so its result for a comparator that
    is a total preorder is the one a stable insertion sort produces.
    [before a b] holds when the comparator applied to [(a, b)] is not
    positive, that is when [a] may stay in front of [b]. *)

Section StableSort.
Context {A : Type} (before : A -> A -> bool).

(** The order of two adjacent elements of a sorted array. *)
Definition inOrder (a b : A) : Prop := before a b = true.

Fixpoint insertSorted (x : A) (l : list A) : list A :=
  match l with
  | [] => [x]
  | y :: l' => if before x y then x :: l else y :: insertSorted x l'
  end.

Definition stableSort (l : list A) : list A := foldr insertSorted [] l.
End StableSort.

(** Comparisons of rationals as booleans. *)
Definition Qgtb (a b : Q) : bool := negb (Qle_bool a b).
Definition Qltb (a b : Q) : bool := negb (Qle_bool b a).

(** ** Data model: [PhotoWithHash], [MatchResult]

    The field [id] of a photo is [photo_id] and that of a match is
    [match_id]; [end] of a time window is [end_].  Creation times and
    window bounds are epoch milliseconds. *)

Record PhotoWithHash : Type := {
  photo_id : string;
  uri : string;
  filename : string;
  creationTime : Z;
  width : Z;
  height : Z;
  pHash : option string
}.

Record TimeWindow : Type := { start : Z; end_ : Z }.

Inductive Status : Type := pending | approved | rejected.

Record MatchResult : Type := {
  match_id : string;
  photos : list PhotoWithHash;
  confidence : Q;
  timeWindow : TimeWindow;
  status : Status;
  hammingDistance : Q
}.

(** [new Set(match.photos.map(p => p.id))]. *)
Definition photoIdSet (m : MatchResult) : gset string :=
  list_to_set (map photo_id (photos m)).

(** ** The deduplication engine: [MatchDeduplicator] *)

Module MatchDeduplicator.

(** Is match A a strict subset of match B. *)
Definition isSubsetMatch (matchA matchB : MatchResult) : bool :=
  let photoIdsA := photoIdSet matchA in
  let photoIdsB := photoIdSet matchB in
  if (size photoIdsB <=? size photoIdsA)%nat then false
  else forallb (fun photoId => bool_decide (photoId ∈ photoIdsB))
               (elements photoIdsA).

(** [filteredMatches.splice(index, 1)] for each collected index, from the
    last one to the first. *)
Definition spliceAll (indicesToRemove : list nat) (filteredMatches : list MatchResult)
    : list MatchResult :=
  fold_left (fun acc k => delete k acc) (rev indicesToRemove) filteredMatches.

(** One round of the outer loop of [removeSubsetMatches]. *)
Definition subsetStep (filteredMatches : list MatchResult)
    (currentMatch : MatchResult) : list MatchResult :=
  let isSubset :=
    existsb (fun acceptedMatch => isSubsetMatch currentMatch acceptedMatch)
            filteredMatches in
  if isSubset then filteredMatches
  else
    let indicesToRemove :=
      List.filter (fun j => match filteredMatches !! j with
                            | Some m => isSubsetMatch m currentMatch
                            | None => false
                            end)
                  (seq 0 (length filteredMatches)) in
    spliceAll indicesToRemove filteredMatches ++ [currentMatch].

Definition removeSubsetMatches (matches : list MatchResult) : list MatchResult :=
  fold_left subsetStep matches [].

(** [photoIds.sort()]: the default order compares strings by code units. *)
Definition sortIds (photoIds : list string) : list string :=
  merge_sort String.le photoIds.

Definition generatePairKey (photoIds : list string) : string :=
  String.concat "|" (sortIds photoIds).

Definition reciprocalStep (st : gset string * list MatchResult)
    (m : MatchResult) : gset string * list MatchResult :=
  let '(processedPairs, filteredMatches) := st in
  let photoIds := sortIds (map photo_id (photos m)) in
  let pairKey := generatePairKey photoIds in
  if bool_decide (pairKey ∈ processedPairs) then st
  else ({[ pairKey ]} ∪ processedPairs, filteredMatches ++ [m]).

Definition removeReciprocalMatches (matches : list MatchResult) : list MatchResult :=
  snd (fold_left reciprocalStep matches (∅, [])).

Definition ratio (n d : nat) : Q :=
  inject_Z (Z.of_nat n) / inject_Z (Z.of_nat d).

(** Photo overlap ratio (Jaccard).  For two empty sets JavaScript yields
    [NaN], which fails every [>] test, as the 0 obtained here does. *)
Definition calculatePhotoOverlap (matchA matchB : MatchResult) : Q :=
  let photoIdsA := photoIdSet matchA in
  let photoIdsB := photoIdSet matchB in
  let intersection : gset string :=
    list_to_set (List.filter (fun id => bool_decide (id ∈ photoIdsB))
                             (elements photoIdsA)) in
  let union : gset string :=
    list_to_set (elements photoIdsA ++ elements photoIdsB) in
  ratio (size intersection) (size union).

Definition calculateTimeOverlap (matchA matchB : MatchResult) : Q :=
  let startA := start (timeWindow matchA) in
  let endA := end_ (timeWindow matchA) in
  let startB := start (timeWindow matchB) in
  let endB := end_ (timeWindow matchB) in
  let overlapStart := Z.max startA startB in
  let overlapEnd := Z.min endA endB in
  if overlapStart >=? overlapEnd then 0%Q
  else
    let overlapDuration := overlapEnd - overlapStart in
    let totalDuration := Z.max endA endB - Z.min startA startB in
    (inject_Z overlapDuration / inject_Z totalDuration)%Q.

(** The test made against one already accepted match. *)
Definition significantOverlap (currentMatch existingMatch : MatchResult) : bool :=
  let overlap := calculatePhotoOverlap currentMatch existingMatch in
  let timeOverlap := calculateTimeOverlap currentMatch existingMatch in
  Qgtb overlap (1 # 2) && Qgtb timeOverlap 0.

Definition temporalStep (filteredMatches : list MatchResult)
    (currentMatch : MatchResult) : list MatchResult :=
  let hasSignificantOverlap :=
    existsb (significantOverlap currentMatch) filteredMatches in
  if hasSignificantOverlap then filteredMatches
  else filteredMatches ++ [currentMatch].

Definition removeTemporalOverlaps (matches : list MatchResult) : list MatchResult :=
  fold_left temporalStep matches [].

(** [(a, b) => b.confidence - a.confidence]: highest confidence first. *)
Definition byConfidenceDesc (a b : MatchResult) : bool :=
  Qle_bool (confidence b) (confidence a).

Definition deduplicateMatches (matches : list MatchResult) : list MatchResult :=
  if (length matches <=? 1)%nat then matches
  else
    let sortedMatches := stableSort byConfidenceDesc matches in
    let withoutSubsets := removeSubsetMatches sortedMatches in
    let withoutReciprocals := removeReciprocalMatches withoutSubsets in
    let finalMatches := removeTemporalOverlaps withoutReciprocals in
    finalMatches.

(** Inner loop of [identifyPhotoClusters]: the matches not yet processed
    that overlap the seed [m] by more than 30% join its cluster. *)
Definition clusterInner (m : MatchResult)
    (st : list MatchResult * gset string) (otherMatch : MatchResult)
    : list MatchResult * gset string :=
  let '(cluster, processed) := st in
  if bool_decide (match_id otherMatch ∈ processed) then st
  else
    let overlap := calculatePhotoOverlap m otherMatch in
    if Qgtb overlap (3 # 10)
    then (cluster ++ [otherMatch], {[ match_id otherMatch ]} ∪ processed)
    else st.

Definition clusterOuter (matches : list MatchResult)
    (st : list (list MatchResult) * gset string) (m : MatchResult)
    : list (list MatchResult) * gset string :=
  let '(clusters, processed) := st in
  if bool_decide (match_id m ∈ processed) then st
  else
    let '(cluster, processed') :=
      fold_left (clusterInner m) matches ([m], {[ match_id m ]} ∪ processed) in
    (clusters ++ [cluster], processed').

Definition identifyPhotoClusters (matches : list MatchResult)
    : list (list MatchResult) :=
  fst (fold_left (clusterOuter matches) matches ([], ∅)).

(** The callback of [cluster.reduce]. *)
Definition betterMatch (best current : MatchResult) : MatchResult :=
  let bestScore := (confidence best * inject_Z (Z.of_nat (length (photos best))))%Q in
  let currentScore :=
    (confidence current * inject_Z (Z.of_nat (length (photos current))))%Q in
  if Qgtb currentScore bestScore then current else best.

(** The representative pushed for one cluster; clusters are never empty. *)
Definition representative (cluster : list MatchResult) : list MatchResult :=
  match cluster with
  | [] => []
  | [m] => [m]
  | first :: rest => [fold_left betterMatch rest first]
  end.

Definition advancedDeduplication (matches : list MatchResult) : list MatchResult :=
  if (length matches <=? 1)%nat then matches
  else
    let clusters := identifyPhotoClusters matches in
    let representativeMatches := flat_map representative clusters in
    stableSort byConfidenceDesc representativeMatches.

Definition isValidMatch (m : MatchResult) : bool :=
  if Nat.eqb (length (photos m)) 2 && Qltb (confidence m) 70 then false
  else if Qgtb (hammingDistance m) 25 then false
  else
    let timeSpan := end_ (timeWindow m) - start (timeWindow m) in
    if timeSpan >? 24 * 60 * 60 * 1000 then false
    else true.

Definition validateAndCleanMatches (matches : list MatchResult) : list MatchResult :=
  List.filter isValidMatch matches.

End MatchDeduplicator.

Definition processMatchesWithDeduplication (rawMatches : list MatchResult)
    : list MatchResult :=
  let validMatches := MatchDeduplicator.validateAndCleanMatches rawMatches in
  let deduplicatedMatches := MatchDeduplicator.deduplicateMatches validMatches in
  let finalMatches := MatchDeduplicator.advancedDeduplication deduplicatedMatches in
  finalMatches.

(** ** The candidate generator: [findMatchesInBatch]

    The function awaits [calculateHammingDistance] and reads two pieces of
    ambient state once per seed photo: the cancellation flag
    [processingCancelledRef.current] and the clock [Date.now()].  Both are
    supplied per round of the outer loop by [cancelledAt] and [nowAt].
    The function has two effects: it pushes matches to the array
    [rawMatches] of its caller, and after every push it gives the
    deduplicated copy of that array to [setMatchResults].
    [findMatchesInBatch] below is the array as the function leaves it,
    [publishedInBatch] the list of the arguments of its calls of
    [setMatchResults], in the order of the calls. *)

Module CandidateGenerator.
Section Generator.
Context (native : bool) (cancelledAt : nat -> bool) (nowAt : nat -> Z).

(** [!photo.pHash] is false for a non-empty string only. *)
Definition hasHash (p : PhotoWithHash) : bool :=
  match pHash p with
  | Some h => negb (String.eqb h "")
  | None => false
  end.

Definition hashOf (p : PhotoWithHash) : string :=
  match pHash p with Some h => h | None => "" end.

Definition windowOf (newPhoto : PhotoWithHash) : TimeWindow :=
  {| start := creationTime newPhoto - 15 * 60 * 1000;
     end_ := creationTime newPhoto + 15 * 60 * 1000 |}.

(** State of the inner loop: [matchingPhotos], [totalDistance],
    [validComparisons]. *)
Definition scanState : Type := (list PhotoWithHash * Z * Z)%type.

Definition scanStep (newPhoto : PhotoWithHash) (st : scanState)
    (otherPhoto : PhotoWithHash) : scanState :=
  let '(matchingPhotos, totalDistance, validComparisons) := st in
  if String.eqb (photo_id otherPhoto) (photo_id newPhoto)
     || negb (hasHash otherPhoto)
  then st
  else if (creationTime otherPhoto >=? start (windowOf newPhoto))
          && (creationTime otherPhoto <=? end_ (windowOf newPhoto))
  then
    match Web.calculateHammingDistance native (hashOf newPhoto)
                                       (hashOf otherPhoto) with
    | Ret distance =>
        if distance <=? 20
        then (matchingPhotos ++ [otherPhoto],
              totalDistance + distance, validComparisons + 1)
        else st
    | _ => st            (* the error is caught and logged *)
    end
  else st.

Definition scan (allProcessedPhotos : list PhotoWithHash)
    (newPhoto : PhotoWithHash) : scanState :=
  fold_left (scanStep newPhoto) allProcessedPhotos ([newPhoto], 0, 0).

(** [(a, b) => a.creationTime - b.creationTime]. *)
Definition byCreationTime (a b : PhotoWithHash) : bool :=
  creationTime a <=? creationTime b.

Definition decimal (n : Z) : string :=
  DecimalString.NilZero.string_of_int (Z.to_int n).

(** [Math.max(0, 100 - (averageDistance * 3))]. *)
Definition confidenceOf (averageDistance : Q) : Q :=
  Qmax 0 (100 - averageDistance * 3).

(** The match pushed for a seed, if it found a similar photo. *)
Definition matchFor (round : nat) (allProcessedPhotos : list PhotoWithHash)
    (newPhoto : PhotoWithHash) : option MatchResult :=
  let '(matchingPhotos, totalDistance, validComparisons) :=
    scan allProcessedPhotos newPhoto in
  if (1 <? length matchingPhotos)%nat then
    let averageDistance :=
      if validComparisons >? 0
      then (inject_Z totalDistance / inject_Z validComparisons)%Q
      else 0%Q in
    let confidence := confidenceOf averageDistance in
    Some {| match_id :=
              ("match-" ++ photo_id newPhoto ++ "-" ++ decimal (nowAt round))%string;
            photos := stableSort byCreationTime matchingPhotos;
            confidence := confidence;
            timeWindow := windowOf newPhoto;
            status := pending;
            hammingDistance := averageDistance |}
  else None.

(** One round of the outer loop. *)
Definition seedStep (round : nat) (allProcessedPhotos : list PhotoWithHash)
    (rawMatches : list MatchResult) (newPhoto : PhotoWithHash)
    : list MatchResult :=
  if negb (hasHash newPhoto) || cancelledAt round then rawMatches
  else match matchFor round allProcessedPhotos newPhoto with
       | Some matchResult => rawMatches ++ [matchResult]
       | None => rawMatches
       end.

Fixpoint findMatchesFrom (round : nat) (allProcessedPhotos newBatch : list PhotoWithHash)
    (rawMatches : list MatchResult) : list MatchResult :=
  match newBatch with
  | [] => rawMatches
  | newPhoto :: rest =>
      findMatchesFrom (S round) allProcessedPhotos rest
        (seedStep round allProcessedPhotos rawMatches newPhoto)
  end.

(** [findMatchesInBatch]: the resulting contents of [rawMatches]. *)
Definition findMatchesInBatch (allProcessedPhotos newBatch : list PhotoWithHash)
    (rawMatches : list MatchResult) : list MatchResult :=
  findMatchesFrom 0 allProcessedPhotos newBatch rawMatches.

(** The calls of [setMatchResults] in one round of the outer loop: a round
    that pushes a match then publishes
    [processMatchesWithDeduplication([...rawMatches])]. *)
Definition seedPublishes (round : nat) (allProcessedPhotos : list PhotoWithHash)
    (rawMatches : list MatchResult) (newPhoto : PhotoWithHash)
    : list (list MatchResult) :=
  if negb (hasHash newPhoto) || cancelledAt round then []
  else match matchFor round allProcessedPhotos newPhoto with
       | Some matchResult =>
           [processMatchesWithDeduplication (rawMatches ++ [matchResult])]
       | None => []
       end.

Fixpoint publishedFrom (round : nat) (allProcessedPhotos newBatch : list PhotoWithHash)
    (rawMatches : list MatchResult) : list (list MatchResult) :=
  match newBatch with
  | [] => []
  | newPhoto :: rest =>
      seedPublishes round allProcessedPhotos rawMatches newPhoto
      ++ publishedFrom (S round) allProcessedPhotos rest
           (seedStep round allProcessedPhotos rawMatches newPhoto)
  end.

(** [findMatchesInBatch]: the arguments of its calls of [setMatchResults]. *)
Definition publishedInBatch (allProcessedPhotos newBatch : list PhotoWithHash)
    (rawMatches : list MatchResult) : list (list MatchResult) :=
  publishedFrom 0 allProcessedPhotos newBatch rawMatches.
End Generator.
End CandidateGenerator.

(** ** Specification-level views used in the statements below *)

(** The fingerprint as a bit pattern. *)
Definition bitAscii (b : bool) : ascii := if b then "1"%char else "0"%char.

Fixpoint bitString (bs : list bool) : string :=
  match bs with
  | [] => ""
  | b :: r => String (bitAscii b) (bitString r)
  end.

(** Number of positions at which two bit patterns differ. *)
Fixpoint differingBits (xs ys : list bool) : Z :=
  match xs, ys with
  | x :: xs', y :: ys' => (if Bool.eqb x y then 0 else 1) + differingBits xs' ys'
  | _, _ => 0
  end.

(** The 63-bit pattern all of whose bits are 1. *)
Definition ones63 : string := bitString (repeat true 63).

(** Every character is a hexadecimal digit. *)
Fixpoint allHex (s : string) : bool :=
  match s with
  | EmptyString => true
  | String c r =>
      match Numeral.hexDigitValue c with
      | Some _ => allHex r
      | None => false
      end
  end.

(** The hash-generation step of the platform in use: the native module on
    a mobile platform ([native = true]), the web fallback otherwise. *)
Definition hashOnPlatform {C : Type} (lt : C -> C -> Prop) `{!RelDecision lt}
    (native : bool) (dctCoefficients : nat -> nat -> C) : outcome string :=
  if native then Kotlin.generateHashFromDCT lt dctCoefficients
  else Web.generateHashFromDCT lt dctCoefficients.

(** Number of set bits of a hex digit value. *)
Definition popcount4 (x : Z) : Z :=
  Z.land x 1 + Z.land (Z.shiftr x 1) 1 + Z.land (Z.shiftr x 2) 1
  + Z.land (Z.shiftr x 3) 1.

(** Digit-wise distance: the sum over the common positions of the number of
    set bits in the exclusive or of the two digit values (a character that
    is no hex digit counts as 0, as [NaN ^ x] does). *)
Fixpoint digitDistance (hash1 hash2 : string) : Z :=
  match hash1, hash2 with
  | String c1 r1, String c2 r2 =>
      popcount4 (Z.lxor (Web.toInt32 (Web.parseInt16 c1))
                        (Web.toInt32 (Web.parseInt16 c2)))
      + digitDistance r1 r2
  | _, _ => 0
  end.

(** Big-endian value of a group of bits. *)
Definition bitsValue (bs : list bool) : Z :=
  fold_left (fun acc (b : bool) => 2 * acc + (if b then 1 else 0)) bs 0.

(** Hex packing as the specification words it: the bits are taken in groups
    of four in order, a final shorter group is padded on the right with 0
    bits, and each group becomes one hexadecimal digit. *)
Fixpoint packPadded (bs : list bool) : string :=
  match bs with
  | [] => ""
  | a :: b :: c :: d :: rest =>
      (Numeral.toString16 (bitsValue [a; b; c; d]) ++ packPadded rest)%string
  | short =>
      Numeral.toString16 (bitsValue (short ++ repeat false (4 - length short)))
  end.

(** The same grouping without padding: a final shorter group is read as
    the number its bits spell. *)
Fixpoint packUnpadded (bs : list bool) : string :=
  match bs with
  | [] => ""
  | a :: b :: c :: d :: rest =>
      (Numeral.toString16 (bitsValue [a; b; c; d]) ++ packUnpadded rest)%string
  | short => Numeral.toString16 (bitsValue short)
  end.

(** The 63 comparison bits of a coefficient matrix: bit [i] is 1 when the
    [i]-th collected coefficient exceeds the median. *)
Definition hashBits {C : Type} (lt : C -> C -> Prop) `{!RelDecision lt}
    (dctCoefficients : nat -> nat -> C) : list bool :=
  let coefficients := Kotlin.collectCoefficients dctCoefficients in
  let sortedCoefficients := merge_sort (ascending lt) coefficients in
  match sortedCoefficients !! (length sortedCoefficients / 2)%nat with
  | Some median => map (fun coeff => bool_decide (lt median coeff)) coefficients
  | None => []
  end.


(** An 8x8 block whose only non-zero coefficient is
    [dctCoefficients[7][7] = 1]. *)
Definition lastCoefficientOnly (i j : nat) : Z :=
  if (Nat.eqb i 7 && Nat.eqb j 7)%bool then 1 else 0.

(** ** Properties of accepted lists used in the statements *)

(** No member is a strict subset of another member. *)
Definition antichain (l : list MatchResult) : Prop :=
  forall a b, a ∈ l -> b ∈ l -> ~ photoIdSet a ⊂ photoIdSet b.

(** The photo ids of [x] are all found in one member of [l]. *)
Definition coveredBy (x : MatchResult) (l : list MatchResult) : Prop :=
  exists y, y ∈ l /\ photoIdSet x ⊆ photoIdSet y.

(** The key under which [removeReciprocalMatches] files a match. *)
Definition pairKeyOf (m : MatchResult) : string :=
  MatchDeduplicator.generatePairKey
    (MatchDeduplicator.sortIds (map photo_id (photos m))).

(** The round of [removeReciprocalMatches] seen from the accepted list
    alone (the set of processed keys always holds the keys of the accepted
    matches). *)
Definition keepIfNewKey (acc : list MatchResult) (c : MatchResult)
    : list MatchResult :=
  if bool_decide (pairKeyOf c ∈ map pairKeyOf acc) then acc else acc ++ [c].

(** No member has significant overlap with a member in front of it. *)
Definition overlapFree (l : list MatchResult) : Prop :=
  forall l1 c l2, l = l1 ++ c :: l2 ->
    existsb (MatchDeduplicator.significantOverlap c) l1 = false.

(** Stages A to D: the validity filter followed by [deduplicateMatches]. *)
Definition stagesAtoD (rawMatches : list MatchResult) : list MatchResult :=
  MatchDeduplicator.deduplicateMatches
    (MatchDeduplicator.validateAndCleanMatches rawMatches).

(** What the clustering loops maintain about the matches placed in
    clusters so far: their ids are pairwise distinct and recorded in
    [processed], and all of them come from [matches]. *)
Definition placedFrom (matches T : list MatchResult) (processed : gset string)
    : Prop :=
  NoDup (map match_id T) /\
  (forall x, x ∈ T -> x ∈ matches) /\
  (forall x, x ∈ T -> match_id x ∈ processed).

(** ** The emitted candidate, as the specification words it *)

Definition sumZ (ds : list Z) : Z := fold_right Z.add 0 ds.

(** [m] groups the seed with some neighbours, each within distance 20 of
    the seed, and its average distance is the mean of these
    seed-to-neighbour distances. *)
Definition emittedFor (native : bool) (seed : PhotoWithHash) (m : MatchResult)
    : Prop :=
  exists (neighbors : list PhotoWithHash) (ds : list Z),
    photos m ≡ₚ seed :: neighbors /\
    neighbors <> [] /\
    Forall2 (fun n d =>
               Web.calculateHammingDistance native
                 (CandidateGenerator.hashOf seed) (CandidateGenerator.hashOf n)
               = Ret d /\ 0 <= d <= 20) neighbors ds /\
    hammingDistance m
    = (inject_Z (sumZ ds) / inject_Z (Z.of_nat (length ds)))%Q.

(** A 32x32 grayscale grid that is black except for the last pixel
    (row 31, column 31), which is white. *)
Definition cornerGrid : list R := repeat 0%R 1023 ++ [255%R].

(** The index pairs of the 63 collected coefficients, row-major. *)
Definition coefficientIndices : list (nat * nat) :=
  flat_map (fun i =>
    flat_map (fun j =>
      if (Nat.eqb i 0 && Nat.eqb j 0)%bool then [] else [(i, j)])
      (seq 0 8)) (seq 0 8).

(** The checkerboard pattern: bit 1 where [i + j] is even. *)
Definition checkerBits : list bool :=
  map (fun ij => Nat.even (fst ij + snd ij)) coefficientIndices.

(** ** The JavaScript wrapper of the native module: [expo-phash/src/index.ts] *)

Module ExpoPHash.

(** [calculateHammingDistance]: the promise of the native function; a
    native exception rejects it. *)
Definition calculateHammingDistance (hash1 hash2 : string) : outcome Z :=
  Kotlin.hammingDistance hash1 hash2.

Definition areImagesSimilar (hash1 hash2 : string) (threshold : Z)
    : outcome bool :=
  let* distance := calculateHammingDistance hash1 hash2 in
  Ret (distance <=? threshold).

End ExpoPHash.

(** ** The search screen: [GalleryTab]

    The component keeps [allPhotos], [matchGroups] and [matchResults] in
    React state; its handlers replace a state value by a function of the
    previous one.  The run that hashes the photos awaits [calculatePHash]
    for each photo and reads the cancellation flag at the head of every
    batch, once per seed inside [findMatchesInBatch] and once after the
    last batch; these readings and the clock are supplied by the context
    of the section below.  While [processingPausedRef] is set the run only
    waits, so pausing is not modelled.  Of the state updates of a run
    those of [matchResults] and [matchGroups] are modelled, as the list
    of the calls of [setMatchResults] and [setMatchGroups] in their
    order; the progress counters and flags ([setProcessedCount],
    [setProcessingMatches], [setCurrentGroupIndex]) are not. *)

Module GalleryTab.

Record MatchGroup : Type := {
  group_id : string;
  group_photos : list PhotoWithHash;
  group_timeWindow : TimeWindow;
  averageTime : Q
}.

Definition isApproved (m : MatchResult) : bool :=
  match status m with approved => true | _ => false end.

(** [photos.reduce((sum, p) => sum + p.creationTime, 0) / photos.length].
    For a match without photos JavaScript yields [NaN], for which the model
    has 0. *)
Definition averageTimeOf (photos : list PhotoWithHash) : Q :=
  let total := fold_left (fun sum p => sum + creationTime p) photos 0 in
  (inject_Z total / inject_Z (Z.of_nat (length photos)))%Q.

Definition groupOf (m : MatchResult) : MatchGroup :=
  {| group_id := match_id m;
     group_photos := photos m;
     group_timeWindow := timeWindow m;
     averageTime := averageTimeOf (photos m) |}.

(** [(a, b) => b.averageTime - a.averageTime]. *)
Definition byAverageTimeDesc (a b : MatchGroup) : bool :=
  Qle_bool (averageTime b) (averageTime a).

Definition createMatchGroupsFromResults (matches : list MatchResult)
    : list MatchGroup :=
  let approvedMatches := List.filter isApproved matches in
  stableSort byAverageTimeDesc (map groupOf approvedMatches).

(** A call of [setMatchResults] or of [setMatchGroups]. *)
Inductive Update : Type :=
| SetMatchResults (matches : list MatchResult)
| SetMatchGroups (groups : list MatchGroup).

(** The value of [matchResults] after a list of updates. *)
Definition resultsAfter (updates : list Update) (before : list MatchResult)
    : list MatchResult :=
  fold_left (fun shown update =>
               match update with
               | SetMatchResults matches => matches
               | SetMatchGroups _ => shown
               end) updates before.

(** The value of [matchGroups] after a list of updates. *)
Definition groupsAfter (updates : list Update) (before : list MatchGroup)
    : list MatchGroup :=
  fold_left (fun shown update =>
               match update with
               | SetMatchResults _ => shown
               | SetMatchGroups groups => groups
               end) updates before.

Section Processing.
Context (native : bool) (calculatePHash : string -> option string).
Context (cancelledAtBatch : nat -> bool) (cancelledAtSeed : nat -> nat -> bool).
Context (nowAt : nat -> nat -> Z) (cancelledAtEnd : bool).

(** [(a, b) => b.creationTime - a.creationTime]: newest first. *)
Definition byCreationTimeDesc (a b : PhotoWithHash) : bool :=
  creationTime b <=? creationTime a.

Definition batchSize : nat := 5.

(** [{ ...photo, pHash: hash }], or the photo as it is when hashing
    failed. *)
Definition hashed (photo : PhotoWithHash) : PhotoWithHash :=
  match calculatePHash (uri photo) with
  | Some hash =>
      {| photo_id := photo_id photo; uri := uri photo;
         filename := filename photo; creationTime := creationTime photo;
         width := width photo; height := height photo; pHash := Some hash |}
  | None => photo
  end.

(** One round of the batch loop, for the batch that starts at
    [i = k * batchSize]; the first component records that the loop was left
    by [break]. *)
Definition batchStep (sortedPhotos : list PhotoWithHash)
    (st : bool * list PhotoWithHash * list MatchResult) (k : nat)
    : bool * list PhotoWithHash * list MatchResult :=
  let '(stopped, photosWithHashes, rawMatches) := st in
  if stopped || cancelledAtBatch k then (true, photosWithHashes, rawMatches)
  else
    let i := (k * batchSize)%nat in
    let batch := take batchSize (drop i sortedPhotos) in
    let batchResults := map hashed batch in
    let photosWithHashes := photosWithHashes ++ batchResults in
    (false, photosWithHashes,
     CandidateGenerator.findMatchesInBatch native (cancelledAtSeed k) (nowAt k)
       photosWithHashes batchResults rawMatches).

(** The batch loop: its rounds are those of [i = 0, 5, 10, ...] below the
    number of photos. *)
Definition processBatches (photos : list PhotoWithHash)
    : bool * list PhotoWithHash * list MatchResult :=
  let sortedPhotos := stableSort byCreationTimeDesc photos in
  fold_left (batchStep sortedPhotos)
            (seq 0 ((length sortedPhotos + batchSize - 1) / batchSize))
            (false, [], []).

(** The calls of [setMatchResults] made in the round [k] of the batch
    loop, entered in the state [st]: those of [findMatchesInBatch]. *)
Definition batchPublishes (sortedPhotos : list PhotoWithHash)
    (st : bool * list PhotoWithHash * list MatchResult) (k : nat)
    : list (list MatchResult) :=
  let '(stopped, photosWithHashes, rawMatches) := st in
  if stopped || cancelledAtBatch k then []
  else
    let i := (k * batchSize)%nat in
    let batch := take batchSize (drop i sortedPhotos) in
    let batchResults := map hashed batch in
    let photosWithHashes := photosWithHashes ++ batchResults in
    CandidateGenerator.publishedInBatch native (cancelledAtSeed k) (nowAt k)
      photosWithHashes batchResults rawMatches.

(** One round of the batch loop together with the record of the calls of
    [setMatchResults] made so far. *)
Definition tracedStep (sortedPhotos : list PhotoWithHash)
    (acc : (bool * list PhotoWithHash * list MatchResult)
           * list (list MatchResult)) (k : nat)
    : (bool * list PhotoWithHash * list MatchResult) * list (list MatchResult) :=
  let '(st, published) := acc in
  (batchStep sortedPhotos st k, published ++ batchPublishes sortedPhotos st k).

Definition tracedBatches (photos : list PhotoWithHash)
    : (bool * list PhotoWithHash * list MatchResult) * list (list MatchResult) :=
  let sortedPhotos := stableSort byCreationTimeDesc photos in
  fold_left (tracedStep sortedPhotos)
            (seq 0 ((length sortedPhotos + batchSize - 1) / batchSize))
            ((false, [], []), []).

(** [findMatchingGroupsWithRealTimeResults]: the calls of [setMatchResults]
    and [setMatchGroups] of a run, in their order.  The run first clears
    the results; every match pushed inside the loop publishes the
    deduplicated candidates; after the loop, unless the run was cancelled,
    the deduplicated candidates are published once more and the groups
    built from them are set. *)
Definition findMatchingGroupsWithRealTimeResults (photos : list PhotoWithHash)
    : list Update :=
  let '((_, _, rawMatches), published) := tracedBatches photos in
  SetMatchResults []
  :: map SetMatchResults published
  ++ (if cancelledAtEnd then []
      else
        let deduplicatedMatches := processMatchesWithDeduplication rawMatches in
        let groups := createMatchGroupsFromResults deduplicatedMatches in
        [SetMatchResults deduplicatedMatches; SetMatchGroups groups]).
End Processing.

(** [photos.filter(p => p.id !== photoId)]. *)
Definition withoutPhoto (photoId : string) (photos : list PhotoWithHash)
    : list PhotoWithHash :=
  List.filter (fun p => negb (String.eqb (photo_id p) photoId)) photos.

Record State : Type := {
  allPhotos : list PhotoWithHash;
  matchGroups : list MatchGroup;
  matchResults : list MatchResult
}.

(** [handlePhotoDeleted]: the three state updates made at once; the reload
    from the device that follows on a mobile platform is not part of the
    model. *)
Definition handlePhotoDeleted (photoId : string) (st : State) : State :=
  {| allPhotos := withoutPhoto photoId (allPhotos st);
     matchGroups :=
       List.filter (fun group => (1 <? length (group_photos group))%nat)
         (map (fun group =>
                 {| group_id := group_id group;
                    group_photos := withoutPhoto photoId (group_photos group);
                    group_timeWindow := group_timeWindow group;
                    averageTime := averageTime group |})
              (matchGroups st));
     matchResults :=
       List.filter (fun m => (1 <? length (photos m))%nat)
         (map (fun m =>
                 {| match_id := match_id m;
                    photos := withoutPhoto photoId (photos m);
                    confidence := confidence m;
                    timeWindow := timeWindow m;
                    status := status m;
                    hammingDistance := hammingDistance m |})
              (matchResults st)) |}.

Definition withStatus (s : Status) (m : MatchResult) : MatchResult :=
  {| match_id := match_id m; photos := photos m; confidence := confidence m;
     timeWindow := timeWindow m; status := s;
     hammingDistance := hammingDistance m |}.

(** [handleApproveMatch] and [handleRejectMatch] on [matchResults]. *)
Definition handleApproveMatch (matchId : string) (prev : list MatchResult)
    : list MatchResult :=
  map (fun m => if String.eqb (match_id m) matchId
                then withStatus approved m else m) prev.

Definition handleRejectMatch (matchId : string) (prev : list MatchResult)
    : list MatchResult :=
  map (fun m => if String.eqb (match_id m) matchId
                then withStatus rejected m else m) prev.

End GalleryTab.

(** ** The photo detail view: [PhotoDetail.findSimilarPhotos]

    The function awaits [calculatePHash] and [calculateHammingDistance] for
    every other photo, five photos at a time; a failure of either is
    caught and makes the photo yield [null].  The hash of a photo is
    supplied by [calculatePHash], [None] standing for a failure. *)

Module PhotoDetail.

(** [{ ...otherPhoto, distance, similarity }]. *)
Record SimilarPhoto : Type := {
  similar_photo : PhotoWithHash;
  distance : Z;
  similarity : Z
}.

Section Finder.
Context (native : bool) (calculatePHash : string -> option string).

(** The callback of [batch.map]; [None] is [null]. *)
Definition compareWith (currentHash : string) (otherPhoto : PhotoWithHash)
    : option SimilarPhoto :=
  match calculatePHash (uri otherPhoto) with
  | Some otherHash =>
      match Web.calculateHammingDistance native currentHash otherHash with
      | Ret distance =>
          if distance <=? 20 then
            let similarity := Z.max 0 (100 - distance * 4) in
            Some {| similar_photo := otherPhoto;
                    distance := distance;
                    similarity := similarity |}
          else None
      | _ => None
      end
  | None => None
  end.

Definition batchSize : nat := 5.

(** One round of the batch loop, for the batch starting at
    [i = k * batchSize]. *)
Definition batchRound (currentHash : string) (otherPhotos : list PhotoWithHash)
    (similarResults : list SimilarPhoto) (k : nat) : list SimilarPhoto :=
  let i := (k * batchSize)%nat in
  let batch := take batchSize (drop i otherPhotos) in
  let batchResults := map (compareWith currentHash) batch in
  let validResults := omap (fun result => result) batchResults in
  similarResults ++ validResults.

(** [findSimilarPhotos]: the final contents of [similarResults], [None]
    when the function returns at once because there is no hash. *)
Definition findSimilarPhotos (pHash : option string)
    (currentPhoto : PhotoWithHash) (allPhotos : list PhotoWithHash)
    : option (list SimilarPhoto) :=
  match pHash with
  | None => None
  | Some currentHash =>
      if String.eqb currentHash "" then None
      else
        let otherPhotos :=
          List.filter (fun p => negb (String.eqb (photo_id p)
                                                 (photo_id currentPhoto)))
                      allPhotos in
        Some (fold_left (batchRound currentHash otherPhotos)
                (seq 0 ((length otherPhotos + batchSize - 1) / batchSize)) [])
  end.

(** [(a, b) => a.distance - b.distance]. *)
Definition byDistance (a b : SimilarPhoto) : bool := distance a <=? distance b.

(** The list given to [setSimilarPhotos]. *)
Definition shown (similarResults : list SimilarPhoto) : list SimilarPhoto :=
  stableSort byDistance similarResults.
End Finder.

End PhotoDetail.

(** ** The view counter: [utils/viewCounter.ts]

    The class keeps its state in a private field and, as JSON text, under
    one key of [AsyncStorage].  A world holds both; the stored text is
    given by the state it spells.  [getItem] and [setItem] may fail, and
    [Date.now()] is read from the clock; what a call meets of these is its
    environment, the readings numbered by call site: 0 inside [initialize],
    1 inside the method called. *)

Module ViewCounter.

Definition INITIAL_VIEW_COUNT : Z := 100.

Record ViewCounterState : Type := {
  remainingViews : Z;
  totalViews : Z;
  lastUpdated : Z
}.

Record World : Type := {
  state : option ViewCounterState;
  stored : option ViewCounterState
}.

Record Env : Type := {
  getItemFails : bool;
  setItemFails : nat -> bool;
  now : nat -> Z
}.

(** [saveState]: a failure of [setItem] is caught and logged. *)
Definition saveState (fails : bool) (w : World) : World :=
  match state w with
  | Some s => if fails then w else {| state := state w; stored := Some s |}
  | None => w
  end.

Definition initialize (env : Env) (w : World) : ViewCounterState * World :=
  let fresh := {| remainingViews := INITIAL_VIEW_COUNT;
                  totalViews := 0;
                  lastUpdated := now env 0 |} in
  if getItemFails env
  then (fresh, {| state := Some fresh; stored := stored w |})
  else
    match stored w with
    | Some s => (s, {| state := Some s; stored := stored w |})
    | None =>
        (fresh,
         saveState (setItemFails env 0)
                   {| state := Some fresh; stored := stored w |})
    end.

Definition getCurrentState (env : Env) (w : World) : ViewCounterState * World :=
  match state w with
  | Some s => (s, w)
  | None => initialize env w
  end.

Definition decrementView (env : Env) (w : World) : ViewCounterState * World :=
  let '(s, w) := match state w with
                 | Some s => (s, w)
                 | None => initialize env w
                 end in
  if remainingViews s >? 0 then
    let s' := {| remainingViews := remainingViews s - 1;
                 totalViews := totalViews s + 1;
                 lastUpdated := now env 1 |} in
    (s', saveState (setItemFails env 1) {| state := Some s'; stored := stored w |})
  else (s, w).

Definition resetCounter (env : Env) (w : World) : ViewCounterState * World :=
  let fresh := {| remainingViews := INITIAL_VIEW_COUNT;
                  totalViews := 0;
                  lastUpdated := now env 1 |} in
  (fresh,
   saveState (setItemFails env 1) {| state := Some fresh; stored := stored w |}).

End ViewCounter.

(** The world after one call of [decrementView] in each of the given
    environments, in turn. *)
Definition afterViews (envs : list ViewCounter.Env) (w : ViewCounter.World)
    : ViewCounter.World :=
  fold_left (fun w env => snd (ViewCounter.decrementView env w)) envs w.

(** The first run of the application: nothing in memory, nothing stored. *)
Definition firstRun : ViewCounter.World :=
  {| ViewCounter.state := None; ViewCounter.stored := None |}.

(** An environment without failures, at time 0. *)
Definition calmEnv : ViewCounter.Env :=
  {| ViewCounter.getItemFails := false;
     ViewCounter.setItemFails := fun _ => false;
     ViewCounter.now := fun _ => 0 |}.

(** ** Example inputs *)

Definition examplePhoto (id : string) : PhotoWithHash :=
  {| photo_id := id; uri := ""; filename := ""; creationTime := 0;
     width := 1; height := 1; pHash := None |}.

Definition exampleMatch (id : string) (photoIds : list string)
    (conf : Q) (windowStart windowEnd : Z) : MatchResult :=
  {| match_id := id; photos := map examplePhoto photoIds; confidence := conf;
     timeWindow := {| start := windowStart; end_ := windowEnd |};
     status := pending; hammingDistance := 5 |}.

(** G1 = {p1, p2, p3} at confidence 90 and its subset G2 = {p1, p2} at
    confidence 95. *)
Definition groupG1 : MatchResult := exampleMatch "G1" ["p1"; "p2"; "p3"] 90 0 10.
Definition groupG2 : MatchResult := exampleMatch "G2" ["p1"; "p2"] 95 0 10.

(** Three chained candidates: A and B overlap by 2/5, B and C overlap by
    2/5, A and C are disjoint. *)
Definition chainA : MatchResult := exampleMatch "A" ["1"; "2"; "3"] 90 0 10.
Definition chainB : MatchResult := exampleMatch "B" ["2"; "3"; "4"; "5"] 80 0 10.
Definition chainC : MatchResult := exampleMatch "C" ["4"; "5"; "6"] 75 0 10.

(** Two candidates with the photo-id set {p1, p2}, the first of which
    lists p1 twice, in disjoint time windows. *)
Definition repeatedA : MatchResult := exampleMatch "R1" ["p1"; "p1"; "p2"] 90 0 10.
Definition repeatedB : MatchResult := exampleMatch "R2" ["p1"; "p2"] 80 20 30.

(** Two candidates with different photo-id sets whose ids contain the
    separator, so that both have the key ["a|b|c"]. *)
Definition barA : MatchResult := exampleMatch "S1" ["a|b"; "c"] 90 0 10.
Definition barB : MatchResult := exampleMatch "S2" ["a"; "b|c"] 80 20 30.

(** Two candidates sharing 3 of 4 photo ids, in disjoint time windows. *)
Definition sharedA : MatchResult :=
  exampleMatch "T1" ["p1"; "p2"; "p3"; "p4"] 90 0 10.
Definition sharedB : MatchResult := exampleMatch "T2" ["p1"; "p2"; "p3"] 80 20 30.

(** A candidate sharing the same 3 photo ids with [sharedA], in a window
    that intersects the window of [sharedA]. *)
Definition sharedC : MatchResult := exampleMatch "T3" ["p1"; "p2"; "p3"] 80 5 30.

(** The end-to-end scenario: P1 at t = 0, P2 five minutes later at
    distance 3 from P1, P3 forty minutes after P1 at distance 4 from P1;
    the photos are processed in descending order of creation time. *)
Definition scenarioPhoto (id : string) (t : Z) (hash : string) : PhotoWithHash :=
  {| photo_id := id; uri := ""; filename := ""; creationTime := t;
     width := 32; height := 32; pHash := Some hash |}.

Definition scenarioP1 : PhotoWithHash :=
  scenarioPhoto "P1" 0 "0000000000000000".
Definition scenarioP2 : PhotoWithHash :=
  scenarioPhoto "P2" (5 * 60 * 1000) "0000000000000007".
Definition scenarioP3 : PhotoWithHash :=
  scenarioPhoto "P3" (40 * 60 * 1000) "000000000000000F".

Definition scenarioBatch : list PhotoWithHash :=
  [scenarioP3; scenarioP2; scenarioP1].

Definition scenarioRaw : list MatchResult :=
  CandidateGenerator.findMatchesInBatch false (fun _ => false) (fun _ => 0)
    scenarioBatch scenarioBatch [].

(** The candidate built for the seed P2. *)
Definition scenarioCandidate : MatchResult :=
  {| match_id := "match-P2-0";
     photos := [scenarioP1; scenarioP2];
     confidence := Qmax 0 (100 - (inject_Z 3 / inject_Z 1) * 3);
     timeWindow := CandidateGenerator.windowOf scenarioP2;
     status := pending;
     hammingDistance := (inject_Z 3 / inject_Z 1)%Q |}.

(** ** Further views used in the statements below *)

(** Every character is an ASCII character, with a code below 128. *)
Fixpoint allAscii (s : string) : bool :=
  match s with
  | EmptyString => true
  | String c r => (N_of_ascii c <? 128)%N && allAscii r
  end.

(** Every character is one of [0-9A-F]. *)
Definition isUpperHexDigit (c : ascii) : bool :=
  let n := N_of_ascii c in
  (((48 <=? n) && (n <=? 57)) || ((65 <=? n) && (n <=? 70)))%N.

Fixpoint allUpperHex (s : string) : bool :=
  match s with
  | EmptyString => true
  | String c r => isUpperHexDigit c && allUpperHex r
  end.

(** Number of 1 bits of a bit pattern. *)
Fixpoint setBits (bs : list bool) : Z :=
  match bs with
  | [] => 0
  | b :: r => (if b then 1 else 0) + setBits r
  end.

(** An 8x8 block of pairwise distinct coefficients, increasing in
    row-major order. *)
Definition rampCoefficients (i j : nat) : Z := Z.of_nat (8 * i + j).

(** The [Int] under which an Android bitmap stores a pixel with the given
    red, green, blue and alpha bytes: alpha in the top byte, then red,
    green and blue, read as a signed 32-bit number. *)
Definition argbPixel (r g b a : Z) : Z :=
  let u := a * 2 ^ 24 + r * 2 ^ 16 + g * 2 ^ 8 + b in
  if u <? 2 ^ 31 then u else u - 2 ^ 32.

(** The bitmap pixels that hold the same colours as the bytes of an
    [ImageData]. *)
Fixpoint argbPixels (data : list Z) : list Z :=
  match data with
  | r :: g :: b :: a :: rest => argbPixel r g b a :: argbPixels rest
  | _ => []
  end.

Definition isByte (x : Z) : Prop := 0 <= x < 256.

(** A candidate of [l] that is a strict subset of no candidate of [l]. *)
Definition isMaximalIn (l : list MatchResult) (x : MatchResult) : bool :=
  negb (existsb (MatchDeduplicator.isSubsetMatch x) l).

(** The score compared by the [reduce] of [advancedDeduplication]:
    confidence times number of photos. *)
Definition matchScore (m : MatchResult) : Q :=
  (confidence m * inject_Z (Z.of_nat (length (photos m))))%Q.

(** A cluster as [identifyPhotoClusters] builds it: a seed followed by
    matches that overlap the seed by more than 30%. *)
Definition seededCluster (cluster : list MatchResult) : Prop :=
  exists seed rest, cluster = seed :: rest /\
    forall x, x ∈ rest ->
      (3 # 10 < MatchDeduplicator.calculatePhotoOverlap seed x)%Q.

(** The test under which the inner loop of [findMatchesInBatch] pushes
    [otherPhoto] for the seed [newPhoto]: another id, a hash, a creation
    time inside the seed's window, and a distance of at most 20. *)
Definition acceptedBy (native : bool) (newPhoto otherPhoto : PhotoWithHash)
    : bool :=
  negb (String.eqb (photo_id otherPhoto) (photo_id newPhoto))
  && CandidateGenerator.hasHash otherPhoto
  && (creationTime otherPhoto
      >=? start (CandidateGenerator.windowOf newPhoto))
  && (creationTime otherPhoto
      <=? end_ (CandidateGenerator.windowOf newPhoto))
  && match Web.calculateHammingDistance native
             (CandidateGenerator.hashOf newPhoto)
             (CandidateGenerator.hashOf otherPhoto) with
     | Ret distance => distance <=? 20
     | _ => false
     end.

(** The neighbours that the seed finds among the processed photos. *)
Definition neighborsOf (native : bool) (allProcessedPhotos : list PhotoWithHash)
    (newPhoto : PhotoWithHash) : list PhotoWithHash :=
  List.filter (acceptedBy native newPhoto) allProcessedPhotos.

(** What the batch loop keeps true of a candidate in [rawMatches] once [j]
    batches are done: it is pending, it holds at least two photos, it was built for a seed of some batch
    [k < j], and all its photos were hashed in the batches up to [k]. *)
Definition builtWithin (hashed : PhotoWithHash -> PhotoWithHash)
    (sortedPhotos : list PhotoWithHash) (j : nat) (m : MatchResult) : Prop :=
  status m = pending /\
  (2 <= length (photos m))%nat /\
  exists k seed, (k < j)%nat /\
    seed ∈ map hashed (take GalleryTab.batchSize
                            (drop (k * GalleryTab.batchSize) sortedPhotos)) /\
    seed ∈ photos m /\
    timeWindow m = CandidateGenerator.windowOf seed /\
    forall p, p ∈ photos m ->
      p ∈ map hashed (take ((k + 1) * GalleryTab.batchSize) sortedPhotos).

(** A photo of the library before hashing, whose image is named by the
    fingerprint that hashing it yields. *)
Definition scenarioUpload (id : string) (t : Z) (hashOfUri : string)
    : PhotoWithHash :=
  {| photo_id := id; uri := hashOfUri; filename := ""; creationTime := t;
     width := 32; height := 32; pHash := None |}.

Definition scenarioLibrary : list PhotoWithHash :=
  [scenarioUpload "P1" 0 "0000000000000000";
   scenarioUpload "P2" (5 * 60 * 1000) "0000000000000007"].

(** * Theorems *)

(** ** Hamming distance *)

Section CountBits.

Lemma nibble_cases (x : Z) :
  0 <= x < 16 ->
  x = 0 \/ x = 1 \/ x = 2 \/ x = 3 \/ x = 4 \/ x = 5 \/ x = 6 \/ x = 7 \/
  x = 8 \/ x = 9 \/ x = 10 \/ x = 11 \/ x = 12 \/ x = 13 \/ x = 14 \/ x = 15.
Proof. lia. Qed.

Ltac nibble x H :=
  apply nibble_cases in H;
  repeat (destruct H as [H | H]; [subst x | ]); [.. | subst x].

Lemma lxor_nibble (a b : Z) :
  0 <= a < 16 -> 0 <= b < 16 -> 0 <= Z.lxor a b < 16.
Proof.
  intros Ha Hb. nibble a Ha; nibble b Hb; vm_compute; split; congruence.
Qed.

Lemma popcount4_range (x : Z) : 0 <= x < 16 -> 0 <= popcount4 x <= 4.
Proof. intros H. nibble x H; vm_compute; split; congruence. Qed.

(** The running total only offsets the result of the loop. *)
Lemma kotlin_countBits_offset (fuel : nat) (x d : Z) :
  Kotlin.countBits fuel x d =
  match Kotlin.countBits fuel x 0 with
  | Ret r => Ret (d + r)
  | Throw e => Throw e
  | Diverge => Diverge
  end.
Proof.
  revert x d. induction fuel as [|fuel IH]; intros x d; simpl.
  - destruct (x =? 0); [f_equal; lia | reflexivity].
  - destruct (x =? 0); [f_equal; lia | ].
    rewrite (IH _ (d + _)), (IH _ (0 + _)).
    destruct (Kotlin.countBits fuel _ 0); try reflexivity. f_equal; lia.
Qed.

Lemma web_countBits_offset (fuel : nat) (x d : Z) :
  Web.countBits fuel x d =
  match Web.countBits fuel x 0 with
  | Ret r => Ret (d + r)
  | Throw e => Throw e
  | Diverge => Diverge
  end.
Proof.
  revert x d. induction fuel as [|fuel IH]; intros x d; simpl.
  - destruct (x =? 0); [f_equal; lia | reflexivity].
  - destruct (x =? 0); [f_equal; lia | ].
    rewrite (IH _ (d + _)), (IH _ (0 + _)).
    destruct (Web.countBits fuel _ 0); try reflexivity. f_equal; lia.
Qed.

(** The bit-counting loop returns within its 32 rounds on a hex digit. *)
Lemma kotlin_countBits_nibble (x d : Z) :
  0 <= x < 16 -> Kotlin.countBits 32 x d = Ret (d + popcount4 x).
Proof.
  intros H. rewrite kotlin_countBits_offset.
  nibble x H; vm_compute Kotlin.countBits; reflexivity.
Qed.

Lemma web_countBits_nibble (x d : Z) :
  0 <= x < 16 -> Web.countBits 32 x d = Ret (d + popcount4 x).
Proof.
  intros H. rewrite web_countBits_offset.
  nibble x H; vm_compute Web.countBits; reflexivity.
Qed.

Lemma hexDigitValue_range (c : ascii) (v : Z) :
  Numeral.hexDigitValue c = Some v -> 0 <= v < 16.
Proof.
  unfold Numeral.hexDigitValue.
  repeat case_match; intros [= <-];
    match goal with
    | H : (_ && _)%bool = true |- _ => apply andb_prop in H as [? ?]
    end; lia.
Qed.

Lemma toInt32_range (c : ascii) : 0 <= Web.toInt32 (Web.parseInt16 c) < 16.
Proof.
  unfold Web.toInt32, Web.parseInt16.
  destruct (Numeral.hexDigitValue c) eqn:E; [eauto using hexDigitValue_range | lia].
Qed.

End CountBits.

#[local] Arguments Kotlin.countBits : simpl never.
#[local] Arguments Web.countBits : simpl never.

Section DistanceLoops.

Lemma web_distanceLoop_spec (hash1 hash2 : string) (d : Z) :
  Web.distanceLoop hash1 hash2 d = Ret (d + digitDistance hash1 hash2).
Proof.
  revert hash2 d. induction hash1 as [|c1 r1 IH]; intros [|c2 r2] d; simpl;
    try (f_equal; lia).
  rewrite web_countBits_nibble
    by (apply lxor_nibble; apply toInt32_range).
  simpl. rewrite IH. f_equal. lia.
Qed.

Lemma kotlin_distanceLoop_hex (hash1 hash2 : string) (d : Z) :
  allHex hash1 = true -> allHex hash2 = true ->
  Kotlin.distanceLoop hash1 hash2 d = Ret (d + digitDistance hash1 hash2).
Proof.
  revert hash2 d. induction hash1 as [|c1 r1 IH]; intros [|c2 r2] d; simpl;
    try (intros; f_equal; lia).
  unfold Kotlin.toInt16, Web.parseInt16.
  destruct (Numeral.hexDigitValue c1) as [v1|] eqn:E1; [|discriminate].
  destruct (Numeral.hexDigitValue c2) as [v2|] eqn:E2; [|discriminate].
  intros H1 H2. simpl.
  rewrite kotlin_countBits_nibble
    by (apply lxor_nibble; eauto using hexDigitValue_range).
  simpl. rewrite IH by assumption. f_equal. lia.
Qed.

Lemma kotlin_distanceLoop_sym (hash1 hash2 : string) (d : Z) :
  Kotlin.distanceLoop hash1 hash2 d = Kotlin.distanceLoop hash2 hash1 d.
Proof.
  revert hash2 d. induction hash1 as [|c1 r1 IH]; intros [|c2 r2] d; simpl;
    try reflexivity.
  unfold Kotlin.toInt16.
  destruct (Numeral.hexDigitValue c1) as [v1|] eqn:E1;
    destruct (Numeral.hexDigitValue c2) as [v2|] eqn:E2; simpl; try reflexivity.
  rewrite (Z.lxor_comm v2 v1).
  destruct (Kotlin.countBits 32 (Z.lxor v1 v2) d); simpl; auto.
Qed.

(** The Kotlin loop never raises the length error. *)
Lemma kotlin_distanceLoop_no_mismatch (hash1 hash2 : string) (d : Z) :
  Kotlin.distanceLoop hash1 hash2 d <> Throw LengthMismatch.
Proof.
  revert hash2 d. induction hash1 as [|c1 r1 IH]; intros [|c2 r2] d; simpl;
    try discriminate.
  unfold Kotlin.toInt16.
  destruct (Numeral.hexDigitValue c1) as [v1|] eqn:E1; simpl; [|discriminate].
  destruct (Numeral.hexDigitValue c2) as [v2|] eqn:E2; simpl; [|discriminate].
  rewrite kotlin_countBits_nibble
    by (apply lxor_nibble; eauto using hexDigitValue_range).
  simpl. apply IH.
Qed.

Lemma digitDistance_sym (hash1 hash2 : string) :
  digitDistance hash1 hash2 = digitDistance hash2 hash1.
Proof.
  revert hash2. induction hash1 as [|c1 r1 IH]; intros [|c2 r2]; simpl;
    try reflexivity.
  rewrite IH, Z.lxor_comm. reflexivity.
Qed.

Lemma digitDistance_diag (hash : string) : digitDistance hash hash = 0.
Proof.
  induction hash as [|c r IH]; simpl; [reflexivity|].
  rewrite Z.lxor_nilpotent, IH. reflexivity.
Qed.

Lemma digitDistance_range (hash1 hash2 : string) :
  0 <= digitDistance hash1 hash2 <= 4 * Z.of_nat (String.length hash1).
Proof.
  revert hash2. induction hash1 as [|c1 r1 IH]; intros [|c2 r2];
    cbn [digitDistance String.length]; try lia.
  specialize (IH r2).
  pose proof (popcount4_range _ (lxor_nibble _ _ (toInt32_range c1) (toInt32_range c2))).
  lia.
Qed.

Lemma length_eqb_sym (a b : string) :
  Nat.eqb (String.length a) (String.length b)
  = Nat.eqb (String.length b) (String.length a).
Proof. apply Nat.eqb_sym. Qed.

Lemma kotlin_hammingDistance_sym (hash1 hash2 : string) :
  Kotlin.hammingDistance hash1 hash2 = Kotlin.hammingDistance hash2 hash1.
Proof.
  unfold Kotlin.hammingDistance. rewrite length_eqb_sym.
  destruct (Nat.eqb _ _); simpl; [apply kotlin_distanceLoop_sym | reflexivity].
Qed.

Lemma web_hammingDistanceJS_spec (hash1 hash2 : string) :
  Web.hammingDistanceJS hash1 hash2 =
  if Nat.eqb (String.length hash1) (String.length hash2)
  then Ret (digitDistance hash1 hash2) else Throw LengthMismatch.
Proof.
  unfold Web.hammingDistanceJS.
  destruct (Nat.eqb _ _); simpl; [|reflexivity].
  rewrite web_distanceLoop_spec. reflexivity.
Qed.



(** On strings of equal length the Kotlin loop stops with a number
    format error as soon as a character is no hex digit. *)
Lemma kotlin_distanceLoop_nonhex (hash1 hash2 : string) (d : Z) :
  String.length hash1 = String.length hash2 ->
  allHex hash1 && allHex hash2 = false ->
  Kotlin.distanceLoop hash1 hash2 d = Throw NumberFormat.
Proof.
  revert hash2 d. induction hash1 as [|c1 r1 IH]; intros [|c2 r2] d; simpl;
    try discriminate.
  intros [= Hlen]. unfold Kotlin.toInt16.
  destruct (Numeral.hexDigitValue c1) as [v1|] eqn:E1; simpl; [|reflexivity].
  destruct (Numeral.hexDigitValue c2) as [v2|] eqn:E2; simpl.
  - intros H. rewrite kotlin_countBits_nibble
      by (apply lxor_nibble; eauto using hexDigitValue_range).
    simpl. auto.
  - reflexivity.
Qed.

(** With the native module a failure falls back to JavaScript, so the
    exported function agrees with the JavaScript loop whenever the
    lengths agree, and raises the length error otherwise. *)
Lemma calculateHammingDistance_spec (native : bool) (hash1 hash2 : string) :
  Web.calculateHammingDistance native hash1 hash2 =
  if Nat.eqb (String.length hash1) (String.length hash2)
  then Ret (digitDistance hash1 hash2) else Throw LengthMismatch.
Proof.
  unfold Web.calculateHammingDistance.
  rewrite web_hammingDistanceJS_spec. destruct native; [|reflexivity].
  unfold Kotlin.hammingDistance.
  destruct (Nat.eqb _ _) eqn:E; simpl; [|reflexivity].
  apply Nat.eqb_eq in E.
  destruct (allHex hash1 && allHex hash2) eqn:H.
  - apply andb_prop in H as [H1 H2].
    rewrite kotlin_distanceLoop_hex by assumption. reflexivity.
  - rewrite kotlin_distanceLoop_nonhex by assumption. reflexivity.
Qed.

End DistanceLoops.

(** ** Hex packing *)

#[local] Arguments String.append !_ _ / : simpl nomatch.

Section Packing.

Lemma list_ind4 {A : Type} (P : list A -> Prop) :
  P [] ->
  (forall short, (0 < length short < 4)%nat -> P short) ->
  (forall a b c d rest, P rest -> P (a :: b :: c :: d :: rest)) ->
  forall l, P l.
Proof.
  intros H0 Hs H4. fix IH 1.
  intros [|a [|b [|c [|d rest]]]];
    [exact H0 | apply Hs; simpl; lia .. | apply H4, IH].
Qed.

Lemma short_cases {A : Type} (l : list A) :
  (0 < length l < 4)%nat ->
  (exists a, l = [a]) \/ (exists a b, l = [a; b]) \/ (exists a b c, l = [a; b; c]).
Proof.
  destruct l as [|a [|b [|c [|d r]]]]; simpl; intros H; try lia; eauto 6.
Qed.

Lemma string_length_app (s1 s2 : string) :
  String.length (s1 ++ s2) = (String.length s1 + String.length s2)%nat.
Proof. induction s1; simpl; congruence. Qed.

Lemma string_app_assoc (s1 s2 s3 : string) :
  ((s1 ++ s2) ++ s3 = s1 ++ (s2 ++ s3))%string.
Proof. induction s1; simpl; congruence. Qed.

Lemma string_app_nil_r (s : string) : (s ++ "")%string = s.
Proof. induction s; simpl; congruence. Qed.

Lemma substring_skip (pre s : string) (k : nat) :
  substring (String.length pre) k (pre ++ s) = substring 0 k s.
Proof. induction pre; simpl; auto. Qed.

Lemma bitString_length (bs : list bool) :
  String.length (bitString bs) = length bs.
Proof. induction bs; simpl; congruence. Qed.

Lemma bitString_app (xs ys : list bool) :
  bitString (xs ++ ys) = (bitString xs ++ bitString ys)%string.
Proof. induction xs; simpl; congruence. Qed.

Lemma uppercase_app (s1 s2 : string) :
  Numeral.uppercase (s1 ++ s2)
  = (Numeral.uppercase s1 ++ Numeral.uppercase s2)%string.
Proof. induction s1; simpl; congruence. Qed.

(** The accumulated [binaryHash] is the bit string of the comparisons. *)
Lemma fold_bitChar {A : Type} (f : A -> bool) (l : list A) (acc : string) :
  fold_left (fun acc x => (acc ++ bitChar (f x))%string) l acc
  = (acc ++ bitString (map f l))%string.
Proof.
  revert acc. induction l as [|x l IH]; intros acc; simpl.
  - symmetry. apply string_app_nil_r.
  - rewrite IH, string_app_assoc. f_equal. destruct (f x); reflexivity.
Qed.

Lemma substring_bits (k : nat) (bs : list bool) :
  substring 0 k (bitString bs) = bitString (take k bs).
Proof.
  revert k. induction bs as [|b bs IH]; intros [|k]; simpl; try reflexivity.
  f_equal. apply IH.
Qed.

Lemma binDigitValue_bit (b : bool) :
  Numeral.binDigitValue (bitAscii b) = Some (if b then 1 else 0).
Proof. destruct b; reflexivity. Qed.

Lemma toInt2_go_bits (bs : list bool) (acc : Z) :
  Numeral.toInt2_go (bitString bs) acc
  = Some (fold_left (fun acc (b : bool) => 2 * acc + (if b then 1 else 0)) bs acc).
Proof.
  revert acc. induction bs as [|b bs IH]; intros acc; simpl; [reflexivity|].
  rewrite binDigitValue_bit. apply IH.
Qed.

Lemma toInt2_bits (bs : list bool) :
  bs <> [] -> Numeral.toInt2 (bitString bs) = Ret (bitsValue bs).
Proof.
  destruct bs as [|b bs]; [congruence|]. intros _.
  unfold Numeral.toInt2. rewrite toInt2_go_bits. reflexivity.
Qed.

Lemma parseInt2_go_bits (bs : list bool) (acc : Z) :
  Numeral.parseInt2_go (bitString bs) acc
  = fold_left (fun acc (b : bool) => 2 * acc + (if b then 1 else 0)) bs acc.
Proof.
  revert acc. induction bs as [|b bs IH]; intros acc; simpl; [reflexivity|].
  rewrite binDigitValue_bit. apply IH.
Qed.

Lemma parseInt2_bits (bs : list bool) :
  bs <> [] -> Numeral.parseInt2 (bitString bs) = Some (bitsValue bs).
Proof.
  destruct bs as [|b bs]; [congruence|]. intros _.
  unfold Numeral.parseInt2. rewrite parseInt2_go_bits. cbn [bitString].
  rewrite binDigitValue_bit. reflexivity.
Qed.

Lemma padEnd4_bits (bs : list bool) :
  Numeral.padEnd4 (bitString bs)
  = bitString (bs ++ repeat false (4 - length bs)).
Proof.
  unfold Numeral.padEnd4. rewrite bitString_length, bitString_app. f_equal.
  induction (4 - length bs)%nat; simpl; congruence.
Qed.

Lemma kotlin_hexLoop_done (fuel : nat) (s : string) (i : nat) (acc : string) :
  (String.length s <= i)%nat -> Kotlin.hexLoop fuel s i acc = Ret acc.
Proof.
  intros H. destruct fuel; simpl;
    destruct (Nat.ltb_spec i (String.length s)); (lia || reflexivity).
Qed.

Lemma kotlin_hexLoop_step (fuel : nat) (s : string) (i : nat) (acc : string) :
  (i < String.length s)%nat ->
  Kotlin.hexLoop (S fuel) s i acc =
  let* v := Numeral.toInt2 (Numeral.padEnd4
              (substring i (Nat.min (i + 4) (String.length s) - i) s)) in
  Kotlin.hexLoop fuel s (i + 4) (acc ++ Numeral.toString16 v).
Proof.
  intros H. simpl. destruct (Nat.ltb_spec i (String.length s)); [reflexivity | lia].
Qed.

Lemma web_hexLoop_done (fuel : nat) (s : string) (i : nat) (acc : string) :
  (String.length s <= i)%nat -> Web.hexLoop fuel s i acc = Ret acc.
Proof.
  intros H. destruct fuel; simpl;
    destruct (Nat.ltb_spec i (String.length s)); (lia || reflexivity).
Qed.

Lemma web_hexLoop_step (fuel : nat) (s : string) (i : nat) (acc : string) :
  (i < String.length s)%nat ->
  Web.hexLoop (S fuel) s i acc =
  Web.hexLoop fuel s (i + 4)
    (acc ++ match Numeral.parseInt2 (substring i 4 s) with
            | Some v => Numeral.toString16 v
            | None => "NaN"
            end).
Proof.
  intros H. simpl. destruct (Nat.ltb_spec i (String.length s)); [reflexivity | lia].
Qed.

(** The native loop packs with padding. *)
Lemma kotlin_hexLoop_spec (bs : list bool) :
  forall (fuel : nat) (pre acc : string),
    (length bs <= fuel)%nat ->
    Kotlin.hexLoop fuel (pre ++ bitString bs) (String.length pre) acc
    = Ret (acc ++ packPadded bs)%string.
Proof.
  induction bs as [|short Hshort|a b c d rest IH] using list_ind4;
    intros fuel pre acc Hfuel.
  - rewrite kotlin_hexLoop_done by (rewrite string_length_app; simpl; lia).
    simpl. rewrite string_app_nil_r. reflexivity.
  - destruct fuel as [|fuel]; [lia|].
    rewrite kotlin_hexLoop_step
      by (rewrite string_length_app, bitString_length; lia).
    rewrite string_length_app, bitString_length.
    replace (Nat.min (String.length pre + 4) (String.length pre + length short)
             - String.length pre)%nat with (length short) by lia.
    rewrite substring_skip.
    rewrite substring_bits, take_ge by lia.
    rewrite padEnd4_bits, toInt2_bits
      by (destruct short; simpl in *; [lia | discriminate]).
    cbn [bind].
    rewrite kotlin_hexLoop_done
      by (rewrite string_length_app, bitString_length; lia).
    destruct (short_cases short Hshort) as [(?&->)|[(?&?&->)|(?&?&?&->)]];
      reflexivity.
  - destruct fuel as [|fuel]; [simpl in Hfuel; lia|].
    rewrite kotlin_hexLoop_step
      by (rewrite string_length_app, bitString_length; simpl; lia).
    rewrite string_length_app, bitString_length.
    replace (Nat.min (String.length pre + 4)
               (String.length pre + length (a :: b :: c :: d :: rest))
             - String.length pre)%nat with 4%nat by (simpl; lia).
    rewrite substring_skip.
    rewrite substring_bits. cbn [take].
    rewrite padEnd4_bits, toInt2_bits by discriminate.
    cbn [bind length Nat.sub repeat]. rewrite app_nil_r.
    change (bitString (a :: b :: c :: d :: rest))
      with (bitString [a; b; c; d] ++ bitString rest)%string.
    rewrite <- string_app_assoc.
    replace (String.length pre + 4)%nat
      with (String.length (pre ++ bitString [a; b; c; d]))
      by (rewrite string_length_app; reflexivity).
    rewrite IH by (simpl in Hfuel; lia).
    rewrite string_app_assoc. reflexivity.
Qed.

(** The web loop packs without padding. *)
Lemma web_hexLoop_spec (bs : list bool) :
  forall (fuel : nat) (pre acc : string),
    (length bs <= fuel)%nat ->
    Web.hexLoop fuel (pre ++ bitString bs) (String.length pre) acc
    = Ret (acc ++ packUnpadded bs)%string.
Proof.
  induction bs as [|short Hshort|a b c d rest IH] using list_ind4;
    intros fuel pre acc Hfuel.
  - rewrite web_hexLoop_done by (rewrite string_length_app; simpl; lia).
    simpl. rewrite string_app_nil_r. reflexivity.
  - destruct fuel as [|fuel]; [lia|].
    rewrite web_hexLoop_step
      by (rewrite string_length_app, bitString_length; lia).
    rewrite substring_skip.
    rewrite substring_bits, take_ge by lia.
    rewrite parseInt2_bits
      by (destruct short; simpl in *; [lia | discriminate]).
    rewrite web_hexLoop_done
      by (rewrite string_length_app, bitString_length; lia).
    destruct (short_cases short Hshort) as [(?&->)|[(?&?&->)|(?&?&?&->)]];
      reflexivity.
  - destruct fuel as [|fuel]; [simpl in Hfuel; lia|].
    rewrite web_hexLoop_step
      by (rewrite string_length_app, bitString_length; simpl; lia).
    rewrite substring_skip.
    rewrite substring_bits. cbn [take].
    rewrite parseInt2_bits by discriminate.
    change (bitString (a :: b :: c :: d :: rest))
      with (bitString [a; b; c; d] ++ bitString rest)%string.
    rewrite <- string_app_assoc.
    replace (String.length pre + 4)%nat
      with (String.length (pre ++ bitString [a; b; c; d]))
      by (rewrite string_length_app; reflexivity).
    rewrite IH by (simpl in Hfuel; lia).
    rewrite string_app_assoc. reflexivity.
Qed.

Lemma kotlin_binaryToHex_spec (bs : list bool) :
  Kotlin.binaryToHex (bitString bs) = Ret (Numeral.uppercase (packPadded bs)).
Proof.
  unfold Kotlin.binaryToHex.
  rewrite (kotlin_hexLoop_spec bs _ "" "") by (rewrite bitString_length; lia).
  reflexivity.
Qed.

Lemma web_binaryToHex_spec (bs : list bool) :
  Web.binaryToHex (bitString bs) = Ret (Numeral.uppercase (packUnpadded bs)).
Proof.
  unfold Web.binaryToHex.
  rewrite (web_hexLoop_spec bs _ "" "") by (rewrite bitString_length; lia).
  reflexivity.
Qed.

End Packing.

(** ** From bits to digits and back *)

Section Digits.

Ltac all_bools :=
  repeat match goal with b : bool |- _ => destruct b end.

Lemma digit_of_bits (bs : list bool) :
  (0 < length bs <= 4)%nat ->
  exists ch, Numeral.toString16 (bitsValue bs) = String ch ""
             /\ Numeral.hexDigitValue (Numeral.upperChar ch) = Some (bitsValue bs).
Proof.
  intros H.
  exists (match Numeral.toString16 (bitsValue bs) with
          | String ch _ => ch
          | EmptyString => "0"%char
          end).
  destruct bs as [|a [|b [|c [|d [|e r]]]]]; cbn [length] in H; try lia;
    all_bools; split; vm_compute; reflexivity.
Qed.

Lemma popcount_differing (xs ys : list bool) :
  length xs = length ys -> (length xs <= 4)%nat ->
  popcount4 (Z.lxor (bitsValue xs) (bitsValue ys)) = differingBits xs ys.
Proof.
  destruct xs as [|a [|b [|c [|d [|e r]]]]];
    destruct ys as [|a' [|b' [|c' [|d' [|e' r']]]]];
    intros H1 H2; cbn [length] in H1, H2; try lia; all_bools; reflexivity.
Qed.

Lemma differingBits_app (xs ys xs' ys' : list bool) :
  length xs = length ys ->
  differingBits (xs ++ xs') (ys ++ ys')
  = differingBits xs ys + differingBits xs' ys'.
Proof.
  revert ys. induction xs as [|x xs IH]; intros [|y ys]; simpl;
    try discriminate; [reflexivity|].
  intros [= H]. rewrite IH by assumption. lia.
Qed.

Lemma differingBits_repeat (n : nat) :
  differingBits (repeat false n) (repeat false n) = 0.
Proof. induction n; simpl; lia. Qed.


Lemma differingBits_sym (xs ys : list bool) :
  differingBits xs ys = differingBits ys xs.
Proof.
  revert ys. induction xs as [|x xs IH]; intros [|y ys]; simpl; try reflexivity.
  rewrite IH. destruct x, y; reflexivity.
Qed.

(** Distance between two one-digit-per-group encodings. *)
Lemma digitDistance_group (g1 g2 : list bool) (r1 r2 : string) :
  (0 < length g1 <= 4)%nat -> length g1 = length g2 ->
  digitDistance
    (Numeral.uppercase (Numeral.toString16 (bitsValue g1) ++ r1))
    (Numeral.uppercase (Numeral.toString16 (bitsValue g2) ++ r2))
  = differingBits g1 g2
    + digitDistance (Numeral.uppercase r1) (Numeral.uppercase r2).
Proof.
  intros H1 H2.
  destruct (digit_of_bits g1 H1) as (c1 & -> & E1).
  destruct (digit_of_bits g2) as (c2 & -> & E2); [lia|].
  simpl. unfold Web.parseInt16. rewrite E1, E2. simpl.
  rewrite popcount_differing by lia. reflexivity.
Qed.

Lemma digitDistance_packPadded (xs : list bool) :
  forall ys, length xs = length ys ->
    digitDistance (Numeral.uppercase (packPadded xs))
                  (Numeral.uppercase (packPadded ys))
    = differingBits xs ys.
Proof.
  induction xs as [|short Hshort|a b c d rest IH] using list_ind4; intros ys Hlen.
  - destruct ys; [reflexivity | discriminate].
  - assert (packPadded short
            = (Numeral.toString16
                 (bitsValue (short ++ repeat false (4 - length short))) ++ "")%string
            /\ packPadded ys
            = (Numeral.toString16
                 (bitsValue (ys ++ repeat false (4 - length ys))) ++ "")%string)
      as [-> ->].
    { rewrite <- Hlen.
      destruct (short_cases short Hshort) as [(?&->)|[(?&?&->)|(?&?&?&->)]];
        destruct ys as [|? [|? [|? [|? ?]]]]; try discriminate;
        rewrite !string_app_nil_r; split; reflexivity. }
    rewrite digitDistance_group
      by (rewrite ?length_app, ?repeat_length; lia).
    rewrite <- Hlen, differingBits_app, differingBits_repeat by assumption.
    simpl. lia.
  - destruct ys as [|a' [|b' [|c' [|d' rest']]]]; try discriminate.
    injection Hlen as Hlen. cbn [packPadded].
    rewrite digitDistance_group by (simpl; lia).
    rewrite IH by assumption.
    change (a :: b :: c :: d :: rest) with ([a; b; c; d] ++ rest).
    change (a' :: b' :: c' :: d' :: rest') with ([a'; b'; c'; d'] ++ rest').
    rewrite differingBits_app by reflexivity. reflexivity.
Qed.

Lemma digitDistance_packUnpadded (xs : list bool) :
  forall ys, length xs = length ys ->
    digitDistance (Numeral.uppercase (packUnpadded xs))
                  (Numeral.uppercase (packUnpadded ys))
    = differingBits xs ys.
Proof.
  induction xs as [|short Hshort|a b c d rest IH] using list_ind4; intros ys Hlen.
  - destruct ys; [reflexivity | discriminate].
  - assert (packUnpadded short = (Numeral.toString16 (bitsValue short) ++ "")%string
            /\ packUnpadded ys = (Numeral.toString16 (bitsValue ys) ++ "")%string)
      as [-> ->].
    { destruct (short_cases short Hshort) as [(?&->)|[(?&?&->)|(?&?&?&->)]];
        destruct ys as [|? [|? [|? [|? ?]]]]; try discriminate;
        rewrite !string_app_nil_r; split; reflexivity. }
    rewrite digitDistance_group by lia.
    simpl. lia.
  - destruct ys as [|a' [|b' [|c' [|d' rest']]]]; try discriminate.
    injection Hlen as Hlen. cbn [packUnpadded].
    rewrite digitDistance_group by (simpl; lia).
    rewrite IH by assumption.
    change (a :: b :: c :: d :: rest) with ([a; b; c; d] ++ rest).
    change (a' :: b' :: c' :: d' :: rest') with ([a'; b'; c'; d'] ++ rest').
    rewrite differingBits_app by reflexivity. reflexivity.
Qed.

Lemma uppercase_length (s : string) :
  String.length (Numeral.uppercase s) = String.length s.
Proof. induction s; simpl; congruence. Qed.

(** One digit per started group of four bits. *)
Lemma packPadded_length (bs : list bool) :
  String.length (packPadded bs) = ((length bs + 3) / 4)%nat.
Proof.
  induction bs as [|short Hshort|a b c d rest IH] using list_ind4.
  - reflexivity.
  - destruct (short_cases short Hshort) as [(a&->)|[(a&b&->)|(a&b&c&->)]];
      all_bools; reflexivity.
  - cbn [packPadded]. rewrite string_length_app, IH.
    destruct (digit_of_bits [a; b; c; d]) as (ch & -> & _); [simpl; lia|].
    cbn [length String.length].
    replace (S (S (S (S (length rest)))) + 3)%nat
      with (1 * 4 + (length rest + 3))%nat by lia.
    rewrite Nat.div_add_l by lia. reflexivity.
Qed.

Lemma packUnpadded_length (bs : list bool) :
  String.length (packUnpadded bs) = ((length bs + 3) / 4)%nat.
Proof.
  induction bs as [|short Hshort|a b c d rest IH] using list_ind4.
  - reflexivity.
  - destruct (short_cases short Hshort) as [(a&->)|[(a&b&->)|(a&b&c&->)]];
      all_bools; reflexivity.
  - cbn [packUnpadded]. rewrite string_length_app, IH.
    destruct (digit_of_bits [a; b; c; d]) as (ch & -> & _); [simpl; lia|].
    cbn [length String.length].
    replace (S (S (S (S (length rest)))) + 3)%nat
      with (1 * 4 + (length rest + 3))%nat by lia.
    rewrite Nat.div_add_l by lia. reflexivity.
Qed.




End Digits.

(** ** The two hash generators in terms of the comparison bits *)

Section Generators.
Context {C : Type} (lt : C -> C -> Prop) `{!RelDecision lt}.

Lemma collect_length (m : nat -> nat -> C) :
  length (Kotlin.collectCoefficients m) = 63%nat.
Proof. reflexivity. Qed.

Lemma median_exists (m : nat -> nat -> C) :
  exists median,
    merge_sort (ascending lt) (Kotlin.collectCoefficients m)
      !! (length (merge_sort (ascending lt) (Kotlin.collectCoefficients m)) / 2)%nat
    = Some median.
Proof.
  apply lookup_lt_is_Some.
  rewrite (Permutation_length (merge_sort_Permutation _ _)), collect_length.
  apply Nat.div_lt; lia.
Qed.

Lemma hashBits_length (m : nat -> nat -> C) : length (hashBits lt m) = 63%nat.
Proof.
  unfold hashBits. destruct (median_exists m) as [median ->].
  rewrite length_map. apply collect_length.
Qed.

Lemma kotlin_generate_bits (m : nat -> nat -> C) :
  Kotlin.generateHashFromDCT lt m
  = Ret (Numeral.uppercase (packPadded (hashBits lt m))).
Proof.
  unfold Kotlin.generateHashFromDCT, hashBits.
  destruct (median_exists m) as [median ->].
  unfold Kotlin.binaryHashOf. rewrite fold_bitChar.
  apply kotlin_binaryToHex_spec.
Qed.

Lemma web_generate_bits (m : nat -> nat -> C) :
  Web.generateHashFromDCT lt m
  = Ret (Numeral.uppercase (packUnpadded (hashBits lt m))).
Proof.
  unfold Web.generateHashFromDCT, hashBits.
  change (Web.collectCoefficients m) with (Kotlin.collectCoefficients m).
  destruct (median_exists m) as [median ->].
  unfold Web.binaryHashOf. rewrite fold_bitChar.
  apply web_binaryToHex_spec.
Qed.


End Generators.

(** ** Claims about the fingerprint and the distance *)

(** C1. Hex packing of the 63-bit pattern of all ones.  The native packing
    loop yields ["FFFFFFFFFFFFFFFE"]: the last group [111] is padded to
    [1110].  The web loop reads the last group unpadded as [111] = 7 and
    yields ["FFFFFFFFFFFFFFF7"]. *)
Theorem hex_packing_all_ones :
  Kotlin.binaryToHex ones63 = Ret "FFFFFFFFFFFFFFFE" /\
  Web.binaryToHex ones63 = Ret "FFFFFFFFFFFFFFF7".
Proof. split; vm_compute; reflexivity. Qed.

(** The same divergence on an input of [generateHashFromDCT]: the block
    whose only non-zero coefficient is [dctCoefficients[7][7] = 1]. *)
Lemma generate_last_coefficient_only :
  Kotlin.generateHashFromDCT Z.lt lastCoefficientOnly = Ret "0000000000000002" /\
  Web.generateHashFromDCT Z.lt lastCoefficientOnly = Ret "0000000000000001".
Proof. split; vm_compute; reflexivity. Qed.

(** C8. On hex strings the distance fails with the length error exactly
    when the lengths differ, in the exported function (with or without the
    native module) and in the native function; on equal lengths both return
    an integer. *)
Theorem distance_length_mismatch
    (native : bool) (hexA hexB : string)
    (HA : allHex hexA = true) (HB : allHex hexB = true) :
  (Web.calculateHammingDistance native hexA hexB = Throw LengthMismatch
   <-> String.length hexA <> String.length hexB) /\
  (Kotlin.hammingDistance hexA hexB = Throw LengthMismatch
   <-> String.length hexA <> String.length hexB) /\
  (String.length hexA = String.length hexB ->
   exists d : Z,
     Web.calculateHammingDistance native hexA hexB = Ret d /\
     Kotlin.hammingDistance hexA hexB = Ret d).
Proof.
  rewrite calculateHammingDistance_spec. unfold Kotlin.hammingDistance.
  destruct (Nat.eqb_spec (String.length hexA) (String.length hexB)) as [E|E];
    simpl.
  - rewrite kotlin_distanceLoop_hex by assumption.
    repeat split; try discriminate; try contradiction; eauto.
  - repeat split; try contradiction; auto.
Qed.

Lemma distance_length_mismatch_witness :
  (Web.calculateHammingDistance true "FFFFFFFFFFFFFFFE" "0000000000000001"
   = Throw LengthMismatch <-> 16%nat <> 16%nat) /\
  (Web.calculateHammingDistance false "FFFE" "000"
   = Throw LengthMismatch <-> 4%nat <> 3%nat).
Proof.
  split.
  - exact (proj1 (distance_length_mismatch true "FFFFFFFFFFFFFFFE"
                    "0000000000000001" eq_refl eq_refl)).
  - exact (proj1 (distance_length_mismatch false "FFFE" "000" eq_refl eq_refl)).
Defined.

(** ** Lists: helper facts *)

Section ListFacts.
Context {A : Type}.

Lemma existsb_elem_of (f : A -> bool) (l : list A) :
  existsb f l = true <-> exists x, x ∈ l /\ f x = true.
Proof.
  rewrite existsb_exists. setoid_rewrite list_elem_of_In. reflexivity.
Qed.

Lemma existsb_false_elem_of (f : A -> bool) (l : list A) :
  existsb f l = false <-> forall x, x ∈ l -> f x = false.
Proof.
  split.
  - intros H x Hx. destruct (f x) eqn:E; [|reflexivity].
    rewrite <- H. symmetry. apply existsb_elem_of. eauto.
  - intros H. destruct (existsb f l) eqn:E; [|reflexivity].
    apply existsb_elem_of in E as (x & Hx & Hf). rewrite H in Hf; auto.
Qed.

Lemma elem_of_List_filter (f : A -> bool) (l : list A) (x : A) :
  x ∈ List.filter f l <-> x ∈ l /\ f x = true.
Proof. rewrite !list_elem_of_In. apply filter_In. Qed.

Lemma sublist_List_filter (f : A -> bool) (l : list A) :
  List.filter f l `sublist_of` l.
Proof.
  induction l as [|x l IH]; simpl; [constructor|].
  destruct (f x); [by apply sublist_skip | by apply sublist_cons].
Qed.

Lemma List_filter_all (f : A -> bool) (l : list A) :
  (forall x, x ∈ l -> f x = true) -> List.filter f l = l.
Proof.
  induction l as [|x l IH]; intros H; simpl; [reflexivity|].
  rewrite (H x) by left. f_equal. apply IH. intros y Hy. apply H. by right.
Qed.

Lemma foldr_delete_shift (x : A) (l : list A) (js : list nat) :
  foldr delete (x :: l) (map S js) = x :: foldr delete l js.
Proof. induction js as [|j js IH]; simpl; [reflexivity|]. by rewrite IH. Qed.

(** Deleting, from the last to the first, the positions that satisfy [p]
    leaves the members that do not. *)
Lemma foldr_delete_filter (p : A -> bool) (l : list A) :
  foldr delete l
    (List.filter (fun j => match l !! j with Some m => p m | None => false end)
                 (seq 0 (length l)))
  = List.filter (fun m => negb (p m)) l.
Proof.
  induction l as [|x l IH]; [reflexivity|].
  cbn [length seq List.filter lookup list_lookup].
  rewrite <- seq_shift, filter_map_swap.
  change (List.filter (fun m => negb (p m)) (x :: l))
    with (if negb (p x) then x :: List.filter (fun m => negb (p m)) l
          else List.filter (fun m => negb (p m)) l).
  rewrite <- IH.
  destruct (p x); cbn [negb foldr]; rewrite foldr_delete_shift; reflexivity.
Qed.
Lemma snoc_split (seen l1 l2 : list A) (c m : A) :
  seen ++ [c] = l1 ++ m :: l2 ->
  (seen = l1 /\ c = m /\ l2 = []) \/
  (exists l2', l2 = l2' ++ [c] /\ seen = l1 ++ m :: l2').
Proof.
  destruct l2 as [|z l2 _] using rev_ind.
  - intros H. apply app_inj_tail in H as [-> ->]. auto.
  - rewrite app_comm_cons, app_assoc. intros H.
    apply app_inj_tail in H as [-> ->]. eauto.
Qed.

End ListFacts.

(** ** Stage B: subset removal *)

Section SubsetRemoval.
Import MatchDeduplicator.

Lemma isSubsetMatch_spec (a b : MatchResult) :
  isSubsetMatch a b = true <-> photoIdSet a ⊂ photoIdSet b.
Proof.
  unfold isSubsetMatch.
  destruct (Nat.leb_spec (size (photoIdSet b)) (size (photoIdSet a))) as [Hle|Hlt].
  - split; [discriminate|]. intros H%subset_size. lia.
  - rewrite forallb_forall. split.
    + intros H. split.
      * intros x Hx. specialize (H x). rewrite bool_decide_eq_true in H.
        apply H, list_elem_of_In, elem_of_elements, Hx.
      * intros Hba%subseteq_size. lia.
    + intros [H _] x Hx%list_elem_of_In%elem_of_elements.
      apply bool_decide_eq_true. auto.
Qed.

Lemma isSubsetMatch_false (a b : MatchResult) :
  isSubsetMatch a b = false <-> ~ photoIdSet a ⊂ photoIdSet b.
Proof.
  rewrite <- isSubsetMatch_spec. destruct (isSubsetMatch a b); split;
    congruence.
Qed.

Lemma spliceAll_foldr (js : list nat) (l : list MatchResult) :
  spliceAll js l = foldr delete l js.
Proof.
  unfold spliceAll. rewrite <- (rev_involutive js) at 2.
  rewrite (fold_left_rev_right (fun k acc => delete k acc)). reflexivity.
Qed.

(** One round either drops the current match or evicts its strict
    subsets and appends it. *)
Lemma subsetStep_alt (acc : list MatchResult) (c : MatchResult) :
  subsetStep acc c =
  if existsb (fun accepted => isSubsetMatch c accepted) acc then acc
  else List.filter (fun m => negb (isSubsetMatch m c)) acc ++ [c].
Proof.
  unfold subsetStep. destruct (existsb _ acc); [reflexivity|].
  rewrite spliceAll_foldr.
  rewrite (foldr_delete_filter (fun m => isSubsetMatch m c)). reflexivity.
Qed.

Lemma subsetStep_sublist (acc seen : list MatchResult) (c : MatchResult) :
  acc `sublist_of` seen -> subsetStep acc c `sublist_of` seen ++ [c].
Proof.
  intros H. rewrite subsetStep_alt. destruct (existsb _ acc).
  - by apply sublist_inserts_r.
  - apply sublist_app; [|reflexivity].
    etrans; [apply sublist_List_filter | exact H].
Qed.

Lemma subsetStep_antichain (acc : list MatchResult) (c : MatchResult) :
  antichain acc -> antichain (subsetStep acc c).
Proof.
  intros H. rewrite subsetStep_alt.
  destruct (existsb _ acc) eqn:E; [exact H|].
  rewrite existsb_false_elem_of in E.
  intros a b Ha Hb.
  rewrite elem_of_app, elem_of_List_filter, list_elem_of_singleton in Ha, Hb.
  destruct Ha as [[Ha Fa]| ->], Hb as [[Hb Fb]| ->].
  - by apply H.
  - apply isSubsetMatch_false. by destruct (isSubsetMatch a c).
  - apply isSubsetMatch_false. auto.
  - apply irreflexivity, _.
Qed.

Lemma subsetStep_covers (acc : list MatchResult) (c x : MatchResult) :
  coveredBy x acc \/ x = c -> coveredBy x (subsetStep acc c).
Proof.
  rewrite subsetStep_alt.
  destruct (existsb _ acc) eqn:E.
  - intros [H| ->]; [exact H|].
    apply existsb_elem_of in E as (y & Hy & Hcy%isSubsetMatch_spec).
    exists y. split; [exact Hy | by apply strict_include].
  - intros [(y & Hy & Hxy)| ->].
    + destruct (isSubsetMatch y c) eqn:Eyc.
      * apply isSubsetMatch_spec, strict_include in Eyc.
        exists c. split; [set_solver | by etrans].
      * exists y. split; [|exact Hxy].
        apply elem_of_app. left. apply elem_of_List_filter. by rewrite Eyc.
    + exists c. split; [set_solver | reflexivity].
Qed.

(** The loop invariant, from any accepted list. *)
Lemma fold_subsetStep_invariant (l : list MatchResult) :
  forall acc seen,
    acc `sublist_of` seen -> antichain acc ->
    (forall x, x ∈ seen -> coveredBy x acc) ->
    let out := fold_left subsetStep l acc in
    out `sublist_of` seen ++ l /\ antichain out /\
    (forall x, x ∈ seen ++ l -> coveredBy x out).
Proof.
  induction l as [|c l IH]; intros acc seen Hsub Hanti Hcov; simpl.
  - rewrite app_nil_r. auto.
  - replace (seen ++ c :: l) with ((seen ++ [c]) ++ l)
      by (rewrite <- app_assoc; reflexivity).
    apply IH.
    + by apply subsetStep_sublist.
    + by apply subsetStep_antichain.
    + intros x [Hx| ->%list_elem_of_singleton]%elem_of_app;
        apply subsetStep_covers; auto.
Qed.

Lemma removeSubsetMatches_invariant (l : list MatchResult) :
  removeSubsetMatches l `sublist_of` l /\
  antichain (removeSubsetMatches l) /\
  (forall x, x ∈ l -> coveredBy x (removeSubsetMatches l)).
Proof.
  apply (fold_subsetStep_invariant l [] []).
  - constructor.
  - intros a b Ha. by apply elem_of_nil in Ha.
  - intros x Hx. by apply elem_of_nil in Hx.
Qed.

Lemma antichain_sublist (l k : list MatchResult) :
  l `sublist_of` k -> antichain k -> antichain l.
Proof.
  intros Hs Hk a b Ha Hb. apply Hk; eapply elem_of_sublist; eauto.
Qed.

(** A strict subset of a seen match is absent from an accepted antichain
    that covers the seen matches. *)
Lemma covered_subset_absent (out : list MatchResult) (a b : MatchResult) :
  antichain out -> coveredBy b out ->
  photoIdSet a ⊂ photoIdSet b -> a ∉ out.
Proof.
  intros Hanti (y & Hy & Hby) Hab Ha.
  apply (Hanti a y Ha Hy). by eapply (strict_trans_l (R:=(⊆))); eauto.
Qed.

(** On an antichain the loop keeps everything. *)
Lemma fold_subsetStep_fix (l : list MatchResult) :
  forall acc, antichain (acc ++ l) -> fold_left subsetStep l acc = acc ++ l.
Proof.
  induction l as [|c l IH]; intros acc H; simpl.
  - by rewrite app_nil_r.
  - replace (acc ++ c :: l) with ((acc ++ [c]) ++ l) in *
      by (rewrite <- app_assoc; reflexivity).
    rewrite <- IH by assumption. f_equal.
    rewrite subsetStep_alt.
    assert (existsb (fun accepted => isSubsetMatch c accepted) acc = false) as ->.
    { apply existsb_false_elem_of. intros y Hy. apply isSubsetMatch_false.
      apply H; set_solver. }
    rewrite List_filter_all; [reflexivity|].
    intros y Hy. apply negb_true_iff, isSubsetMatch_false. apply H; set_solver.
Qed.

End SubsetRemoval.

(** ** Stage C: reciprocal removal *)

Section ReciprocalRemoval.
Import MatchDeduplicator.

Lemma fold_reciprocalStep (l : list MatchResult) :
  forall (K : gset string) (acc : list MatchResult),
    K = list_to_set (map pairKeyOf acc) ->
    snd (fold_left reciprocalStep l (K, acc)) = fold_left keepIfNewKey l acc.
Proof.
  induction l as [|c l IH]; intros K acc HK; [reflexivity|].
  cbn [fold_left]. unfold reciprocalStep at 2, keepIfNewKey at 2.
  fold (pairKeyOf c).
  assert (bool_decide (pairKeyOf c ∈ K)
          = bool_decide (pairKeyOf c ∈ map pairKeyOf acc)) as ->.
  { apply bool_decide_ext. rewrite HK. apply elem_of_list_to_set. }
  destruct (bool_decide _); apply IH; [exact HK|].
  rewrite HK, map_app, list_to_set_app_L. simpl. set_solver.
Qed.

Lemma removeReciprocalMatches_alt (l : list MatchResult) :
  removeReciprocalMatches l = fold_left keepIfNewKey l [].
Proof. apply fold_reciprocalStep. reflexivity. Qed.

Lemma keepIfNewKey_cases (acc : list MatchResult) (c : MatchResult) :
  (keepIfNewKey acc c = acc /\ pairKeyOf c ∈ map pairKeyOf acc) \/
  (keepIfNewKey acc c = acc ++ [c] /\ pairKeyOf c ∉ map pairKeyOf acc).
Proof.
  unfold keepIfNewKey. destruct (bool_decide _) eqn:E.
  - left. split; [reflexivity|]. by apply bool_decide_eq_true in E.
  - right. split; [reflexivity|]. by apply bool_decide_eq_false in E.
Qed.

Lemma fold_keepIfNewKey_invariant (l : list MatchResult) :
  forall acc seen,
    acc `sublist_of` seen -> NoDup (map pairKeyOf acc) ->
    (forall x, x ∈ seen -> pairKeyOf x ∈ map pairKeyOf acc) ->
    (forall l1 m l2, seen = l1 ++ m :: l2 ->
       (forall x, x ∈ l1 -> pairKeyOf x <> pairKeyOf m) -> m ∈ acc) ->
    fold_left keepIfNewKey l acc `sublist_of` seen ++ l /\
    NoDup (map pairKeyOf (fold_left keepIfNewKey l acc)) /\
    (forall l1 m l2, seen ++ l = l1 ++ m :: l2 ->
       (forall x, x ∈ l1 -> pairKeyOf x <> pairKeyOf m) ->
       m ∈ fold_left keepIfNewKey l acc).
Proof.
  induction l as [|c l IH]; intros acc seen Hsub Hnd Hkeys Hfirst; simpl.
  - rewrite app_nil_r. auto.
  - replace (seen ++ c :: l) with ((seen ++ [c]) ++ l)
      by (rewrite <- app_assoc; reflexivity).
    destruct (keepIfNewKey_cases acc c) as [[-> E]|[-> E]].
    + apply IH; auto.
      * by apply sublist_inserts_r.
      * intros x [Hx| ->%list_elem_of_singleton]%elem_of_app; auto.
      * intros l1 m l2 Heq Hl1.
        destruct (snoc_split _ _ _ _ _ Heq) as [(-> & -> & ->)|(l2' & -> & ->)].
        -- exfalso. apply list_elem_of_fmap in E as (y & Ey & Hy).
           eapply elem_of_sublist in Hy; [|exact Hsub].
           by apply (Hl1 y Hy).
        -- eapply Hfirst; eauto.
    + apply IH.
      * apply sublist_app; [exact Hsub | reflexivity].
      * rewrite map_app. apply NoDup_app. split; [exact Hnd|].
        split; [|apply NoDup_singleton].
        simpl. intros k Hk ->%list_elem_of_singleton. contradiction.
      * intros x Hx. rewrite map_app, elem_of_app.
        apply elem_of_app in Hx as [Hx| ->%list_elem_of_singleton]; [auto|].
        right. simpl. left.
      * intros l1 m l2 Heq Hl1. apply elem_of_app.
        destruct (snoc_split _ _ _ _ _ Heq) as [(-> & -> & ->)|(l2' & -> & ->)].
        -- right. left.
        -- left. eapply Hfirst; eauto.
Qed.

Lemma removeReciprocalMatches_invariant (l : list MatchResult) :
  removeReciprocalMatches l `sublist_of` l /\
  NoDup (map pairKeyOf (removeReciprocalMatches l)) /\
  (forall l1 m l2, l = l1 ++ m :: l2 ->
     (forall x, x ∈ l1 -> pairKeyOf x <> pairKeyOf m) ->
     m ∈ removeReciprocalMatches l).
Proof.
  rewrite removeReciprocalMatches_alt.
  apply (fold_keepIfNewKey_invariant l [] []).
  - constructor.
  - constructor.
  - intros x Hx. by apply elem_of_nil in Hx.
  - intros l1 m l2 H. destruct l1; discriminate.
Qed.

(** With pairwise distinct keys the loop keeps everything. *)
Lemma fold_keepIfNewKey_fix (l : list MatchResult) :
  forall acc, NoDup (map pairKeyOf (acc ++ l)) ->
              fold_left keepIfNewKey l acc = acc ++ l.
Proof.
  induction l as [|c l IH]; intros acc H; simpl.
  - by rewrite app_nil_r.
  - replace (acc ++ c :: l) with ((acc ++ [c]) ++ l) in *
      by (rewrite <- app_assoc; reflexivity).
    rewrite <- IH by assumption. f_equal.
    unfold keepIfNewKey. rewrite bool_decide_eq_false_2; [reflexivity|].
    rewrite !map_app in H. apply NoDup_app in H as [H _].
    apply NoDup_app in H as (_ & H & _).
    intros Hin. apply (H _ Hin). simpl. left.
Qed.

End ReciprocalRemoval.

(** ** Stage D: temporal-overlap suppression *)

Section TemporalOverlap.
Import MatchDeduplicator.

Lemma overlapFree_snoc (acc : list MatchResult) (c : MatchResult) :
  overlapFree acc -> existsb (significantOverlap c) acc = false ->
  overlapFree (acc ++ [c]).
Proof.
  intros H E l1 m l2 Heq.
  destruct (snoc_split _ _ _ _ _ Heq) as [(-> & -> & ->)|(l2' & -> & ->)];
    [exact E | eapply H; reflexivity].
Qed.

Lemma overlapFree_snoc_inv (acc : list MatchResult) (c : MatchResult) :
  overlapFree (acc ++ [c]) ->
  overlapFree acc /\ existsb (significantOverlap c) acc = false.
Proof.
  intros H. split.
  - intros l1 m l2 ->. apply (H l1 m (l2 ++ [c])).
    rewrite <- app_assoc. reflexivity.
  - apply (H acc c []). reflexivity.
Qed.

Lemma temporalStep_cases (acc : list MatchResult) (c : MatchResult) :
  (temporalStep acc c = acc /\ existsb (significantOverlap c) acc = true) \/
  (temporalStep acc c = acc ++ [c]
   /\ existsb (significantOverlap c) acc = false).
Proof. unfold temporalStep. destruct (existsb _ acc); auto. Qed.

Lemma fold_temporalStep_invariant (l : list MatchResult) :
  forall acc seen,
    acc `sublist_of` seen -> overlapFree acc ->
    fold_left temporalStep l acc `sublist_of` seen ++ l /\
    overlapFree (fold_left temporalStep l acc).
Proof.
  induction l as [|c l IH]; intros acc seen Hsub Hfree; simpl.
  - rewrite app_nil_r. auto.
  - replace (seen ++ c :: l) with ((seen ++ [c]) ++ l)
      by (rewrite <- app_assoc; reflexivity).
    destruct (temporalStep_cases acc c) as [[-> E]|[-> E]]; apply IH; auto.
    + by apply sublist_inserts_r.
    + apply sublist_app; [exact Hsub | reflexivity].
    + by apply overlapFree_snoc.
Qed.

Lemma removeTemporalOverlaps_invariant (l : list MatchResult) :
  removeTemporalOverlaps l `sublist_of` l /\
  overlapFree (removeTemporalOverlaps l).
Proof.
  apply (fold_temporalStep_invariant l [] []); [constructor|].
  intros l1 c l2 H. destruct l1; [reflexivity | discriminate].
Qed.

Lemma fold_temporalStep_fix (l : list MatchResult) :
  forall acc, overlapFree (acc ++ l) -> fold_left temporalStep l acc = acc ++ l.
Proof.
  induction l as [|c l IH]; intros acc H; simpl.
  - by rewrite app_nil_r.
  - replace (acc ++ c :: l) with ((acc ++ [c]) ++ l) in *
      by (rewrite <- app_assoc; reflexivity).
    rewrite <- IH by assumption. f_equal.
    unfold temporalStep.
    assert (overlapFree (acc ++ [c])) as Hc.
    { intros l1 m l2 Heq. apply (H l1 m (l2 ++ l)).
      rewrite Heq, <- app_assoc. reflexivity. }
    apply overlapFree_snoc_inv in Hc as [_ ->]. reflexivity.
Qed.

End TemporalOverlap.

(** ** The comparator sort *)

Section SortFacts.
Context {A : Type} (before : A -> A -> bool).

Abbreviation R := (inOrder before).

Lemma insertSorted_perm (x : A) (l : list A) :
  insertSorted before x l ≡ₚ x :: l.
Proof.
  induction l as [|y l IH]; simpl; [reflexivity|].
  destruct (before x y); [reflexivity|].
  rewrite IH. apply Permutation_swap.
Qed.

Lemma stableSort_perm (l : list A) : stableSort before l ≡ₚ l.
Proof.
  induction l as [|x l IH]; simpl; [reflexivity|].
  rewrite insertSorted_perm, IH. reflexivity.
Qed.

Lemma insertSorted_sorted (x : A) (l : list A) :
  (forall a b, before a b = true \/ before b a = true) ->
  Sorted R l -> Sorted R (insertSorted before x l).
Proof.
  intros Htot. induction 1 as [|y l Hl IH Hhd]; simpl.
  - repeat constructor.
  - destruct (before x y) eqn:E.
    + constructor; [by constructor | by constructor].
    + constructor; [exact IH|].
      destruct l as [|z l]; simpl.
      * constructor. destruct (Htot x y); [congruence | assumption].
      * destruct (before x z); constructor.
        -- destruct (Htot x y); [congruence | assumption].
        -- by inversion Hhd.
Qed.

Lemma stableSort_sorted (l : list A) :
  (forall a b, before a b = true \/ before b a = true) ->
  Sorted R (stableSort before l).
Proof.
  intros Htot. induction l as [|x l IH]; simpl; [constructor|].
  by apply insertSorted_sorted.
Qed.

(** A sorted array is left as it is. *)
Lemma stableSort_fix (l : list A) : Sorted R l -> stableSort before l = l.
Proof.
  induction 1 as [|x l Hl IH Hhd]; simpl; [reflexivity|].
  rewrite IH. destruct Hhd as [|y l Hxy]; simpl; [reflexivity|].
  unfold R in Hxy. by rewrite Hxy.
Qed.

Lemma StronglySorted_sublist (l k : list A) :
  l `sublist_of` k -> StronglySorted R k -> StronglySorted R l.
Proof.
  induction 1 as [|x l k Hs IH|x l k Hs IH]; intros Hk.
  - constructor.
  - inversion Hk as [|? ? Hk' Hall]; subst. constructor; [auto|].
    rewrite Forall_forall in Hall |- *. intros y Hy.
    apply Hall. by eapply elem_of_sublist.
  - inversion Hk; subst. auto.
Qed.

End SortFacts.

(** ** Rational comparisons *)

Section Rationals.

Lemma Qgtb_true (a b : Q) : Qgtb a b = true <-> (b < a)%Q.
Proof.
  unfold Qgtb. rewrite negb_true_iff, <- not_true_iff_false, Qle_bool_iff.
  split; [apply Qnot_le_lt | apply Qlt_not_le].
Qed.

Lemma Qgtb_false (a b : Q) : Qgtb a b = false <-> (a <= b)%Q.
Proof.
  unfold Qgtb. rewrite negb_false_iff. apply Qle_bool_iff.
Qed.

Lemma byConfidenceDesc_total (a b : MatchResult) :
  MatchDeduplicator.byConfidenceDesc a b = true
  \/ MatchDeduplicator.byConfidenceDesc b a = true.
Proof.
  unfold MatchDeduplicator.byConfidenceDesc. rewrite !Qle_bool_iff.
  destruct (Qlt_le_dec (confidence a) (confidence b)) as [H|H];
    [right; by apply Qlt_le_weak | left; exact H].
Qed.

Lemma byConfidenceDesc_trans (a b c : MatchResult) :
  MatchDeduplicator.byConfidenceDesc a b = true ->
  MatchDeduplicator.byConfidenceDesc b c = true ->
  MatchDeduplicator.byConfidenceDesc a c = true.
Proof.
  unfold MatchDeduplicator.byConfidenceDesc. rewrite !Qle_bool_iff.
  intros H1 H2. eapply Qle_trans; eauto.
Qed.

Lemma inject_Z_pos (z : Z) : (0 < inject_Z z)%Q <-> 0 < z.
Proof. unfold Qlt. simpl. lia. Qed.

Lemma Qdiv_pos (a b : Z) : 0 < a -> 0 < b -> (0 < inject_Z a / inject_Z b)%Q.
Proof.
  intros Ha Hb. unfold Qdiv. apply Qmult_lt_0_compat.
  - by apply inject_Z_pos.
  - apply Qinv_lt_0_compat. by apply inject_Z_pos.
Qed.

(** The time overlap is positive exactly when the windows intersect in
    more than a point. *)
Lemma calculateTimeOverlap_pos (a b : MatchResult) :
  (0 < MatchDeduplicator.calculateTimeOverlap a b)%Q <->
  Z.max (start (timeWindow a)) (start (timeWindow b))
  < Z.min (end_ (timeWindow a)) (end_ (timeWindow b)).
Proof.
  unfold MatchDeduplicator.calculateTimeOverlap.
  destruct (Z.geb_spec (Z.max (start (timeWindow a)) (start (timeWindow b)))
                       (Z.min (end_ (timeWindow a)) (end_ (timeWindow b))))
    as [H|H].
  - split; [intros H0; by apply Qlt_irrefl in H0 | lia].
  - split; [intros _; exact H | intros _; apply Qdiv_pos; lia].
Qed.

Lemma significantOverlap_spec (c e : MatchResult) :
  MatchDeduplicator.significantOverlap c e = true <->
  (1 # 2 < MatchDeduplicator.calculatePhotoOverlap c e)%Q /\
  (0 < MatchDeduplicator.calculateTimeOverlap c e)%Q.
Proof.
  unfold MatchDeduplicator.significantOverlap.
  rewrite andb_true_iff, !Qgtb_true. reflexivity.
Qed.

End Rationals.

(** ** Stage E: clustering *)

Section Clusters.
Import MatchDeduplicator.
Variable matches : list MatchResult.

Abbreviation placed := (placedFrom matches).

Lemma placed_snoc (T : list MatchResult) (processed : gset string)
    (o : MatchResult) :
  placed T processed -> o ∈ matches -> match_id o ∉ processed ->
  placed (T ++ [o]) ({[ match_id o ]} ∪ processed).
Proof.
  intros (Hnd & Hin & Hids) Ho Hfresh. repeat split.
  - rewrite map_app. apply NoDup_app. split; [exact Hnd|].
    split; [|apply NoDup_singleton].
    simpl. intros k Hk ->%list_elem_of_singleton.
    apply list_elem_of_fmap in Hk as (y & Ey & Hy).
    apply Hfresh. rewrite Ey. auto.
  - intros x [Hx| ->%list_elem_of_singleton]%elem_of_app; auto.
  - intros x [Hx| ->%list_elem_of_singleton]%elem_of_app; set_solver.
Qed.

Lemma fold_clusterInner_placed (m : MatchResult) (l : list MatchResult) :
  forall pre cluster processed,
    (forall x, x ∈ l -> x ∈ matches) ->
    placed (pre ++ cluster) processed ->
    placed (pre ++ fst (fold_left (clusterInner m) l (cluster, processed)))
           (snd (fold_left (clusterInner m) l (cluster, processed))).
Proof.
  induction l as [|o l IH]; intros pre cluster processed Hl Hp; [exact Hp|].
  cbn [fold_left]. unfold clusterInner at 2 4.
  assert (forall x, x ∈ l -> x ∈ matches) as Hl' by (intros; apply Hl; by right).
  destruct (bool_decide (match_id o ∈ processed)) eqn:E; [by apply IH|].
  apply bool_decide_eq_false in E.
  destruct (Qgtb _ _); [|by apply IH].
  apply IH; [exact Hl'|].
  rewrite app_assoc. apply placed_snoc; [exact Hp | apply Hl; left | exact E].
Qed.

Lemma fold_clusterOuter_placed (l : list MatchResult) :
  forall clusters processed,
    (forall x, x ∈ l -> x ∈ matches) ->
    placed (concat clusters) processed ->
    placed (concat (fst (fold_left (clusterOuter matches) l (clusters, processed))))
           (snd (fold_left (clusterOuter matches) l (clusters, processed))).
Proof.
  induction l as [|m l IH]; intros clusters processed Hl Hp; [exact Hp|].
  cbn [fold_left]. unfold clusterOuter at 2 4.
  assert (forall x, x ∈ l -> x ∈ matches) as Hl' by (intros; apply Hl; by right).
  destruct (bool_decide (match_id m ∈ processed)) eqn:E; [by apply IH|].
  apply bool_decide_eq_false in E.
  pose proof (fold_clusterInner_placed m matches (concat clusters) [m]
                ({[ match_id m ]} ∪ processed) (fun x H => H)) as Hinner.
  destruct (fold_left (clusterInner m) matches _) as [cluster processed'].
  apply IH; [exact Hl'|].
  rewrite concat_app. simpl. rewrite app_nil_r. apply Hinner.
  apply placed_snoc; [exact Hp | apply Hl; left | exact E].
Qed.

(** The clusters hold matches of the input, each at most once. *)
Lemma clusters_submseteq : concat (identifyPhotoClusters matches) ⊆+ matches.
Proof.
  destruct (fold_clusterOuter_placed matches [] ∅ (fun x H => H))
    as (Hnd & Hin & _).
  - repeat split; simpl; [constructor | intros x Hx; by apply elem_of_nil in Hx ..].
  - apply NoDup_submseteq; [|exact Hin].
    eapply NoDup_fmap_1, Hnd.
Qed.

Lemma fold_betterMatch_elem (rest : list MatchResult) (first : MatchResult) :
  fold_left betterMatch rest first ∈ first :: rest.
Proof.
  revert first. induction rest as [|c rest IH]; intros first; simpl; [left|].
  unfold betterMatch at 2. destruct (Qgtb _ _).
  - right. apply IH.
  - specialize (IH first). apply elem_of_cons in IH as [->|IH]; [left|].
    right. by right.
Qed.

Lemma representative_submseteq (cluster : list MatchResult) :
  representative cluster ⊆+ cluster.
Proof.
  destruct cluster as [|first [|second rest]]; [reflexivity..|].
  unfold representative. apply singleton_submseteq_l, fold_betterMatch_elem.
Qed.

Lemma representatives_submseteq (clusters : list (list MatchResult)) :
  flat_map representative clusters ⊆+ concat clusters.
Proof.
  induction clusters as [|c cs IH]; simpl; [reflexivity|].
  apply submseteq_app; [apply representative_submseteq | exact IH].
Qed.

End Clusters.

Section WholePass.
Import MatchDeduplicator.

Lemma advancedDeduplication_submseteq (l : list MatchResult) :
  advancedDeduplication l ⊆+ l.
Proof.
  unfold advancedDeduplication. destruct (length l <=? 1)%nat; [reflexivity|].
  rewrite stableSort_perm.
  etrans; [apply representatives_submseteq | apply clusters_submseteq].
Qed.

Lemma validate_sublist (l : list MatchResult) :
  validateAndCleanMatches l `sublist_of` l.
Proof. apply sublist_List_filter. Qed.

Lemma validate_valid (l : list MatchResult) (x : MatchResult) :
  x ∈ validateAndCleanMatches l -> isValidMatch x = true.
Proof. intros H. by apply elem_of_List_filter in H as [_ H]. Qed.

(** Past the early return the result is a sublist of the sorted input. *)
Lemma deduplicateMatches_sublist_sorted (l : list MatchResult) :
  (1 < length l)%nat ->
  deduplicateMatches l `sublist_of` stableSort byConfidenceDesc l.
Proof.
  intros H. unfold deduplicateMatches.
  destruct (Nat.leb_spec (length l) 1); [lia|].
  etrans; [apply removeTemporalOverlaps_invariant|].
  etrans; [apply removeReciprocalMatches_invariant|].
  apply removeSubsetMatches_invariant.
Qed.

Lemma deduplicateMatches_submseteq (l : list MatchResult) :
  deduplicateMatches l ⊆+ l.
Proof.
  destruct (Nat.leb_spec (length l) 1) as [H|H].
  - unfold deduplicateMatches. destruct (Nat.leb_spec (length l) 1); [reflexivity | lia].
  - rewrite <- (stableSort_perm byConfidenceDesc l) at 2.
    by apply sublist_submseteq, deduplicateMatches_sublist_sorted.
Qed.

Lemma process_submseteq (l : list MatchResult) :
  processMatchesWithDeduplication l ⊆+ l.
Proof.
  unfold processMatchesWithDeduplication.
  etrans; [apply advancedDeduplication_submseteq|].
  etrans; [apply deduplicateMatches_submseteq|].
  apply sublist_submseteq, validate_sublist.
Qed.

End WholePass.

(** ** Claims about the deduplication engine *)

Section DeduplicationClaims.
Import MatchDeduplicator.

Lemma short_list_cases {A : Type} (l : list A) :
  (length l <= 1)%nat -> l = [] \/ exists x, l = [x].
Proof. destruct l as [|x [|y l]]; simpl; intros; eauto; lia. Qed.

Lemma deduplicateMatches_short (l : list MatchResult) :
  (length l <= 1)%nat -> deduplicateMatches l = l.
Proof.
  intros H. unfold deduplicateMatches.
  destruct (Nat.leb_spec (length l) 1); [reflexivity | lia].
Qed.

Lemma deduplicateMatches_long (l : list MatchResult) :
  (1 < length l)%nat ->
  deduplicateMatches l =
  removeTemporalOverlaps
    (removeReciprocalMatches
       (removeSubsetMatches (stableSort byConfidenceDesc l))).
Proof.
  intros H. unfold deduplicateMatches.
  destruct (Nat.leb_spec (length l) 1); [lia | reflexivity].
Qed.

Lemma antichain_short (l : list MatchResult) :
  (length l <= 1)%nat -> antichain l.
Proof.
  intros [->|[x ->]]%short_list_cases a b Ha Hb.
  - by apply elem_of_nil in Ha.
  - apply list_elem_of_singleton in Ha as ->.
    apply list_elem_of_singleton in Hb as ->. apply irreflexivity, _.
Qed.

Lemma deduplicateMatches_antichain (l : list MatchResult) :
  antichain (deduplicateMatches l).
Proof.
  destruct (Nat.leb_spec (length l) 1) as [H|H].
  - rewrite deduplicateMatches_short by assumption. by apply antichain_short.
  - rewrite deduplicateMatches_long by assumption.
    eapply antichain_sublist; [|apply removeSubsetMatches_invariant].
    etrans; [apply removeTemporalOverlaps_invariant|].
    apply removeReciprocalMatches_invariant.
Qed.

End DeduplicationClaims.

(** C4. Subset removal.  The result of [deduplicateMatches] contains no
    candidate whose photo-id set is a strict subset of that of another
    candidate of the result; and whenever the input holds two candidates
    one of whose photo-id sets is a strict subset of the other's, the
    subset candidate is absent from the result, whatever the confidences
    and hence the processing order. *)
Theorem subset_removal (matches : list MatchResult) :
  antichain (MatchDeduplicator.deduplicateMatches matches) /\
  (forall a b, a ∈ matches -> b ∈ matches ->
     photoIdSet a ⊂ photoIdSet b ->
     a ∉ MatchDeduplicator.deduplicateMatches matches).
Proof.
  split; [apply deduplicateMatches_antichain|].
  intros a b Ha Hb Hab.
  destruct (Nat.leb_spec (length matches) 1) as [H|H].
  - apply short_list_cases in H as [->|[x ->]].
    + by apply elem_of_nil in Ha.
    + apply list_elem_of_singleton in Ha as ->.
      apply list_elem_of_singleton in Hb as ->.
      by apply irreflexivity in Hab; [|apply _].
  - rewrite deduplicateMatches_long by assumption. intros Hout.
    destruct (removeSubsetMatches_invariant
                (stableSort MatchDeduplicator.byConfidenceDesc matches))
      as (_ & Hanti & Hcov).
    eapply (covered_subset_absent _ a b Hanti); [|exact Hab|].
    + apply Hcov. by rewrite stableSort_perm.
    + eapply elem_of_sublist; [exact Hout|].
      etrans; [apply removeTemporalOverlaps_invariant|].
      apply removeReciprocalMatches_invariant.
Qed.

Lemma subset_removal_witness :
  (groupG2 ∉ MatchDeduplicator.deduplicateMatches [groupG1; groupG2]) /\
  (groupG2 ∉ MatchDeduplicator.deduplicateMatches [groupG2; groupG1]).
Proof.
  assert (photoIdSet groupG2 ⊂ photoIdSet groupG1) as Hsub
    by (apply isSubsetMatch_spec; vm_compute; reflexivity).
  split.
  - apply (proj2 (subset_removal [groupG1; groupG2]) groupG2 groupG1);
      [repeat constructor | repeat constructor | exact Hsub].
  - apply (proj2 (subset_removal [groupG2; groupG1]) groupG2 groupG1);
      [repeat constructor | repeat constructor | exact Hsub].
Defined.

(** ** Reciprocal removal and the key *)

Section KeyFacts.
Import MatchDeduplicator.

(** Two id lists without repetition that hold the same ids sort to the
    same list, hence have the same key. *)
Lemma sortIds_same_set (ids1 ids2 : list string) :
  NoDup ids1 -> NoDup ids2 ->
  list_to_set ids1 =@{gset string} list_to_set ids2 ->
  sortIds ids1 = sortIds ids2.
Proof.
  intros H1 H2 Hset. unfold sortIds.
  apply (Sorted_unique String.le).
  - apply Sorted_merge_sort, _.
  - apply Sorted_merge_sort, _.
  - rewrite !merge_sort_Permutation.
    apply NoDup_Permutation; [assumption..|].
    intros x. rewrite <- !(elem_of_list_to_set (C:=gset string)), Hset.
    reflexivity.
Qed.

Lemma pairKeyOf_same_set (a b : MatchResult) :
  NoDup (map photo_id (photos a)) -> NoDup (map photo_id (photos b)) ->
  photoIdSet a = photoIdSet b -> pairKeyOf a = pairKeyOf b.
Proof.
  intros Ha Hb Hset. unfold pairKeyOf.
  by rewrite (sortIds_same_set _ _ Ha Hb Hset).
Qed.

Lemma NoDup_map_coarser {A B D : Type} (f : A -> B) (g : A -> D) (l : list A) :
  (forall a b, a ∈ l -> b ∈ l -> g a = g b -> f a = f b) ->
  NoDup (map f l) -> NoDup (map g l).
Proof.
  induction l as [|x l IH]; intros Hfg Hnd; simpl; [constructor|].
  simpl in Hnd. apply NoDup_cons in Hnd as [Hx Hnd].
  apply NoDup_cons. split.
  - intros Hin. apply Hx.
    apply list_elem_of_fmap in Hin as (y & Ey & Hy).
    apply list_elem_of_fmap. exists y. split; [|exact Hy].
    apply Hfg; [left | by right | exact Ey].
  - apply IH; [|exact Hnd]. intros a b Ha Hb. apply Hfg; by right.
Qed.

Lemma deduplicateMatches_keys (l : list MatchResult) :
  (1 < length l)%nat -> NoDup (map pairKeyOf (deduplicateMatches l)).
Proof.
  intros H. rewrite deduplicateMatches_long by assumption.
  eapply sublist_NoDup; [apply removeReciprocalMatches_invariant|].
  apply (fmap_sublist pairKeyOf), removeTemporalOverlaps_invariant.
Qed.

End KeyFacts.

(** C5.  [generatePairKey] does not give a unique key for a set of photo
    ids: the key is the sorted id list joined with the separator.  Two
    candidates with the photo-id set {p1, p2}, one of which lists p1
    twice, have the different keys ["p1|p1|p2"] and ["p1|p2"], and both
    remain in the result of [deduplicateMatches]; two candidates with
    different photo-id sets have the one key ["a|b|c"], and the second is
    removed although it is the first with its set. *)
Theorem reciprocal_removal_counterexample :
  photoIdSet repeatedA = photoIdSet repeatedB /\
  pairKeyOf repeatedA = "p1|p1|p2" /\
  pairKeyOf repeatedB = "p1|p2" /\
  MatchDeduplicator.removeReciprocalMatches [repeatedA; repeatedB]
  = [repeatedA; repeatedB] /\
  MatchDeduplicator.deduplicateMatches [repeatedA; repeatedB]
  = [repeatedA; repeatedB] /\
  pairKeyOf barA = "a|b|c" /\
  pairKeyOf barB = "a|b|c" /\
  MatchDeduplicator.removeReciprocalMatches [barA; barB] = [barA] /\
  photoIdSet barA <> photoIdSet barB.
Proof.
  split; [vm_compute; reflexivity|].
  split; [vm_compute; reflexivity|].
  split; [vm_compute; reflexivity|].
  split; [vm_compute; reflexivity|].
  split; [vm_compute; reflexivity|].
  split; [vm_compute; reflexivity|].
  split; [vm_compute; reflexivity|].
  split; [vm_compute; reflexivity|].
  intros H.
  assert ("a" ∈ photoIdSet barB) as Hin by (unfold photoIdSet; simpl; set_solver).
  rewrite <- H in Hin. unfold photoIdSet in Hin. simpl in Hin.
  set_solver.
Qed.

(** ** Temporal-overlap suppression, idempotence, frame *)

Section StageFacts.
Import MatchDeduplicator.

Lemma removeTemporalOverlaps_snoc (l : list MatchResult) (c : MatchResult) :
  removeTemporalOverlaps (l ++ [c])
  = temporalStep (removeTemporalOverlaps l) c.
Proof. unfold removeTemporalOverlaps. by rewrite fold_left_app. Qed.

Lemma existsb_significantOverlap (c : MatchResult) (acc : list MatchResult) :
  existsb (significantOverlap c) acc = true <->
  exists e, e ∈ acc /\
            (1 # 2 < calculatePhotoOverlap c e)%Q /\
            (0 < calculateTimeOverlap c e)%Q.
Proof.
  rewrite existsb_elem_of. by setoid_rewrite significantOverlap_spec.
Qed.

(** The photo overlap is the size of the intersection of the two photo-id
    sets over the size of their union. *)
Lemma calculatePhotoOverlap_sets (a b : MatchResult) :
  calculatePhotoOverlap a b
  = ratio (size (photoIdSet a ∩ photoIdSet b))
          (size (photoIdSet a ∪ photoIdSet b)).
Proof.
  unfold calculatePhotoOverlap. cbv zeta. f_equal; f_equal.
  - apply set_eq. intros x.
    rewrite elem_of_list_to_set, elem_of_List_filter, bool_decide_eq_true,
      elem_of_elements, elem_of_intersection. done.
  - apply set_eq. intros x.
    rewrite elem_of_list_to_set, elem_of_app, !elem_of_elements, elem_of_union.
    done.
Qed.

(** The time overlap is the length of the intersection of the two windows,
    0 when they do not intersect, over the length of their combined
    span. *)
Lemma calculateTimeOverlap_formula (a b : MatchResult) :
  (calculateTimeOverlap a b
   == inject_Z (Z.max 0 (Z.min (end_ (timeWindow a)) (end_ (timeWindow b))
                         - Z.max (start (timeWindow a)) (start (timeWindow b))))
      / inject_Z (Z.max (end_ (timeWindow a)) (end_ (timeWindow b))
                  - Z.min (start (timeWindow a)) (start (timeWindow b))))%Q.
Proof.
  unfold calculateTimeOverlap. cbv zeta.
  destruct (Z.geb_spec (Z.max (start (timeWindow a)) (start (timeWindow b)))
                       (Z.min (end_ (timeWindow a)) (end_ (timeWindow b))))
    as [H|H].
  - rewrite (Z.max_l 0) by lia. unfold Qdiv. by rewrite Qmult_0_l.
  - by rewrite (Z.max_r 0) by lia.
Qed.

Lemma validate_fix (l : list MatchResult) :
  (forall x, x ∈ l -> isValidMatch x = true) -> validateAndCleanMatches l = l.
Proof. apply List_filter_all. Qed.

Lemma sorted_byConfidence_sublist (l k : list MatchResult) :
  l `sublist_of` stableSort byConfidenceDesc k ->
  stableSort byConfidenceDesc l = l.
Proof.
  intros Hsub.
  assert (Transitive (inOrder byConfidenceDesc)) as Htrans
    by (intros a b c; apply byConfidenceDesc_trans).
  apply stableSort_fix, StronglySorted_Sorted.
  eapply StronglySorted_sublist; [exact Hsub|].
  apply Sorted_StronglySorted; [exact Htrans|].
  apply stableSort_sorted, byConfidenceDesc_total.
Qed.

(** [deduplicateMatches] leaves its own result as it is. *)
Lemma deduplicateMatches_idempotent (l : list MatchResult) :
  deduplicateMatches (deduplicateMatches l) = deduplicateMatches l.
Proof.
  destruct (Nat.leb_spec (length l) 1) as [H|H].
  { rewrite (deduplicateMatches_short l) by assumption.
    by apply deduplicateMatches_short. }
  destruct (Nat.leb_spec (length (deduplicateMatches l)) 1) as [H'|H'].
  { by apply deduplicateMatches_short. }
  rewrite (deduplicateMatches_long (deduplicateMatches l)) by assumption.
  rewrite (sorted_byConfidence_sublist _ l)
    by (by apply deduplicateMatches_sublist_sorted).
  unfold removeSubsetMatches.
  rewrite (fold_subsetStep_fix _ []) by apply deduplicateMatches_antichain.
  rewrite removeReciprocalMatches_alt.
  rewrite (fold_keepIfNewKey_fix _ []) by (by apply deduplicateMatches_keys).
  unfold removeTemporalOverlaps at 1.
  rewrite (fold_temporalStep_fix _ []); [reflexivity|].
  rewrite (deduplicateMatches_long l) by assumption.
  apply removeTemporalOverlaps_invariant.
Qed.

Lemma stagesAtoD_idempotent (l : list MatchResult) :
  stagesAtoD (stagesAtoD l) = stagesAtoD l.
Proof.
  unfold stagesAtoD.
  rewrite (validate_fix (deduplicateMatches _)).
  - apply deduplicateMatches_idempotent.
  - intros x Hx. apply (validate_valid l).
    eapply elem_of_submseteq; [exact Hx | apply deduplicateMatches_submseteq].
Qed.

End StageFacts.

(** C6. Temporal-overlap suppression.  When a candidate [c] follows the
    candidates [l], it is dropped exactly when, against some accepted
    candidate, the Jaccard overlap of the photo-id sets (size of the
    intersection over size of the union) exceeds 1/2 and the time overlap
    ratio ([max(0, overlapEnd - overlapStart)] over the combined span) is
    positive, and it is appended otherwise.  The two measures of the code
    are these two ratios; the time overlap is positive exactly when the
    windows intersect in more than a point; two candidates with disjoint
    windows both survive, whatever their photo overlap. *)
Theorem temporal_overlap_suppression (l : list MatchResult) (c : MatchResult) :
  let accepted := MatchDeduplicator.removeTemporalOverlaps l in
  let jaccard (a b : MatchResult) : Q :=
    (inject_Z (Z.of_nat (size (photoIdSet a ∩ photoIdSet b)))
     / inject_Z (Z.of_nat (size (photoIdSet a ∪ photoIdSet b))))%Q in
  let overlapStart (a b : MatchResult) : Z :=
    Z.max (start (timeWindow a)) (start (timeWindow b)) in
  let overlapEnd (a b : MatchResult) : Z :=
    Z.min (end_ (timeWindow a)) (end_ (timeWindow b)) in
  let span (a b : MatchResult) : Z :=
    Z.max (end_ (timeWindow a)) (end_ (timeWindow b))
    - Z.min (start (timeWindow a)) (start (timeWindow b)) in
  let timeRatio (a b : MatchResult) : Q :=
    (inject_Z (Z.max 0 (overlapEnd a b - overlapStart a b))
     / inject_Z (span a b))%Q in
  let dropped :=
    exists e, e ∈ accepted /\
      (1 # 2 < jaccard c e)%Q /\ (0 < timeRatio c e)%Q in
  (dropped -> MatchDeduplicator.removeTemporalOverlaps (l ++ [c]) = accepted) /\
  (~ dropped ->
   MatchDeduplicator.removeTemporalOverlaps (l ++ [c]) = accepted ++ [c]) /\
  (forall a b : MatchResult,
     MatchDeduplicator.calculatePhotoOverlap a b = jaccard a b /\
     (MatchDeduplicator.calculateTimeOverlap a b == timeRatio a b)%Q /\
     ((0 < timeRatio a b)%Q <-> overlapStart a b < overlapEnd a b) /\
     (overlapEnd a b <= overlapStart a b ->
      MatchDeduplicator.calculateTimeOverlap a b = 0%Q /\
      MatchDeduplicator.removeTemporalOverlaps [a; b] = [a; b])).
Proof.
  intros accepted jaccard overlapStart overlapEnd span timeRatio dropped.
  assert (forall a b, MatchDeduplicator.calculatePhotoOverlap a b = jaccard a b)
    as Hphoto by (intros a b; apply calculatePhotoOverlap_sets).
  assert (forall a b,
            (MatchDeduplicator.calculateTimeOverlap a b == timeRatio a b)%Q)
    as Htime by (intros a b; apply calculateTimeOverlap_formula).
  assert (dropped <->
          existsb (MatchDeduplicator.significantOverlap c) accepted = true)
    as Hdropped.
  { rewrite existsb_significantOverlap. subst dropped.
    split; intros (e & He & Hover & Hpos); exists e;
      (split; [exact He|]); rewrite Hphoto, Htime in *; by split. }
  rewrite removeTemporalOverlaps_snoc. fold accepted.
  split; [|split].
  - intros H%Hdropped. unfold MatchDeduplicator.temporalStep. by rewrite H.
  - intros H. unfold MatchDeduplicator.temporalStep.
    destruct (existsb _ _) eqn:E; [|done]. exfalso. by apply H, Hdropped.
  - intros a b. split; [apply Hphoto|]. split; [apply Htime|].
    split; [rewrite <- Htime; apply calculateTimeOverlap_pos|].
    intros Hdisjoint.
    assert (forall x y, overlapEnd x y <= overlapStart x y ->
              MatchDeduplicator.calculateTimeOverlap x y = 0%Q) as Hzero.
    { intros x y H. unfold MatchDeduplicator.calculateTimeOverlap.
      fold (overlapStart x y) (overlapEnd x y).
      destruct (Z.geb_spec (overlapStart x y) (overlapEnd x y));
        [reflexivity | lia]. }
    split; [by apply Hzero|].
    cbn. unfold MatchDeduplicator.temporalStep at 1. cbn [existsb].
    unfold MatchDeduplicator.temporalStep. cbn [existsb app].
    unfold MatchDeduplicator.significantOverlap.
    rewrite (Hzero b a)
      by (unfold overlapStart, overlapEnd in *; lia).
    replace (Qgtb 0 0) with false by reflexivity.
    by rewrite andb_false_r.
Qed.

Lemma temporal_overlap_suppression_witness :
  MatchDeduplicator.removeTemporalOverlaps [sharedA; sharedB]
  = [sharedA; sharedB] /\
  MatchDeduplicator.removeTemporalOverlaps ([sharedA] ++ [sharedC])
  = [sharedA] /\
  (MatchDeduplicator.calculatePhotoOverlap sharedA sharedB == 3 # 4)%Q.
Proof.
  split; [|split].
  - apply (proj2 (proj2 (temporal_overlap_suppression [] sharedA))
             sharedA sharedB).
    vm_compute. discriminate.
  - apply (proj1 (temporal_overlap_suppression [sharedA] sharedC)).
    exists sharedA. split; [vm_compute; left|].
    split; vm_compute; reflexivity.
  - rewrite (proj1 (proj2 (proj2 (temporal_overlap_suppression [] sharedA))
                      sharedA sharedB)).
    vm_compute. reflexivity.
Defined.

(** C3, counterexample.  On the chained candidates A, B, C the first run
    clusters A with B and keeps B and C; run on [B; C], the pass clusters B
    with C and keeps B alone. *)
Lemma full_pass_not_idempotent :
  processMatchesWithDeduplication [chainA; chainB; chainC] = [chainB; chainC] /\
  processMatchesWithDeduplication
    (processMatchesWithDeduplication [chainA; chainB; chainC]) = [chainB] /\
  processMatchesWithDeduplication
    (processMatchesWithDeduplication [chainA; chainB; chainC])
  <> processMatchesWithDeduplication [chainA; chainB; chainC].
Proof.
  assert (processMatchesWithDeduplication [chainA; chainB; chainC]
          = [chainB; chainC]) as E1 by (vm_compute; reflexivity).
  assert (processMatchesWithDeduplication [chainB; chainC] = [chainB]) as E2
    by (vm_compute; reflexivity).
  rewrite E1, E2. repeat split. discriminate.
Qed.

(** C3, as amended.  Stages A to D (validity filter, then subset,
    reciprocal and temporal removal) are idempotent; running the full pass
    on its own result selects among the candidates of that result, each at
    most once, and creates none. *)
Theorem stages_idempotent_full_pass_shrinks (rawMatches : list MatchResult) :
  stagesAtoD (stagesAtoD rawMatches) = stagesAtoD rawMatches /\
  processMatchesWithDeduplication rawMatches
  = MatchDeduplicator.advancedDeduplication (stagesAtoD rawMatches) /\
  processMatchesWithDeduplication (processMatchesWithDeduplication rawMatches)
  ⊆+ processMatchesWithDeduplication rawMatches.
Proof.
  split; [apply stagesAtoD_idempotent|].
  split; [reflexivity | apply process_submseteq].
Qed.

(** C10. The pass neither creates nor changes a candidate: its result is a
    rearrangement of a sub-list of its input, so every candidate of the
    result is a candidate of the input with all its fields, and no
    candidate occurs more often than in the input. *)
Theorem pass_only_removes_and_reorders (rawMatches : list MatchResult) :
  processMatchesWithDeduplication rawMatches ⊆+ rawMatches /\
  (forall m, m ∈ processMatchesWithDeduplication rawMatches -> m ∈ rawMatches) /\
  (forall m, m ∈ MatchDeduplicator.deduplicateMatches rawMatches ->
             m ∈ rawMatches).
Proof.
  split; [apply process_submseteq|]. split.
  - intros m Hm. eapply elem_of_submseteq; [exact Hm | apply process_submseteq].
  - intros m Hm.
    eapply elem_of_submseteq; [exact Hm | apply deduplicateMatches_submseteq].
Qed.

Lemma pass_only_removes_and_reorders_witness :
  chainB ∈ [chainA; chainB; chainC].
Proof.
  apply (proj1 (proj2 (pass_only_removes_and_reorders [chainA; chainB; chainC]))).
  replace (processMatchesWithDeduplication [chainA; chainB; chainC])
    with [chainB; chainC] by (vm_compute; reflexivity).
  constructor.
Defined.

(** ** The candidate generator *)

Section GeneratorFacts.
Import CandidateGenerator.
Context (native : bool) (cancelledAt : nat -> bool) (nowAt : nat -> Z).

Lemma sumZ_snoc (ds : list Z) (d : Z) : sumZ (ds ++ [d]) = sumZ ds + d.
Proof. unfold sumZ. induction ds as [|x ds IH]; simpl; lia. Qed.

Lemma sumZ_nonneg (ds : list Z) : Forall (fun d => 0 <= d) ds -> 0 <= sumZ ds.
Proof. unfold sumZ. induction 1; simpl; lia. Qed.

(** What the inner loop maintains. *)
Lemma fold_scanStep_invariant (seed : PhotoWithHash) (l : list PhotoWithHash) :
  forall (neighbors : list PhotoWithHash) (ds : list Z),
    Forall2 (fun n d =>
               Web.calculateHammingDistance native (hashOf seed) (hashOf n)
               = Ret d /\ 0 <= d <= 20) neighbors ds ->
    exists neighbors' ds',
      fold_left (scanStep native seed) l
                (seed :: neighbors, sumZ ds, Z.of_nat (length ds))
      = (seed :: neighbors', sumZ ds', Z.of_nat (length ds')) /\
      Forall2 (fun n d =>
                 Web.calculateHammingDistance native (hashOf seed) (hashOf n)
                 = Ret d /\ 0 <= d <= 20) neighbors' ds'.
Proof.
  induction l as [|other l IH]; intros neighbors ds H; [by eauto|].
  cbn [fold_left].
  assert (scanStep native seed
            (seed :: neighbors, sumZ ds, Z.of_nat (length ds)) other
          = (seed :: neighbors, sumZ ds, Z.of_nat (length ds))
          \/ exists d,
               Web.calculateHammingDistance native (hashOf seed) (hashOf other)
               = Ret d /\ 0 <= d <= 20 /\
               scanStep native seed
                 (seed :: neighbors, sumZ ds, Z.of_nat (length ds)) other
               = (seed :: (neighbors ++ [other]), sumZ (ds ++ [d]),
                  Z.of_nat (length (ds ++ [d])))) as [->|(d & Hd & Hr & ->)].
  { unfold scanStep. destruct (_ || _); [by left|].
    destruct (_ && _); [|by left].
    destruct (Web.calculateHammingDistance native (hashOf seed) (hashOf other))
      as [d| |] eqn:E; [|by left..].
    destruct (Z.leb_spec d 20); [|by left].
    right. exists d. split; [reflexivity|]. split.
    - rewrite calculateHammingDistance_spec in E.
      destruct (Nat.eqb _ _); [|discriminate]. injection E as <-.
      pose proof (digitDistance_range (hashOf seed) (hashOf other)). lia.
    - rewrite sumZ_snoc, length_app. simpl.
      repeat f_equal. lia. }
  - by apply IH.
  - apply IH. apply Forall2_app; [exact H|].
    constructor; [by split | constructor].
Qed.

Lemma scan_invariant (allProcessedPhotos : list PhotoWithHash)
    (seed : PhotoWithHash) :
  exists neighbors ds,
    scan native allProcessedPhotos seed
    = (seed :: neighbors, sumZ ds, Z.of_nat (length ds)) /\
    Forall2 (fun n d =>
               Web.calculateHammingDistance native (hashOf seed) (hashOf n)
               = Ret d /\ 0 <= d <= 20) neighbors ds.
Proof. apply (fold_scanStep_invariant seed allProcessedPhotos [] []). constructor. Qed.

Lemma byCreationTime_total (a b : PhotoWithHash) :
  byCreationTime a b = true \/ byCreationTime b a = true.
Proof.
  unfold byCreationTime.
  destruct (Z.leb_spec (creationTime a) (creationTime b)); [by left|].
  right. apply Z.leb_le. lia.
Qed.

Lemma confidenceOf_range (d : Q) :
  (0 <= d)%Q -> (0 <= confidenceOf d <= 100)%Q.
Proof.
  intros H. unfold confidenceOf. split; [apply Q.le_max_l|].
  apply Q.max_lub; lra.
Qed.

Lemma confidenceOf_antitone (d1 d2 : Q) :
  (d1 <= d2)%Q -> (confidenceOf d2 <= confidenceOf d1)%Q.
Proof. intros H. unfold confidenceOf. apply Q.max_le_compat_l. lra. Qed.

Lemma confidenceOf_strict (d1 d2 : Q) :
  (d1 < d2)%Q -> (d2 * 3 <= 100)%Q -> (confidenceOf d2 < confidenceOf d1)%Q.
Proof.
  intros H Hd. unfold confidenceOf.
  apply Q.max_lub_lt; apply Q.max_lt_iff; right; lra.
Qed.

Lemma mean_nonneg (total count : Z) :
  0 <= total -> 0 < count -> (0 <= inject_Z total / inject_Z count)%Q.
Proof.
  intros Ht Hc. unfold Qdiv. apply Qmult_le_0_compat.
  - unfold Qle. simpl. lia.
  - apply Qinv_le_0_compat. unfold Qle. simpl. lia.
Qed.

Lemma Sorted_weaken {A : Type} (R R' : A -> A -> Prop) (l : list A) :
  (forall a b, R a b -> R' a b) -> Sorted R l -> Sorted R' l.
Proof.
  intros HR. induction 1 as [|x l Hl IH Hhd]; constructor; [exact IH|].
  destruct Hhd; constructor; auto.
Qed.

(** The candidate built for a seed. *)
Lemma matchFor_spec (round : nat) (allProcessedPhotos : list PhotoWithHash)
    (seed : PhotoWithHash) (m : MatchResult) :
  matchFor native nowAt round allProcessedPhotos seed = Some m ->
  (2 <= length (photos m))%nat /\
  Sorted (fun a b => creationTime a <= creationTime b) (photos m) /\
  emittedFor native seed m /\
  confidence m = Qmax 0 (100 - hammingDistance m * 3) /\
  (0 <= hammingDistance m)%Q /\
  (0 <= confidence m <= 100)%Q /\
  timeWindow m = windowOf seed /\ status m = pending.
Proof.
  unfold matchFor.
  destruct (scan_invariant allProcessedPhotos seed) as (neighbors & ds & -> & HF).
  destruct (Nat.ltb_spec 1 (length (seed :: neighbors))) as [Hlen|]; [|discriminate].
  pose proof (stableSort_perm byCreationTime (seed :: neighbors)) as Hperm.
  pose proof (stableSort_sorted byCreationTime (seed :: neighbors)
                byCreationTime_total) as HS.
  revert Hperm HS.
  generalize (stableSort byCreationTime (seed :: neighbors)) as sorted.
  intros sorted Hperm HS [= <-].
  cbn [photos confidence hammingDistance timeWindow status].
  assert (neighbors <> []) as Hne by (destruct neighbors; simpl in Hlen; [lia | discriminate]).
  assert (0 < Z.of_nat (length ds)) as Hcount.
  { apply Forall2_length in HF. destruct neighbors; [congruence|].
    simpl in HF. lia. }
  destruct (Z.gtb_spec (Z.of_nat (length ds)) 0) as [_|]; [|lia].
  assert (0 <= sumZ ds) as Hsum.
  { apply sumZ_nonneg. clear -HF. induction HF as [|n d ns ds' [_ Hd] _ IH];
      constructor; [lia | exact IH]. }
  pose proof (mean_nonneg _ _ Hsum Hcount) as Hmean.
  split; [rewrite (Permutation_length Hperm); simpl in *; lia|].
  split.
  { eapply Sorted_weaken; [|exact HS].
    intros a b Hab. unfold inOrder, byCreationTime in Hab. lia. }
  split.
  { exists neighbors, ds. split; [exact Hperm | by repeat split]. }
  split; [reflexivity|]. split; [exact Hmean|].
  split; [by apply confidenceOf_range | by split].
Qed.

(** Every candidate in [rawMatches] after the call was there before or was
    built for a seed of the new batch. *)
Lemma findMatchesFrom_elem (allProcessedPhotos newBatch : list PhotoWithHash) :
  forall (round : nat) (rawMatches : list MatchResult) (m : MatchResult),
    m ∈ findMatchesFrom native cancelledAt nowAt round allProcessedPhotos
          newBatch rawMatches ->
    m ∈ rawMatches \/
    exists round' seed, seed ∈ newBatch /\
      matchFor native nowAt round' allProcessedPhotos seed = Some m.
Proof.
  induction newBatch as [|newPhoto rest IH]; intros round rawMatches m Hm;
    [by left|].
  cbn [findMatchesFrom] in Hm. apply IH in Hm as [Hm|(r & seed & Hs & Hr)].
  - unfold seedStep in Hm. destruct (_ || _); [by left|].
    destruct (matchFor native nowAt round allProcessedPhotos newPhoto)
      as [matchResult|] eqn:E; [|by left].
    apply elem_of_app in Hm as [Hm| ->%list_elem_of_singleton]; [by left|].
    right. exists round, newPhoto. split; [left | exact E].
  - right. exists r, seed. split; [by right | exact Hr].
Qed.

End GeneratorFacts.

(** C9. Every candidate that [findMatchesInBatch] adds to [rawMatches]
    holds at least two photos in ascending order of creation time; its
    average distance is the mean of the distances from the seed to each
    neighbour; its confidence is [max(0, 100 - average * 3)], which lies
    between 0 and 100; and that law is decreasing in the average, strictly
    so as long as it is not clamped at 0. *)
Theorem emitted_candidates
    (native : bool) (cancelledAt : nat -> bool) (nowAt : nat -> Z)
    (allProcessedPhotos newBatch : list PhotoWithHash)
    (rawMatches : list MatchResult) (m : MatchResult) :
  m ∈ CandidateGenerator.findMatchesInBatch native cancelledAt nowAt
        allProcessedPhotos newBatch rawMatches ->
  (m ∈ rawMatches \/
   exists seed, seed ∈ newBatch /\
     (2 <= length (photos m))%nat /\
     Sorted (fun a b => creationTime a <= creationTime b) (photos m) /\
     emittedFor native seed m /\
     confidence m = Qmax 0 (100 - hammingDistance m * 3) /\
     (0 <= confidence m <= 100)%Q) /\
  (forall d1 d2 : Q, (d1 <= d2)%Q ->
     (Qmax 0 (100 - d2 * 3) <= Qmax 0 (100 - d1 * 3))%Q) /\
  (forall d1 d2 : Q, (d1 < d2)%Q -> (d2 * 3 <= 100)%Q ->
     (Qmax 0 (100 - d2 * 3) < Qmax 0 (100 - d1 * 3))%Q).
Proof.
  intros Hm.
  split; [|split; [apply confidenceOf_antitone | apply confidenceOf_strict]].
  apply findMatchesFrom_elem in Hm as [Hm|(r & seed & Hs & Hr)]; [by left|].
  right. exists seed. split; [exact Hs|].
  apply matchFor_spec in Hr as (H1 & H2 & H3 & H4 & _ & H5 & _).
  auto.
Qed.

Lemma scenario_raw_candidates :
  map photos scenarioRaw
  = [[scenarioP1; scenarioP2]; [scenarioP1; scenarioP2]] /\
  scenarioCandidate ∈ scenarioRaw /\
  (confidence scenarioCandidate == 91)%Q.
Proof.
  split; [vm_compute; reflexivity|]. split; [|vm_compute; reflexivity].
  unfold scenarioRaw, CandidateGenerator.findMatchesInBatch.
  cbn [CandidateGenerator.findMatchesFrom scenarioBatch].
  assert (CandidateGenerator.matchFor false (fun _ => 0) 1 scenarioBatch scenarioP2
          = Some scenarioCandidate) as E by (vm_compute; reflexivity).
  assert (CandidateGenerator.matchFor false (fun _ => 0) 0 scenarioBatch scenarioP3
          = None) as E0 by (vm_compute; reflexivity).
  unfold CandidateGenerator.seedStep at 3. rewrite E0.
  unfold CandidateGenerator.seedStep at 2. rewrite E.
  unfold CandidateGenerator.seedStep.
  replace (negb (CandidateGenerator.hasHash scenarioP3) || false) with false
    by reflexivity.
  replace (negb (CandidateGenerator.hasHash scenarioP2) || false) with false
    by reflexivity.
  replace (negb (CandidateGenerator.hasHash scenarioP1) || false) with false
    by reflexivity.
  destruct (CandidateGenerator.matchFor false (fun _ => 0) 2 scenarioBatch scenarioP1);
    cbn [app]; repeat constructor.
Qed.

Lemma emitted_candidates_witness :
  (scenarioCandidate ∈ [] \/
   exists seed, seed ∈ scenarioBatch /\
     (2 <= length (photos scenarioCandidate))%nat /\
     Sorted (fun a b => creationTime a <= creationTime b)
            (photos scenarioCandidate) /\
     emittedFor false seed scenarioCandidate /\
     confidence scenarioCandidate
     = Qmax 0 (100 - hammingDistance scenarioCandidate * 3) /\
     (0 <= confidence scenarioCandidate <= 100)%Q) /\
  (forall d1 d2 : Q, (d1 <= d2)%Q ->
     (Qmax 0 (100 - d2 * 3) <= Qmax 0 (100 - d1 * 3))%Q) /\
  (forall d1 d2 : Q, (d1 < d2)%Q -> (d2 * 3 <= 100)%Q ->
     (Qmax 0 (100 - d2 * 3) < Qmax 0 (100 - d1 * 3))%Q).
Proof.
  apply (emitted_candidates false (fun _ => false) (fun _ => 0)
           scenarioBatch scenarioBatch [] scenarioCandidate).
  exact (proj1 (proj2 scenario_raw_candidates)).
Defined.

(** The end-to-end scenario of the specification: one result with two
    photos and confidence 100 - 3 * 3 = 91. *)
Lemma scenario_end_to_end :
  map photos (processMatchesWithDeduplication scenarioRaw)
  = [[scenarioP1; scenarioP2]] /\
  Forall (fun m => (confidence m == 91)%Q)
         (processMatchesWithDeduplication scenarioRaw).
Proof.
  split; [vm_compute; reflexivity|].
  assert (exists m, processMatchesWithDeduplication scenarioRaw = [m]
                    /\ Qeq_bool (confidence m) 91 = true) as (m & -> & Hm).
  { eexists. split; vm_compute; reflexivity. }
  constructor; [by apply Qeq_bool_iff | constructor].
Qed.

(** ** Native path against web path *)

Section PathComparison.

Lemma pack_multiple_of_four (n : nat) :
  forall xs ys : list bool,
    length xs = (4 * n)%nat ->
    packPadded (xs ++ ys) = (packPadded xs ++ packPadded ys)%string /\
    packUnpadded (xs ++ ys) = (packPadded xs ++ packUnpadded ys)%string.
Proof.
  induction n as [|n IH]; intros xs ys Hlen.
  - destruct xs; [|discriminate]. by split.
  - destruct xs as [|a [|b [|c [|d xs]]]]; simpl in Hlen; try lia.
    destruct (IH xs ys) as [E1 E2]; [lia|].
    cbn [app packPadded packUnpadded]. rewrite E1, E2, !string_app_assoc.
    by split.
Qed.

(** The two packings of a 63-bit pattern coincide exactly when its last
    three bits are 0. *)
Lemma packings_agree_iff (bs : list bool) :
  length bs = 63%nat ->
  Numeral.uppercase (packPadded bs) = Numeral.uppercase (packUnpadded bs)
  <-> drop 60 bs = [false; false; false].
Proof.
  intros Hlen. rewrite <- (take_drop 60 bs) at 1 2.
  destruct (pack_multiple_of_four 15 (take 60 bs) (drop 60 bs)) as [-> ->].
  { rewrite length_take. lia. }
  rewrite !uppercase_app.
  assert (length (drop 60 bs) = 3%nat) as H3 by (rewrite length_drop; lia).
  destruct (drop 60 bs) as [|a [|b [|c [|d r]]]]; try discriminate.
  split.
  - intros H. apply (inj (String.app _)) in H.
    destruct a, b, c; try reflexivity; vm_compute in H; discriminate.
  - intros [= -> -> ->]. reflexivity.
Qed.

End PathComparison.

(** ** The cosine transform of a one-pixel grid *)

Section Trig.
Local Open Scope R_scope.

Lemma cos_pos_shift (k : nat) (phi : R) :
  - (PI / 2) < phi < PI / 2 -> 0 < cos (phi + 2 * INR k * PI).
Proof. intros [H1 H2]. rewrite cos_period. by apply cos_gt_0. Qed.

Lemma cos_neg_shift (k : nat) (phi : R) :
  PI / 2 < phi < 3 * (PI / 2) -> cos (phi + 2 * INR k * PI) < 0.
Proof. intros [H1 H2]. rewrite cos_period. by apply cos_lt_0. Qed.

Ltac shift_cos lem k :=
  match goal with
  | |- context [cos ?t] =>
      replace t with ((t - 2 * INR k * PI) + 2 * INR k * PI) by ring;
      apply lem; simpl INR; Lra.lra
  end.

(** Sign of the cosine factor of the last pixel row or column. *)
Lemma corner_cos_sign (u : nat) :
  (u < 8)%nat ->
  if Nat.even u
  then 0 < cos (INR ((2 * 31 + 1) * u) * PI / INR (2 * 32))
  else cos (INR ((2 * 31 + 1) * u) * PI / INR (2 * 32)) < 0.
Proof.
  intros Hu. pose proof PI_RGT_0 as Hpi.
  assert (u = 0 \/ u = 1 \/ u = 2 \/ u = 3 \/ u = 4 \/ u = 5 \/ u = 6 \/ u = 7)%nat
    as Hcases by lia.
  rewrite !INR_IZR_INZ.
  destruct Hcases as [->|[->|[->|[->|[->|[->|[->| ->]]]]]]]; cbn [Nat.even];
    match goal with
    | |- context [Z.of_nat ?n] =>
        let z := eval vm_compute in (Z.of_nat n) in
        change (Z.of_nat n) with z
    end.
  all: change (Z.of_nat (2 * 32)) with 64%Z.
  - shift_cos cos_pos_shift 0%nat.
  - shift_cos cos_neg_shift 0%nat.
  - shift_cos cos_pos_shift 1%nat.
  - shift_cos cos_neg_shift 1%nat.
  - shift_cos cos_pos_shift 2%nat.
  - shift_cos cos_neg_shift 2%nat.
  - shift_cos cos_pos_shift 3%nat.
  - shift_cos cos_neg_shift 3%nat.
Qed.
End Trig.

Section Median.
Local Open Scope R_scope.

#[local] Instance ascending_Rlt_total : Total (ascending Rlt).
Proof. intros x y. unfold ascending. destruct (Rlt_dec y x); [right|left]; Lra.lra. Qed.

#[local] Instance ascending_Rlt_trans : Transitive (ascending Rlt).
Proof. intros x y z. unfold ascending. Lra.lra. Qed.

Lemma filter_none {A : Type} (P : A -> Prop) `{!forall x, Decision (P x)}
    (l : list A) :
  (forall x, x ∈ l -> ~ P x) -> filter P l = [].
Proof.
  induction l as [|x l IH]; intros HP; [reflexivity|].
  rewrite filter_cons. destruct (decide (P x)) as [Hx|_].
  - exfalso. apply (HP x); [left | exact Hx].
  - apply IH. intros y Hy. apply HP. by right.
Qed.

Lemma filter_all {A : Type} (P : A -> Prop) `{!forall x, Decision (P x)}
    (l : list A) :
  (forall x, x ∈ l -> P x) -> filter P l = l.
Proof.
  induction l as [|x l IH]; intros HP; [reflexivity|].
  rewrite filter_cons. destruct (decide (P x)) as [_|Hx].
  - f_equal. apply IH. intros y Hy. apply HP. by right.
  - exfalso. apply Hx, HP. left.
Qed.

(** When 32 of 63 non-zero coefficients are negative, the median (the
    element at index 31 of the ascending order) is the largest negative
    one, and a coefficient exceeds it exactly when it is positive. *)
Lemma median_splits_signs (coefs : list R) (median : R) :
  length coefs = 63%nat ->
  (forall c, c ∈ coefs -> c <> 0) ->
  length (filter (fun c : R => (c < 0)%R) coefs) = 32%nat ->
  merge_sort (ascending Rlt) coefs !! 31%nat = Some median ->
  forall c, c ∈ coefs -> (median < c <-> 0 < c).
Proof.
  intros Hlen Hnz Hneg Hmed.
  pose proof (merge_sort_Permutation (ascending Rlt) coefs) as Hperm.
  pose proof (StronglySorted_merge_sort (ascending Rlt) coefs) as HS.
  revert Hperm HS Hmed. generalize (merge_sort (ascending Rlt) coefs) as s.
  intros s Hperm HS Hmed.
  pose proof (take_drop_middle _ _ _ Hmed) as Hs.
  set (s1 := take 31 s) in *. set (s2 := drop 32 s) in *.
  assert (length s1 = 31%nat) as Hs1.
  { unfold s1. rewrite length_take, (Permutation_length Hperm), Hlen. lia. }
  rewrite <- Hs in HS.
  apply StronglySorted_app in HS as (H12 & _ & HS2).
  apply StronglySorted_cons in HS2 as [Hm2 _]. rewrite Forall_forall in Hm2.
  assert (forall x, x ∈ s1 -> ~ median < x) as Hlow
    by (intros x Hx; apply (H12 x median Hx); left).
  assert (forall x, x ∈ s2 -> ~ x < median) as Hhigh by (intros x Hx; by apply Hm2).
  assert (length (filter (fun c : R => (c < 0)%R) s1)
          + length (filter (fun c : R => (c < 0)%R) (median :: s2)) = 32%nat)%nat
    as Hcount.
  { rewrite <- length_app, <- filter_app, Hs, <- Hneg. by rewrite Hperm. }
  assert (median ∈ coefs) as Hmc.
  { rewrite <- Hperm, <- Hs. apply elem_of_app. right. left. }
  assert (median < 0) as Hmneg.
  { destruct (Rlt_dec median 0) as [|Hge]; [assumption|]. exfalso.
    pose proof (Hnz median Hmc).
    rewrite (filter_none _ (median :: s2)) in Hcount.
    - pose proof (length_filter (fun c : R => (c < 0)%R) s1). simpl in Hcount. lia.
    - intros x [->|Hx]%elem_of_cons; [Lra.lra|]. specialize (Hhigh x Hx). Lra.lra. }
  intros c Hc. split; [|Lra.lra].
  intros Hmc'. destruct (Rlt_dec 0 c) as [|Hle]; [assumption|]. exfalso.
  pose proof (Hnz c Hc). assert (c < 0) as Hcneg by Lra.lra.
  rewrite <- Hperm, <- Hs in Hc.
  apply elem_of_app in Hc as [Hc|[->|Hc]%elem_of_cons].
  - by apply (Hlow c).
  - Lra.lra.
  - rewrite (filter_all _ s1) in Hcount
      by (intros x Hx; specialize (Hlow x Hx); Lra.lra).
    rewrite filter_cons in Hcount.
    destruct (decide (median < 0)); [|contradiction].
    assert (c ∈ filter (fun c : R => (c < 0)%R) s2) as Hin
        by (apply list_elem_of_filter; by split).
    destruct (filter (fun c : R => (c < 0)%R) s2); [by apply elem_of_nil in Hin|].
    simpl in Hcount. lia.
Qed.
End Median.


Section Corner.
Local Open Scope R_scope.

Lemma fold_zero_terms {A : Type} (g : A -> R) (l : list A) (s0 : R) :
  (forall y, y ∈ l -> g y = 0) ->
  fold_left (fun s y => s + g y) l s0 = s0.
Proof.
  revert s0. induction l as [|y l IH]; intros s0 H; [reflexivity|].
  simpl. rewrite (H y) by left. rewrite Rplus_0_r.
  apply IH. intros z Hz. apply H. by right.
Qed.

Lemma fold_unchanged {A : Type} (f : R -> A -> R) (l : list A) (s0 : R) :
  (forall x s, x ∈ l -> f s x = s) -> fold_left f l s0 = s0.
Proof.
  revert s0. induction l as [|x l IH]; intros s0 H; [reflexivity|].
  simpl. rewrite (H x) by left. apply IH. intros z s Hz. apply H. by right.
Qed.

Lemma cornerGrid_black (i : nat) : (i < 1023)%nat -> nth i cornerGrid 0 = 0.
Proof.
  intros H. unfold cornerGrid.
  rewrite app_nth1 by (rewrite repeat_length; lia). apply nth_repeat.
Qed.

Lemma cornerGrid_white : nth 1023 cornerGrid 0 = 255.
Proof.
  unfold cornerGrid.
  rewrite app_nth2 by (rewrite repeat_length; lia).
  rewrite repeat_length. reflexivity.
Qed.

(** Only the last pixel contributes to the sums. *)
Lemma corner_applyDCT (u v : nat) :
  Kotlin.applyDCT cornerGrid 32 u v
  = 2 / INR 32
    * (if Nat.eqb u 0 then 1 / sqrt 2 else 1)
    * (if Nat.eqb v 0 then 1 / sqrt 2 else 1)
    * (0 + 255 * cos (INR ((2 * 31 + 1) * u) * PI / INR (2 * 32))
               * cos (INR ((2 * 31 + 1) * v) * PI / INR (2 * 32))).
Proof.
  unfold Kotlin.applyDCT. cbv zeta. f_equal.
  change (seq 0 32) with (seq 0 31 ++ [31%nat]).
  rewrite (fold_left_app _ (seq 0 31) [31%nat]).
  rewrite (fold_unchanged _ (seq 0 31)).
  - cbn [fold_left]. rewrite (fold_left_app _ (seq 0 31) [31%nat]).
    rewrite (fold_zero_terms
               (fun y => nth (31 * 32 + y) cornerGrid 0
                         * cos (INR ((2 * 31 + 1) * u) * PI / INR (2 * 32))
                         * cos (INR ((2 * y + 1) * v) * PI / INR (2 * 32)))
               (seq 0 31)).
    + cbn [fold_left]. change (31 * 32 + 31)%nat with 1023%nat.
      rewrite cornerGrid_white. reflexivity.
    + intros y Hy%elem_of_seq. rewrite cornerGrid_black by lia. ring.
  - intros x s Hx%elem_of_seq. change (seq 0 31 ++ [31%nat]) with (seq 0 32).
    apply (fold_zero_terms
             (fun y => nth (x * 32 + y) cornerGrid 0
                       * cos (INR ((2 * x + 1) * u) * PI / INR (2 * 32))
                       * cos (INR ((2 * y + 1) * v) * PI / INR (2 * 32)))).
    intros y Hy%elem_of_seq. rewrite cornerGrid_black by lia. ring.
Qed.

Lemma web_applyDCT_eq (pixels : list R) (size u v : nat) :
  Web.applyDCT pixels size u v = Kotlin.applyDCT pixels size u v.
Proof. reflexivity. Qed.

Lemma alpha_pos (k : nat) : 0 < (if Nat.eqb k 0 then 1 / sqrt 2 else 1).
Proof.
  destruct (Nat.eqb k 0); [|Lra.lra].
  apply Rdiv_lt_0_compat; [Lra.lra|]. apply sqrt_lt_R0. Lra.lra.
Qed.

(** The coefficients of the corner grid alternate in sign. *)
Lemma corner_sign (u v : nat) :
  (u < 8)%nat -> (v < 8)%nat ->
  if Nat.even (u + v)
  then 0 < Kotlin.applyDCT cornerGrid 32 u v
  else Kotlin.applyDCT cornerGrid 32 u v < 0.
Proof.
  intros Hu Hv. rewrite corner_applyDCT.
  pose proof (corner_cos_sign u Hu) as Hcu.
  pose proof (corner_cos_sign v Hv) as Hcv.
  pose proof (alpha_pos u) as Hau. pose proof (alpha_pos v) as Hav.
  assert (0 < 2 / INR 32) as H32.
  { apply Rdiv_lt_0_compat; [Lra.lra|]. apply lt_0_INR. lia. }
  set (cu := cos (INR ((2 * 31 + 1) * u) * PI / INR (2 * 32))) in *.
  set (cv := cos (INR ((2 * 31 + 1) * v) * PI / INR (2 * 32))) in *.
  set (K := 2 / INR 32 * _ * _).
  assert (0 < K) as HK 
    by (unfold K; apply Rmult_lt_0_compat; [apply Rmult_lt_0_compat|]; assumption).
  rewrite Nat.even_add.
  destruct (Nat.even u), (Nat.even v); cbn [Bool.eqb].
  - apply Rmult_lt_0_compat; [exact HK|]. Lra.nra.
  - assert (255 * cu * cv < 0) by Lra.nra. Lra.nra.
  - assert (255 * cu * cv < 0) by Lra.nra. Lra.nra.
  - apply Rmult_lt_0_compat; [exact HK|]. Lra.nra.
Qed.
End Corner.

Section CornerHash.
Local Open Scope R_scope.

Abbreviation cornerDCT := (Kotlin.applyDCT cornerGrid 32).

Lemma coefficientIndices_range (ij : nat * nat) :
  ij ∈ coefficientIndices -> (fst ij < 8)%nat /\ (snd ij < 8)%nat.
Proof.
  intros H%list_elem_of_In.
  assert (forallb (fun ij => Nat.ltb (fst ij) 8 && Nat.ltb (snd ij) 8)
                  coefficientIndices = true) as Hall by reflexivity.
  rewrite forallb_forall in Hall. specialize (Hall ij H).
  apply andb_prop in Hall as [H1%Nat.ltb_lt H2%Nat.ltb_lt]. by split.
Qed.

Lemma collect_as_map {C : Type} (m : nat -> nat -> C) :
  Kotlin.collectCoefficients m
  = map (fun ij => m (fst ij) (snd ij)) coefficientIndices.
Proof. reflexivity. Qed.

Lemma corner_sign_bit (ij : nat * nat) :
  ij ∈ coefficientIndices ->
  bool_decide (0 < cornerDCT (fst ij) (snd ij)) = Nat.even (fst ij + snd ij)
  /\ (cornerDCT (fst ij) (snd ij) < 0 <-> Nat.even (fst ij + snd ij) = false)
  /\ cornerDCT (fst ij) (snd ij) <> 0.
Proof.
  intros [H1 H2]%coefficientIndices_range.
  pose proof (corner_sign _ _ H1 H2) as Hs.
  destruct (Nat.even (fst ij + snd ij)).
  - split; [by apply bool_decide_eq_true|]. split; [|Lra.lra].
    split; [Lra.lra | discriminate].
  - split; [apply bool_decide_eq_false; Lra.lra|]. split; [|Lra.lra].
    by split.
Qed.

Lemma corner_negative_count (l : list (nat * nat)) :
  (forall ij, ij ∈ l -> ij ∈ coefficientIndices) ->
  length (filter (fun c : R => (c < 0)%R)
                 (map (fun ij => cornerDCT (fst ij) (snd ij)) l))
  = length (List.filter (fun ij => negb (Nat.even (fst ij + snd ij))) l).
Proof.
  induction l as [|ij l IH]; intros H; [reflexivity|].
  cbn [map List.filter]. rewrite filter_cons.
  destruct (corner_sign_bit ij) as (_ & Hneg & _); [apply H; left|].
  assert (forall ij', ij' ∈ l -> ij' ∈ coefficientIndices) as H'
    by (intros; apply H; by right).
  destruct (decide (cornerDCT (fst ij) (snd ij) < 0)) as [Hd|Hd].
  - rewrite (proj1 Hneg Hd). simpl. by rewrite IH.
  - destruct (Nat.even (fst ij + snd ij)) eqn:E; [by apply IH|].
    exfalso. by apply Hd, Hneg.
Qed.

(** The comparison bits of the corner grid form the checkerboard. *)
Lemma corner_hashBits : hashBits Rlt cornerDCT = checkerBits.
Proof.
  unfold hashBits.
  destruct (median_exists Rlt cornerDCT) as [median Hmed]. rewrite Hmed.
  rewrite (Permutation_length (merge_sort_Permutation _ _)), collect_length in Hmed.
  change (63 / 2)%nat with 31%nat in Hmed.
  rewrite collect_as_map in *. unfold checkerBits.
  rewrite map_map. apply map_ext_in. intros ij Hij%list_elem_of_In.
  destruct (corner_sign_bit ij Hij) as (<- & _ & _).
  apply bool_decide_ext.
  apply (median_splits_signs
           (map (fun ij => cornerDCT (fst ij) (snd ij)) coefficientIndices)).
  - by rewrite length_map.
  - intros c (ij' & -> & Hij')%list_elem_of_fmap. by apply corner_sign_bit.
  - rewrite corner_negative_count by auto. reflexivity.
  - exact Hmed.
  - apply list_elem_of_fmap. eauto.
Qed.

Lemma corner_hashes :
  Kotlin.hashOfGrayscale cornerGrid = Ret "54AB54AB54AB54AA" /\
  Web.hashOfGrayscale cornerGrid = Ret "54AB54AB54AB54A5".
Proof.
  unfold Kotlin.hashOfGrayscale, Web.hashOfGrayscale.
  change (Web.applyDCT cornerGrid 32) with cornerDCT.
  rewrite kotlin_generate_bits, web_generate_bits, corner_hashBits.
  split; vm_compute; reflexivity.
Qed.
End CornerHash.

(** C2. The two copies of [applyDCT] are the same function and both hash
    generators compute the same 63 comparison bits, but the native path
    packs them with padding and the web path without: the two fingerprints
    are equal exactly when the last three bits are 0.  They differ on the
    32x32 grid that is black except for a white last pixel (coefficients
    taken as real numbers), and on the coefficient block whose only
    non-zero entry is [dctCoefficients[7][7]]. *)
Theorem native_and_web_hashes
    (C : Type) (lt : C -> C -> Prop) (dec : RelDecision lt)
    (dctCoefficients : nat -> nat -> C) :
  (forall pixels size u v,
     Web.applyDCT pixels size u v = Kotlin.applyDCT pixels size u v) /\
  Kotlin.generateHashFromDCT lt dctCoefficients
  = Ret (Numeral.uppercase (packPadded (hashBits lt dctCoefficients))) /\
  Web.generateHashFromDCT lt dctCoefficients
  = Ret (Numeral.uppercase (packUnpadded (hashBits lt dctCoefficients))) /\
  (Kotlin.generateHashFromDCT lt dctCoefficients
   = Web.generateHashFromDCT lt dctCoefficients
   <-> drop 60 (hashBits lt dctCoefficients) = [false; false; false]) /\
  Kotlin.hashOfGrayscale cornerGrid = Ret "54AB54AB54AB54AA" /\
  Web.hashOfGrayscale cornerGrid = Ret "54AB54AB54AB54A5" /\
  Kotlin.generateHashFromDCT Z.lt lastCoefficientOnly
  <> Web.generateHashFromDCT Z.lt lastCoefficientOnly.
Proof.
  split; [reflexivity|].
  rewrite kotlin_generate_bits, web_generate_bits.
  split; [reflexivity|]. split; [reflexivity|]. split.
  - rewrite <- (packings_agree_iff _ (hashBits_length lt dctCoefficients)).
    split; [by intros [= ->] | by intros ->].
  - split; [apply corner_hashes|]. split; [apply corner_hashes|].
    vm_compute. discriminate.
Qed.

(** * Further properties of the code *)

(** ** The distance as a metric on digit strings *)

Section DistanceMetric.

Lemma land_one_testbit (x : Z) (i : Z) :
  0 <= i -> Z.land (Z.shiftr x i) 1 = Z.b2z (Z.testbit x i).
Proof.
  intros Hi. change 1 with (Z.ones 1). rewrite Z.land_ones by lia.
  rewrite <- Z.bit0_mod, Z.shiftr_spec by lia. by rewrite Z.add_0_l.
Qed.

Lemma popcount4_bits (x : Z) :
  popcount4 x
  = Z.b2z (Z.testbit x 0) + Z.b2z (Z.testbit x 1)
    + Z.b2z (Z.testbit x 2) + Z.b2z (Z.testbit x 3).
Proof.
  unfold popcount4. rewrite <- (Z.shiftr_0_r x) at 1.
  by rewrite !land_one_testbit by lia.
Qed.

Lemma b2z_xorb_triangle (a b c : bool) :
  Z.b2z (xorb a c) <= Z.b2z (xorb a b) + Z.b2z (xorb b c).
Proof. by destruct a, b, c. Qed.

Lemma b2z_xorb_le (a b : bool) : Z.b2z (xorb a b) <= Z.b2z a + Z.b2z b.
Proof. by destruct a, b. Qed.

Lemma popcount4_triangle (x y z : Z) :
  popcount4 (Z.lxor x z) <= popcount4 (Z.lxor x y) + popcount4 (Z.lxor y z).
Proof.
  rewrite !popcount4_bits, !Z.lxor_spec.
  pose proof (fun i => b2z_xorb_triangle (Z.testbit x i) (Z.testbit y i)
                         (Z.testbit z i)) as H.
  pose proof (H 0) as H0. pose proof (H 1) as H1. pose proof (H 2) as H2.
  pose proof (H 3) as H3. clear H. revert H0 H1 H2 H3.
  repeat match goal with
         | |- context [Z.b2z ?a] => generalize (Z.b2z a)
         end.
  intros. lia.
Qed.

Lemma popcount4_lxor_le (x y : Z) :
  popcount4 (Z.lxor x y) <= popcount4 x + popcount4 y.
Proof.
  rewrite !popcount4_bits, !Z.lxor_spec.
  pose proof (fun i => b2z_xorb_le (Z.testbit x i) (Z.testbit y i)) as H.
  pose proof (H 0) as H0. pose proof (H 1) as H1. pose proof (H 2) as H2.
  pose proof (H 3) as H3. clear H. revert H0 H1 H2 H3.
  repeat match goal with
         | |- context [Z.b2z ?a] => generalize (Z.b2z a)
         end.
  intros. lia.
Qed.

Lemma digitDistance_triangle (a : string) :
  forall b c, String.length a = String.length b ->
    String.length b = String.length c ->
    digitDistance a c <= digitDistance a b + digitDistance b c.
Proof.
  induction a as [|x a IH]; intros [|y b] [|z c]; simpl; try lia.
  intros [= Hab] [= Hbc]. specialize (IH b c Hab Hbc).
  pose proof (popcount4_triangle (Web.toInt32 (Web.parseInt16 x))
                (Web.toInt32 (Web.parseInt16 y)) (Web.toInt32 (Web.parseInt16 z))).
  lia.
Qed.

Lemma hexDigitValue_upperChar (c : ascii) :
  Numeral.hexDigitValue (Numeral.upperChar c) = Numeral.hexDigitValue c.
Proof.
  destruct c as [b0 b1 b2 b3 b4 b5 b6 b7].
  destruct b0, b1, b2, b3, b4, b5, b6, b7; vm_compute; reflexivity.
Qed.

Lemma digitDistance_uppercase_l (a : string) :
  forall b, digitDistance (Numeral.uppercase a) b = digitDistance a b.
Proof.
  induction a as [|x a IH]; intros [|y b]; simpl; try reflexivity.
  unfold Web.parseInt16. by rewrite hexDigitValue_upperChar, IH.
Qed.

Lemma kotlin_distanceLoop_uppercase_l (a : string) :
  forall b d, Kotlin.distanceLoop (Numeral.uppercase a) b d
              = Kotlin.distanceLoop a b d.
Proof.
  induction a as [|x a IH]; intros [|y b] d; simpl; try reflexivity.
  unfold Kotlin.toInt16. rewrite hexDigitValue_upperChar.
  destruct (Numeral.hexDigitValue x); simpl; [|reflexivity].
  destruct (Numeral.hexDigitValue y); simpl; [|reflexivity].
  destruct (Kotlin.countBits _ _ _); simpl; auto.
Qed.

End DistanceMetric.

(** X1.  On ASCII strings of one common length the exported distance
    satisfies the triangle inequality, and it lies between 0 and four times
    the length. *)
Theorem distance_triangle (native : bool) (a b c : string) :
  allAscii a = true -> allAscii b = true -> allAscii c = true ->
  String.length a = String.length b ->
  String.length b = String.length c ->
  exists dab dbc dac : Z,
    Web.calculateHammingDistance native a b = Ret dab /\
    Web.calculateHammingDistance native b c = Ret dbc /\
    Web.calculateHammingDistance native a c = Ret dac /\
    dac <= dab + dbc /\
    0 <= dab <= 4 * Z.of_nat (String.length a).
Proof.
  intros _ _ _ Hab Hbc.
  exists (digitDistance a b), (digitDistance b c), (digitDistance a c).
  rewrite !calculateHammingDistance_spec, <- Hbc, <- Hab, Nat.eqb_refl.
  repeat split; try apply digitDistance_range.
  by apply digitDistance_triangle.
Qed.

Lemma distance_triangle_witness :
  exists dab dbc dac : Z,
    Web.calculateHammingDistance true "0F" "FF" = Ret dab /\
    Web.calculateHammingDistance true "FF" "F0" = Ret dbc /\
    Web.calculateHammingDistance true "0F" "F0" = Ret dac /\
    dac <= dab + dbc /\
    0 <= dab <= 4 * Z.of_nat (String.length "0F").
Proof. apply (distance_triangle true "0F" "FF" "F0"); reflexivity. Defined.

(** X2.  On ASCII strings the exported [calculateHammingDistance] gives
    the same outcome whether or not the native module is in use.  On two
    ASCII strings of equal length of which one holds a character that is no
    hexadecimal digit the native [hammingDistance] throws a number-format
    error, and the exported function then returns the count of the
    JavaScript loop. *)
Theorem native_failure_falls_back (hash1 hash2 : string)
    (ascii1 : allAscii hash1 = true) (ascii2 : allAscii hash2 = true) :
  Web.calculateHammingDistance true hash1 hash2
  = Web.calculateHammingDistance false hash1 hash2 /\
  (String.length hash1 = String.length hash2 ->
   allHex hash1 && allHex hash2 = false ->
   Kotlin.hammingDistance hash1 hash2 = Throw NumberFormat /\
   Web.calculateHammingDistance true hash1 hash2
   = Ret (digitDistance hash1 hash2)) /\
  (Kotlin.hammingDistance hash1 hash2 = Throw NumberFormat ->
   String.length hash1 = String.length hash2 /\
   allHex hash1 && allHex hash2 = false).
Proof.
  split; [by rewrite !calculateHammingDistance_spec|]. split.
  - intros Hlen Hhex. split.
    + unfold Kotlin.hammingDistance. rewrite Hlen, Nat.eqb_refl. simpl.
      by apply kotlin_distanceLoop_nonhex.
    + by rewrite calculateHammingDistance_spec, Hlen, Nat.eqb_refl.
  - unfold Kotlin.hammingDistance.
    destruct (Nat.eqb (String.length hash1) (String.length hash2)) eqn:E;
      simpl; [|discriminate].
    apply Nat.eqb_eq in E. intros H. split; [done|].
    destruct (allHex hash1) eqn:H1, (allHex hash2) eqn:H2; try reflexivity.
    by rewrite kotlin_distanceLoop_hex in H.
Qed.

Lemma native_failure_falls_back_witness :
  Kotlin.hammingDistance "0G" "01" = Throw NumberFormat /\
  Web.calculateHammingDistance true "0G" "01" = Ret 1.
Proof.
  apply (proj1 (proj2 (native_failure_falls_back "0G" "01" eq_refl eq_refl)));
    reflexivity.
Defined.

(** X3.  The distance does not depend on the case of the letters: each
    implementation gives the same outcome on two strings and on their
    upper-case forms. *)
Theorem distance_ignores_case (native : bool) (a b : string) :
  Web.calculateHammingDistance native (Numeral.uppercase a) (Numeral.uppercase b)
  = Web.calculateHammingDistance native a b /\
  Kotlin.hammingDistance (Numeral.uppercase a) (Numeral.uppercase b)
  = Kotlin.hammingDistance a b.
Proof.
  assert (forall x y, Kotlin.hammingDistance (Numeral.uppercase x) y
                      = Kotlin.hammingDistance x y) as Hk.
  { intros x y. unfold Kotlin.hammingDistance. rewrite uppercase_length.
    destruct (negb _); [reflexivity|]. apply kotlin_distanceLoop_uppercase_l. }
  split.
  - rewrite !calculateHammingDistance_spec, !uppercase_length.
    by rewrite digitDistance_uppercase_l, (digitDistance_sym a),
      digitDistance_uppercase_l, (digitDistance_sym b).
  - by rewrite Hk, kotlin_hammingDistance_sym, Hk, kotlin_hammingDistance_sym.
Qed.

(** ** The similarity test *)

Section Similarity.

Lemma areImagesSimilar_spec (native : bool) (hash1 hash2 : string)
    (threshold : Z) :
  Web.areImagesSimilar native hash1 hash2 threshold
  = if Nat.eqb (String.length hash1) (String.length hash2)
    then Ret (digitDistance hash1 hash2 <=? threshold)
    else Throw LengthMismatch.
Proof.
  unfold Web.areImagesSimilar. rewrite calculateHammingDistance_spec.
  by destruct (Nat.eqb _ _).
Qed.

Lemma expo_areImagesSimilar_hex (hash1 hash2 : string) (threshold : Z) :
  allHex hash1 = true -> allHex hash2 = true ->
  ExpoPHash.areImagesSimilar hash1 hash2 threshold
  = if Nat.eqb (String.length hash1) (String.length hash2)
    then Ret (digitDistance hash1 hash2 <=? threshold)
    else Throw LengthMismatch.
Proof.
  intros H1 H2.
  unfold ExpoPHash.areImagesSimilar, ExpoPHash.calculateHammingDistance,
    Kotlin.hammingDistance.
  destruct (Nat.eqb _ _); [|reflexivity]. simpl.
  by rewrite kotlin_distanceLoop_hex.
Qed.

End Similarity.

(** X4.  [areImagesSimilar] is symmetric in the two hashes and monotone in
    the threshold; a string is similar to itself at every threshold from 0
    on, two strings of one length are similar at a threshold of four times
    that length, and strings of different lengths make it fail.  On
    strings of hexadecimal digits the wrapper of the native module returns
    the same outcome. *)
Theorem similarity_test (native : bool) (a b : string) (threshold : Z) :
  Web.areImagesSimilar native a b threshold
  = Web.areImagesSimilar native b a threshold /\
  (0 <= threshold -> Web.areImagesSimilar native a a threshold = Ret true) /\
  (forall larger, threshold <= larger ->
     Web.areImagesSimilar native a b threshold = Ret true ->
     Web.areImagesSimilar native a b larger = Ret true) /\
  (String.length a = String.length b ->
   4 * Z.of_nat (String.length a) <= threshold ->
   Web.areImagesSimilar native a b threshold = Ret true) /\
  (String.length a <> String.length b ->
   Web.areImagesSimilar native a b threshold = Throw LengthMismatch) /\
  (allHex a = true -> allHex b = true ->
   ExpoPHash.areImagesSimilar a b threshold
   = Web.areImagesSimilar native a b threshold).
Proof.
  rewrite !areImagesSimilar_spec.
  split; [by rewrite length_eqb_sym, digitDistance_sym|].
  split.
  { intros H. rewrite Nat.eqb_refl, digitDistance_diag.
    f_equal. apply Z.leb_le. lia. }
  split.
  { intros larger Hle. rewrite areImagesSimilar_spec.
    destruct (Nat.eqb _ _); [|done]. intros [= H]. f_equal.
    apply Z.leb_le. apply Z.leb_le in H. lia. }
  split.
  { intros E H. rewrite E, Nat.eqb_refl. f_equal. apply Z.leb_le.
    pose proof (digitDistance_range a b). lia. }
  split.
  { intros H. by apply Nat.eqb_neq in H as ->. }
  intros Ha Hb. by apply expo_areImagesSimilar_hex.
Qed.

Lemma similarity_test_witness :
  Web.areImagesSimilar true "FFFFFFFFFFFFFFFE" "FFFFFFFFFFFFFFFE" 10 = Ret true /\
  Web.areImagesSimilar true "FFFE" "000" 10 = Throw LengthMismatch.
Proof.
  split.
  - apply (proj1 (proj2
             (similarity_test true "FFFFFFFFFFFFFFFE" "FFFFFFFFFFFFFFFE" 10))).
    lia.
  - apply (proj1 (proj2 (proj2 (proj2 (proj2
             (similarity_test true "FFFE" "000" 10)))))).
    discriminate.
Defined.

(** ** Shape of a fingerprint *)

Section Format.

Ltac all_bools :=
  repeat match goal with b : bool |- _ => destruct b end.

Lemma allUpperHex_app (s1 s2 : string) :
  allUpperHex (s1 ++ s2) = allUpperHex s1 && allUpperHex s2.
Proof.
  induction s1 as [|c s1 IH]; simpl; [reflexivity|].
  by rewrite IH, andb_assoc.
Qed.

Lemma allUpperHex_digit (bs : list bool) :
  (0 < length bs <= 4)%nat ->
  allUpperHex (Numeral.uppercase (Numeral.toString16 (bitsValue bs))) = true.
Proof.
  intros H.
  destruct bs as [|a [|b [|c [|d [|e r]]]]]; cbn [length] in H; try lia;
    all_bools; vm_compute; reflexivity.
Qed.

Lemma allUpperHex_packPadded (bs : list bool) :
  allUpperHex (Numeral.uppercase (packPadded bs)) = true.
Proof.
  induction bs as [|short Hshort|a b c d rest IH] using list_ind4.
  - reflexivity.
  - destruct (short_cases short Hshort) as [(?&->)|[(?&?&->)|(?&?&?&->)]];
      cbn [packPadded]; apply allUpperHex_digit; simpl; lia.
  - cbn [packPadded].
    rewrite uppercase_app, allUpperHex_app, IH, andb_true_r.
    apply allUpperHex_digit. simpl. lia.
Qed.

Lemma allUpperHex_packUnpadded (bs : list bool) :
  allUpperHex (Numeral.uppercase (packUnpadded bs)) = true.
Proof.
  induction bs as [|short Hshort|a b c d rest IH] using list_ind4.
  - reflexivity.
  - destruct (short_cases short Hshort) as [(?&->)|[(?&?&->)|(?&?&?&->)]];
      cbn [packUnpadded]; apply allUpperHex_digit; simpl; lia.
  - cbn [packUnpadded].
    rewrite uppercase_app, allUpperHex_app, IH, andb_true_r.
    apply allUpperHex_digit. simpl. lia.
Qed.

Lemma isUpperHexDigit_hex (c : ascii) :
  isUpperHexDigit c = true -> Numeral.hexDigitValue c <> None.
Proof.
  destruct c as [b0 b1 b2 b3 b4 b5 b6 b7].
  destruct b0, b1, b2, b3, b4, b5, b6, b7; vm_compute; congruence.
Qed.

Lemma allUpperHex_allHex (s : string) : allUpperHex s = true -> allHex s = true.
Proof.
  induction s as [|c s IH]; simpl; [done|].
  intros [Hc Hs]%andb_prop. apply isUpperHexDigit_hex in Hc.
  destruct (Numeral.hexDigitValue c); [auto | done].
Qed.

Lemma isUpperHexDigit_upperChar (c : ascii) :
  isUpperHexDigit c = true -> Numeral.upperChar c = c.
Proof.
  destruct c as [b0 b1 b2 b3 b4 b5 b6 b7].
  destruct b0, b1, b2, b3, b4, b5, b6, b7; vm_compute; congruence.
Qed.

Lemma allUpperHex_uppercase (s : string) :
  allUpperHex s = true -> Numeral.uppercase s = s.
Proof.
  induction s as [|c s IH]; simpl; [done|].
  intros [Hc Hs]%andb_prop.
  by rewrite (isUpperHexDigit_upperChar c Hc), IH.
Qed.

End Format.

(** X5.  On either platform [generateHashFromDCT] returns, for every
    coefficient matrix, a string of exactly 16 characters, each one of
    [0-9A-F]; no run ends in an error, and the web copy never appends the
    text of a failed [parseInt]. *)
Theorem fingerprint_format
    (C : Type) (lt : C -> C -> Prop) (dec : RelDecision lt)
    (native : bool) (dctCoefficients : nat -> nat -> C) :
  exists h : string,
    hashOnPlatform lt native dctCoefficients = Ret h /\
    String.length h = 16%nat /\
    allUpperHex h = true /\
    Numeral.uppercase h = h /\
    Kotlin.hammingDistance h h = Ret 0.
Proof.
  assert (forall h, allUpperHex h = true ->
            Numeral.uppercase h = h /\ Kotlin.hammingDistance h h = Ret 0)
    as Hup.
  { intros h Hh. split; [by apply allUpperHex_uppercase|].
    unfold Kotlin.hammingDistance. rewrite Nat.eqb_refl. simpl.
    rewrite kotlin_distanceLoop_hex by by apply allUpperHex_allHex.
    by rewrite digitDistance_diag. }
  destruct native; simpl.
  - rewrite kotlin_generate_bits. eexists. split; [reflexivity|].
    split; [|split; [apply allUpperHex_packPadded
                    | apply Hup, allUpperHex_packPadded]].
    by rewrite uppercase_length, packPadded_length, hashBits_length.
  - rewrite web_generate_bits. eexists. split; [reflexivity|].
    split; [|split; [apply allUpperHex_packUnpadded
                    | apply Hup, allUpperHex_packUnpadded]].
    by rewrite uppercase_length, packUnpadded_length, hashBits_length.
Qed.

(** ** The median and the number of 1 bits *)

Section MedianBits.
Context {C : Type} (lt : C -> C -> Prop) `{!RelDecision lt}.
Context (lt_irrefl : forall x, ~ lt x x).
Context (lt_trans : forall x y z, lt x y -> lt y z -> lt x z).
Context (lt_total : forall x y, lt x y \/ x = y \/ lt y x).

Lemma ascending_total_of : Total (ascending lt).
Proof.
  intros x y. unfold ascending. destruct (decide (lt y x)) as [Hyx|]; [|by left].
  right. intros Hxy. by apply (lt_irrefl x), (lt_trans x y x).
Qed.

Lemma ascending_trans_of : Transitive (ascending lt).
Proof.
  intros x y z Hxy Hyz Hzx. unfold ascending in *.
  destruct (lt_total y x) as [H|[->|H]]; [done|done|].
  apply Hyz. by apply (lt_trans z x y).
Qed.

Lemma ascending_antisymm_of : AntiSymm (=) (ascending lt).
Proof.
  intros x y Hxy Hyx. unfold ascending in *.
  by destruct (lt_total x y) as [H|[->|H]].
Qed.

Lemma setBits_filter (P : C -> Prop) `{!forall x, Decision (P x)} (l : list C) :
  setBits (map (fun c => bool_decide (P c)) l) = Z.of_nat (length (filter P l)).
Proof.
  induction l as [|x l IH]; [reflexivity|].
  rewrite filter_cons. cbn [map setBits]. rewrite IH.
  destruct (decide (P x)) as [Hx|Hx].
  - rewrite bool_decide_eq_true_2 by done. cbn [length]. lia.
  - rewrite bool_decide_eq_false_2 by done. lia.
Qed.

(** The sorted list around its element of index 31. *)
Lemma median_position (coefs s : list C) (median : C) :
  length coefs = 63%nat -> s ≡ₚ coefs -> StronglySorted (ascending lt) s ->
  s !! 31%nat = Some median ->
  exists s1 s2, s = s1 ++ median :: s2 /\
    length s1 = 31%nat /\ length s2 = 31%nat /\
    (forall x, x ∈ s1 -> ~ lt median x) /\
    (forall x, x ∈ s2 -> ~ lt x median).
Proof.
  intros Hlen Hperm HS Hmed.
  pose proof (take_drop_middle _ _ _ Hmed) as Hs.
  exists (take 31 s), (drop 32 s). split; [done|].
  pose proof (Permutation_length Hperm) as Hl. rewrite Hlen in Hl.
  split; [rewrite length_take; lia|]. split; [rewrite length_drop; lia|].
  rewrite <- Hs in HS.
  apply StronglySorted_app in HS as (H12 & _ & HS2).
  apply StronglySorted_cons in HS2 as [Hm2 _]. rewrite Forall_forall in Hm2.
  split.
  - intros x Hx. apply (H12 x median Hx). left.
  - intros x Hx. by apply Hm2.
Qed.

Lemma median_of (m : nat -> nat -> C) :
  exists median s1 s2,
    merge_sort (ascending lt) (Kotlin.collectCoefficients m)
    = s1 ++ median :: s2 /\
    hashBits lt m
    = map (fun c => bool_decide (lt median c)) (Kotlin.collectCoefficients m) /\
    length s1 = 31%nat /\ length s2 = 31%nat /\
    (forall x, x ∈ s1 -> ~ lt median x) /\
    (forall x, x ∈ s2 -> ~ lt x median).
Proof.
  pose proof ascending_total_of. pose proof ascending_trans_of.
  destruct (median_exists lt m) as [median Hmed].
  assert (hashBits lt m
          = map (fun c => bool_decide (lt median c))
                (Kotlin.collectCoefficients m)) as Hbits
    by (unfold hashBits; cbv zeta; by rewrite Hmed).
  rewrite (Permutation_length (merge_sort_Permutation _ _)) in Hmed.
  change (length (Kotlin.collectCoefficients m) / 2)%nat with 31%nat in Hmed.
  destruct (median_position (Kotlin.collectCoefficients m) _ median
              eq_refl (merge_sort_Permutation _ _)
              (StronglySorted_merge_sort _ _) Hmed)
    as (s1 & s2 & Hs & H1 & H2 & Hlow & Hhigh).
  by exists median, s1, s2.
Qed.

Lemma setBits_hashBits_le (m : nat -> nat -> C) : setBits (hashBits lt m) <= 31.
Proof.
  destruct (median_of m) as (median & s1 & s2 & Hs & -> & H1 & H2 & Hlow & _).
  rewrite setBits_filter.
  pose proof (merge_sort_Permutation (ascending lt)
                (Kotlin.collectCoefficients m)) as Hperm.
  rewrite <- Hperm, Hs.
  rewrite filter_app, (filter_none _ s1) by done.
  rewrite filter_cons. destruct (decide (lt median median)) as [H|_];
    [by apply lt_irrefl in H|].
  pose proof (length_filter (lt median) s2). simpl. lia.
Qed.

Lemma setBits_hashBits_distinct (m : nat -> nat -> C) :
  NoDup (Kotlin.collectCoefficients m) -> setBits (hashBits lt m) = 31.
Proof.
  intros Hnd.
  destruct (median_of m) as (median & s1 & s2 & Hs & -> & H1 & H2 & Hlow & Hhigh).
  rewrite setBits_filter.
  pose proof (merge_sort_Permutation (ascending lt)
                (Kotlin.collectCoefficients m)) as Hperm.
  rewrite <- Hperm in Hnd |- *.
  rewrite Hs in Hnd |- *.
  apply NoDup_app in Hnd as (_ & _ & Hnd). apply NoDup_cons in Hnd as [Hnotin _].
  rewrite filter_app, (filter_none _ s1) by done.
  rewrite filter_cons. destruct (decide (lt median median)) as [H|_];
    [by apply lt_irrefl in H|].
  rewrite filter_all; [simpl; lia|].
  intros x Hx. destruct (lt_total median x) as [H|[->|H]]; [done|done|].
  by apply Hhigh in H.
Qed.

End MedianBits.

Section CrossPlatform.

Lemma differingBits_zeros (xs : list bool) :
  differingBits xs (repeat false (length xs)) = setBits xs.
Proof. induction xs as [|[] xs IH]; simpl; lia. Qed.

(** The fingerprint of the platform, from the comparison bits. *)
Lemma hashOnPlatform_bits {C : Type} (lt : C -> C -> Prop) `{!RelDecision lt}
    (native : bool) (m : nat -> nat -> C) :
  hashOnPlatform lt native m
  = Ret (Numeral.uppercase
           (if native then packPadded (hashBits lt m)
            else packUnpadded (hashBits lt m))).
Proof.
  destruct native; simpl; [apply kotlin_generate_bits | apply web_generate_bits].
Qed.

Lemma weight_against_zero (native : bool) (bs : list bool) :
  length bs = 63%nat ->
  digitDistance
    (Numeral.uppercase (if native then packPadded bs else packUnpadded bs))
    "0000000000000000"
  = setBits bs.
Proof.
  intros Hlen. rewrite <- differingBits_zeros, Hlen. destruct native.
  - change "0000000000000000"
      with (Numeral.uppercase (packPadded (repeat false 63))).
    apply digitDistance_packPadded. by rewrite repeat_length.
  - change "0000000000000000"
      with (Numeral.uppercase (packUnpadded (repeat false 63))).
    apply digitDistance_packUnpadded. by rewrite repeat_length.
Qed.

Lemma encoded_length (native : bool) (bs : list bool) :
  length bs = 63%nat ->
  String.length
    (Numeral.uppercase (if native then packPadded bs else packUnpadded bs))
  = 16%nat.
Proof.
  intros Hlen. rewrite uppercase_length.
  destruct native; [rewrite packPadded_length | rewrite packUnpadded_length];
    by rewrite Hlen.
Qed.

End CrossPlatform.

(** ** The distance between fingerprints of either platform *)

Section PaddingBit.



End PaddingBit.




(** X6.  When the order of the coefficients is a strict total order, at
    most 31 of the 63 comparison bits of a fingerprint are 1, and exactly
    31 when the collected coefficients are pairwise distinct.  Hence two
    fingerprints are at distance 62 or less, also when one was generated
    by the native module and the other by the web fallback. *)
Theorem fingerprint_weight
    (C : Type) (lt : C -> C -> Prop) (dec : RelDecision lt)
    (lt_irrefl : forall x, ~ lt x x)
    (lt_trans : forall x y z, lt x y -> lt y z -> lt x z)
    (lt_total : forall x y, lt x y \/ x = y \/ lt y x)
    (m1 m2 : nat -> nat -> C) :
  setBits (hashBits lt m1) <= 31 /\
  (NoDup (Kotlin.collectCoefficients m1) -> setBits (hashBits lt m1) = 31) /\
  (forall platform1 platform2 native : bool,
     exists (h1 h2 : string) (d : Z),
       hashOnPlatform lt platform1 m1 = Ret h1 /\
       hashOnPlatform lt platform2 m2 = Ret h2 /\
       Web.calculateHammingDistance native h1 h2 = Ret d /\
       0 <= d <= 62).
Proof.
  split; [by apply setBits_hashBits_le|].
  split; [by apply setBits_hashBits_distinct|].
  intros p1 p2 native. rewrite !hashOnPlatform_bits.
  do 3 eexists. split; [reflexivity|]. split; [reflexivity|].
  rewrite calculateHammingDistance_spec.
  rewrite !encoded_length by apply hashBits_length. simpl.
  split; [reflexivity|]. split; [apply digitDistance_range|].
  etransitivity.
  - apply (digitDistance_triangle _ "0000000000000000");
      by rewrite encoded_length by apply hashBits_length.
  - rewrite (digitDistance_sym "0000000000000000").
    rewrite !weight_against_zero by apply hashBits_length.
    pose proof (setBits_hashBits_le lt lt_irrefl lt_trans lt_total m1).
    pose proof (setBits_hashBits_le lt lt_irrefl lt_trans lt_total m2).
    lia.
Qed.

Lemma fingerprint_weight_witness :
  setBits (hashBits Z.lt lastCoefficientOnly) <= 31 /\
  setBits (hashBits Z.lt rampCoefficients) = 31.
Proof.
  split.
  - apply (fingerprint_weight Z Z.lt _ Z.lt_irrefl Z.lt_trans
             ltac:(intros; lia) lastCoefficientOnly lastCoefficientOnly).
  - apply (fingerprint_weight Z Z.lt _ Z.lt_irrefl Z.lt_trans
             ltac:(intros; lia) rampCoefficients lastCoefficientOnly).
    apply (bool_decide_unpack _). vm_compute. exact I.
Defined.

(** ** The fingerprint depends on the order of the coefficients only *)

Section OrderOnly.
Context {C C' : Type} (lt : C -> C -> Prop) (lt' : C' -> C' -> Prop)
  `{!RelDecision lt} `{!RelDecision lt'}.
Context (lt_irrefl : forall x, ~ lt' x x).
Context (lt_trans : forall x y z, lt' x y -> lt' y z -> lt' x z).
Context (lt_total : forall x y, lt' x y \/ x = y \/ lt' y x).
Context (f : C -> C') (f_mono : forall a b, lt' (f a) (f b) <-> lt a b).

Lemma ascending_total_pre : Total (ascending lt).
Proof.
  intros x y. unfold ascending. destruct (decide (lt y x)) as [Hyx|]; [|by left].
  right. intros Hxy. apply f_mono in Hyx, Hxy.
  by apply (lt_irrefl (f x)), (lt_trans _ (f y)).
Qed.

Lemma Sorted_map_mono (l : list C) :
  Sorted (ascending lt) l -> Sorted (ascending lt') (map f l).
Proof.
  induction 1 as [|x l HS IH Hhd]; simpl; constructor; [done|].
  destruct Hhd as [|y l Hxy]; simpl; constructor.
  unfold ascending in *. by rewrite f_mono.
Qed.

Lemma merge_sort_map_mono (l : list C) :
  merge_sort (ascending lt') (map f l) = map f (merge_sort (ascending lt) l).
Proof.
  pose proof ascending_total_pre.
  pose proof (ascending_total_of lt' lt_irrefl lt_trans).
  pose proof (ascending_trans_of lt' lt_trans lt_total).
  pose proof (ascending_antisymm_of lt' lt_total).
  apply (Sorted_unique (ascending lt')).
  - apply (Sorted_merge_sort (ascending lt')).
  - apply Sorted_map_mono, (Sorted_merge_sort (ascending lt)).
  - rewrite merge_sort_Permutation.
    apply Permutation_map. symmetry. apply merge_sort_Permutation.
Qed.

Lemma hashBits_mono (m : nat -> nat -> C) (m' : nat -> nat -> C') :
  (forall i j, (i < 8)%nat -> (j < 8)%nat -> (i, j) <> (0, 0)%nat ->
     m' i j = f (m i j)) ->
  hashBits lt' m' = hashBits lt m.
Proof.
  intros Hm.
  assert (Kotlin.collectCoefficients m' = map f (Kotlin.collectCoefficients m))
    as Hc.
  { rewrite !collect_as_map, map_map. apply map_ext_in.
    intros [i j] Hij%list_elem_of_In.
    destruct (coefficientIndices_range _ Hij) as [Hi Hj]. simpl in *.
    apply Hm; [done|done|]. intros [= -> ->].
    revert Hij. change ((0, 0)%nat ∉ coefficientIndices).
    apply (bool_decide_unpack _). vm_compute. exact I. }
  unfold hashBits. cbv zeta. rewrite Hc, merge_sort_map_mono.
  rewrite length_map, list_lookup_fmap.
  destruct (median_exists lt m) as [median ->].
  cbn [fmap option_fmap option_map]. rewrite map_map. apply map_ext. intros c.
  apply bool_decide_ext, f_mono.
Qed.

End OrderOnly.

(** X7.  The fingerprint depends only on the relative order of the 63
    collected coefficients: the coefficient at [0][0] and those outside
    the 8x8 block play no part, and replacing every coefficient [c] by
    [f c] for an order-preserving [f] leaves the fingerprint of either
    platform unchanged. *)
Theorem fingerprint_depends_on_order_only
    (C C' : Type) (lt : C -> C -> Prop) (lt' : C' -> C' -> Prop)
    (dec : RelDecision lt) (dec' : RelDecision lt')
    (lt_irrefl : forall x, ~ lt' x x)
    (lt_trans : forall x y z, lt' x y -> lt' y z -> lt' x z)
    (lt_total : forall x y, lt' x y \/ x = y \/ lt' y x)
    (f : C -> C') (f_mono : forall a b, lt' (f a) (f b) <-> lt a b)
    (m : nat -> nat -> C) (m' : nat -> nat -> C')
    (related : forall i j, (i < 8)%nat -> (j < 8)%nat -> (i, j) <> (0, 0)%nat ->
                 m' i j = f (m i j)) :
  Kotlin.generateHashFromDCT lt' m' = Kotlin.generateHashFromDCT lt m /\
  Web.generateHashFromDCT lt' m' = Web.generateHashFromDCT lt m.
Proof.
  rewrite !kotlin_generate_bits, !web_generate_bits.
  by rewrite (hashBits_mono lt lt' lt_irrefl lt_trans lt_total f f_mono m m').
Qed.

Lemma fingerprint_depends_on_order_only_witness :
  Kotlin.generateHashFromDCT Z.lt
    (fun i j => if (i + j =? 0)%nat then 1000 else 2 * rampCoefficients i j + 1)
  = Kotlin.generateHashFromDCT Z.lt rampCoefficients /\
  Web.generateHashFromDCT Z.lt
    (fun i j => if (i + j =? 0)%nat then 1000 else 2 * rampCoefficients i j + 1)
  = Web.generateHashFromDCT Z.lt rampCoefficients.
Proof.
  apply (fingerprint_depends_on_order_only Z Z Z.lt Z.lt _ _
           Z.lt_irrefl Z.lt_trans ltac:(intros; lia)
           (fun c => 2 * c + 1) ltac:(intros; cbv beta; lia)).
  intros i j _ _ Hij.
  destruct i, j; try reflexivity. by destruct Hij.
Defined.

(** ** Grayscale conversion *)

Section Grayscale.

Lemma land_255 (x : Z) : Z.land x 255 = x mod 256.
Proof. change 255 with (Z.ones 8). by rewrite Z.land_ones by lia. Qed.

Lemma channel_range (x : Z) : 0 <= Z.land x 255 < 256.
Proof. rewrite land_255. apply Z.mod_pos_bound. lia. Qed.

Lemma argbPixel_channels (r g b a : Z) :
  isByte r -> isByte g -> isByte b -> isByte a ->
  Z.land (Z.shiftr (argbPixel r g b a) 16) 255 = r /\
  Z.land (Z.shiftr (argbPixel r g b a) 8) 255 = g /\
  Z.land (argbPixel r g b a) 255 = b.
Proof.
  unfold isByte, argbPixel. intros Hr Hg Hb Ha.
  rewrite !land_255, !Z.shiftr_div_pow2 by lia.
  change (2 ^ 24) with 16777216. change (2 ^ 16) with 65536.
  change (2 ^ 8) with 256. change (2 ^ 31) with 2147483648.
  change (2 ^ 32) with 4294967296.
  destruct (_ <? _); repeat split; Z.div_mod_to_equations; lia.
Qed.

Lemma luminance_range (r g b : Z) :
  0 <= r < 256 -> 0 <= g < 256 -> 0 <= b < 256 ->
  (0 <= 0.299 * IZR r + 0.587 * IZR g + 0.114 * IZR b <= 255)%R.
Proof.
  intros Hr Hg Hb.
  assert (forall x, 0 <= x < 256 -> (0 <= IZR x <= 255)%R) as H.
  { intros x [H0 H1]. split; [by apply IZR_le|]. apply IZR_le. lia. }
  pose proof (H r Hr). pose proof (H g Hg). pose proof (H b Hb). Lra.lra.
Qed.

Lemma grayscale_agree (data : list Z) :
  Forall isByte data ->
  Kotlin.convertToGrayscale (argbPixels data) = Web.grayscaleOf data.
Proof.
  induction data as [|short Hshort|r g b a rest IH] using list_ind4.
  - reflexivity.
  - by destruct (short_cases short Hshort) as [(?&->)|[(?&?&->)|(?&?&?&->)]].
  - intros H. apply Forall_cons in H as [Hr H]. apply Forall_cons in H as [Hg H].
    apply Forall_cons in H as [Hb H]. apply Forall_cons in H as [Ha H].
    cbn [argbPixels Web.grayscaleOf]. unfold Kotlin.convertToGrayscale in *.
    cbn [map]. rewrite (IH H). cbv zeta.
    by destruct (argbPixel_channels r g b a Hr Hg Hb Ha) as (-> & -> & ->).
Qed.

Lemma web_grayscale_length (data : list Z) (n : nat) :
  length data = (4 * n)%nat -> length (Web.grayscaleOf data) = n.
Proof.
  revert n. induction data as [|short Hshort|r g b a rest IH] using list_ind4;
    intros n Hn.
  - simpl in *. lia.
  - lia.
  - cbn [Web.grayscaleOf length] in *. destruct n as [|n]; [lia|].
    rewrite (IH n); lia.
Qed.

End Grayscale.

(** X8.  [convertToGrayscale] returns one luminance per pixel, each
    between 0 and 255, and ignores the alpha byte.  On the bytes of an
    image the web loop returns one luminance per group of four bytes, the
    same luminances as the native conversion applied to the bitmap pixels
    holding these bytes. *)
Theorem grayscale_conversions (pixels data : list Z) (n : nat)
    (bytes : Forall isByte data) (complete : length data = (4 * n)%nat) :
  length (Kotlin.convertToGrayscale pixels) = length pixels /\
  Forall (fun gray => (0 <= gray <= 255)%R) (Kotlin.convertToGrayscale pixels) /\
  length (Web.grayscaleOf data) = n /\
  Kotlin.convertToGrayscale (argbPixels data) = Web.grayscaleOf data.
Proof.
  split; [apply length_map|]. split.
  { unfold Kotlin.convertToGrayscale. apply Forall_map, Forall_forall.
    intros pixel _. cbv zeta. apply luminance_range; apply channel_range. }
  split; [by apply web_grayscale_length|].
  by apply grayscale_agree.
Qed.

Lemma grayscale_conversions_witness :
  Kotlin.convertToGrayscale (argbPixels [255; 0; 0; 255; 0; 0; 255; 128])
  = Web.grayscaleOf [255; 0; 0; 255; 0; 0; 255; 128].
Proof.
  apply (grayscale_conversions [] [255; 0; 0; 255; 0; 0; 255; 128] 2).
  - repeat constructor; unfold isByte; lia.
  - reflexivity.
Defined.

(** ** The overlap measures *)

Section Overlaps.
Import MatchDeduplicator.

Lemma calculatePhotoOverlap_sym (a b : MatchResult) :
  calculatePhotoOverlap a b = calculatePhotoOverlap b a.
Proof.
  rewrite !calculatePhotoOverlap_sets.
  by rewrite (comm_L (∩) (photoIdSet a)), (comm_L (∪) (photoIdSet a)).
Qed.

Lemma ratio_range (n d : nat) : (n <= d)%nat -> (0 <= ratio n d <= 1)%Q.
Proof.
  intros Hnd. unfold ratio. destruct d as [|d].
  - assert (n = 0%nat) as -> by lia. by vm_compute.
  - assert (0 < inject_Z (Z.of_nat (S d)))%Q as Hd
      by (apply inject_Z_pos; lia).
    split.
    + apply Qle_shift_div_l; [exact Hd|]. rewrite Qmult_0_l.
      rewrite <- (Zle_Qle 0). lia.
    + apply Qle_shift_div_r; [exact Hd|]. rewrite Qmult_1_l.
      rewrite <- Zle_Qle. lia.
Qed.

Lemma Qdiv_eq_iff (a b c : Q) : ~ (c == 0)%Q -> (a / c == b <-> a == b * c)%Q.
Proof.
  intros Hc. split; intros H.
  - rewrite <- H. field. exact Hc.
  - rewrite H. field. exact Hc.
Qed.

Lemma inject_Z_nonzero (d : nat) : ~ (inject_Z (Z.of_nat (S d)) == 0)%Q.
Proof. unfold Qeq. simpl. lia. Qed.

Lemma ratio_one (n d : nat) : (n <= d)%nat ->
  (ratio n d == 1)%Q <-> n = d /\ d <> 0%nat.
Proof.
  intros Hnd. unfold ratio. destruct d as [|d].
  - assert (n = 0%nat) as -> by lia. split; [by vm_compute|]. by intros [_ ?].
  - rewrite Qdiv_eq_iff by apply inject_Z_nonzero.
    unfold Qeq. simpl. lia.
Qed.

Lemma ratio_zero (n d : nat) : (n <= d)%nat ->
  (ratio n d == 0)%Q <-> n = 0%nat.
Proof.
  intros Hnd. unfold ratio. destruct d as [|d].
  - assert (n = 0%nat) as -> by lia. split; [done | by vm_compute].
  - rewrite Qdiv_eq_iff by apply inject_Z_nonzero.
    unfold Qeq. simpl. lia.
Qed.

Lemma overlap_sizes (a b : MatchResult) :
  (size (photoIdSet a ∩ photoIdSet b) <= size (photoIdSet a ∪ photoIdSet b))%nat.
Proof. apply subseteq_size. set_solver. Qed.

Lemma calculateTimeOverlap_sym (a b : MatchResult) :
  calculateTimeOverlap a b = calculateTimeOverlap b a.
Proof.
  unfold calculateTimeOverlap. cbv zeta.
  by rewrite (Z.max_comm (start (timeWindow b))),
    (Z.min_comm (end_ (timeWindow b))),
    (Z.max_comm (end_ (timeWindow b))),
    (Z.min_comm (start (timeWindow b))).
Qed.

Lemma calculateTimeOverlap_range (a b : MatchResult) :
  (0 <= calculateTimeOverlap a b <= 1)%Q.
Proof.
  unfold calculateTimeOverlap. cbv zeta.
  destruct (Z.geb_spec (Z.max (start (timeWindow a)) (start (timeWindow b)))
              (Z.min (end_ (timeWindow a)) (end_ (timeWindow b)))) as [|Hlt];
    [by vm_compute|].
  assert (0 < inject_Z (Z.max (end_ (timeWindow a)) (end_ (timeWindow b))
                        - Z.min (start (timeWindow a)) (start (timeWindow b))))%Q
    as Hd by (apply inject_Z_pos; lia).
  split.
  - apply Qle_shift_div_l; [exact Hd|]. rewrite Qmult_0_l.
    rewrite <- (Zle_Qle 0). lia.
  - apply Qle_shift_div_r; [exact Hd|]. rewrite Qmult_1_l.
    rewrite <- Zle_Qle. lia.
Qed.

Lemma significantOverlap_sym (a b : MatchResult) :
  significantOverlap a b = significantOverlap b a.
Proof.
  unfold significantOverlap. cbv zeta.
  by rewrite (calculatePhotoOverlap_sym a b), (calculateTimeOverlap_sym a b).
Qed.

End Overlaps.

(** X10.  Both overlap measures are symmetric, so the test that drops a
    candidate for significant overlap does not depend on the order of the
    two candidates, and the time overlap lies between 0 and 1.  When one of
    the two candidates has a photo, the photo overlap lies between 0 and
    1; it is 1 exactly for equal photo-id sets and 0 exactly for disjoint
    ones. *)
Theorem overlap_measures (a b : MatchResult) :
  MatchDeduplicator.calculatePhotoOverlap a b
  = MatchDeduplicator.calculatePhotoOverlap b a /\
  MatchDeduplicator.calculateTimeOverlap a b
  = MatchDeduplicator.calculateTimeOverlap b a /\
  MatchDeduplicator.significantOverlap a b
  = MatchDeduplicator.significantOverlap b a /\
  (0 <= MatchDeduplicator.calculateTimeOverlap a b <= 1)%Q /\
  (photos a <> [] \/ photos b <> [] ->
   (0 <= MatchDeduplicator.calculatePhotoOverlap a b <= 1)%Q /\
   ((MatchDeduplicator.calculatePhotoOverlap a b == 1)%Q
    <-> photoIdSet a = photoIdSet b) /\
   ((MatchDeduplicator.calculatePhotoOverlap a b == 0)%Q
    <-> photoIdSet a ## photoIdSet b)).
Proof.
  split; [apply calculatePhotoOverlap_sym|].
  split; [apply calculateTimeOverlap_sym|].
  split; [apply significantOverlap_sym|].
  split; [apply calculateTimeOverlap_range|].
  intros Hpop.
  assert (photoIdSet a ∪ photoIdSet b <> ∅) as Hne.
  { unfold photoIdSet.
    destruct Hpop as [H|H];
      [destruct (photos a) as [|p ps] | destruct (photos b) as [|p ps]];
      try done; simpl; set_solver. }
  rewrite calculatePhotoOverlap_sets.
  split; [apply ratio_range, overlap_sizes|].
  split.
  { rewrite ratio_one by apply overlap_sizes. split.
    - intros [Hsize _].
      assert (photoIdSet a ∩ photoIdSet b = photoIdSet a ∪ photoIdSet b) as E.
      { apply set_subseteq_size_eq; [set_solver|lia]. }
      apply set_eq. intros x. split; intros Hx.
      + assert (x ∈ photoIdSet a ∩ photoIdSet b) by (rewrite E; set_solver).
        set_solver.
      + assert (x ∈ photoIdSet a ∩ photoIdSet b) by (rewrite E; set_solver).
        set_solver.
    - intros E. rewrite <- E in Hne |- *.
      replace (photoIdSet a ∩ photoIdSet a) with (photoIdSet a) by set_solver.
      replace (photoIdSet a ∪ photoIdSet a) with (photoIdSet a) in Hne |- *
        by set_solver.
      split; [done|]. by rewrite size_empty_iff, leibniz_equiv_iff. }
  rewrite ratio_zero by apply overlap_sizes.
  rewrite size_empty_iff. set_solver.
Qed.

Lemma overlap_measures_witness :
  (0 <= MatchDeduplicator.calculatePhotoOverlap sharedA sharedB <= 1)%Q.
Proof.
  apply (overlap_measures sharedA sharedB). left. discriminate.
Defined.

(** ** Reciprocal removal by key *)

(** X31.  [removeReciprocalMatches] returns candidates of its input in
    their order, no two of them with the same key (the photo ids sorted
    and joined with ["|"]), and it keeps every candidate that is the first
    with its key.  On an input whose candidates list no photo id twice,
    the result of [deduplicateMatches] never contains two candidates with
    equal photo-id sets. *)
Theorem reciprocal_removal (matches : list MatchResult) :
  (MatchDeduplicator.removeReciprocalMatches matches `sublist_of` matches /\
   NoDup (map pairKeyOf (MatchDeduplicator.removeReciprocalMatches matches)) /\
   (forall l1 m l2, matches = l1 ++ m :: l2 ->
      (forall x, x ∈ l1 -> pairKeyOf x <> pairKeyOf m) ->
      m ∈ MatchDeduplicator.removeReciprocalMatches matches)) /\
  ((forall m, m ∈ matches -> NoDup (map photo_id (photos m))) ->
   NoDup (map photoIdSet (MatchDeduplicator.deduplicateMatches matches))).
Proof.
  split; [apply removeReciprocalMatches_invariant|].
  intros Hnd.
  destruct (Nat.leb_spec (length matches) 1) as [H|H].
  - rewrite deduplicateMatches_short by assumption.
    apply short_list_cases in H as [->|[x ->]]; simpl;
      [constructor | apply NoDup_singleton].
  - eapply NoDup_map_coarser; [|by apply deduplicateMatches_keys].
    intros a b Ha Hb. apply pairKeyOf_same_set; apply Hnd.
    + eapply elem_of_submseteq; [exact Ha | apply deduplicateMatches_submseteq].
    + eapply elem_of_submseteq; [exact Hb | apply deduplicateMatches_submseteq].
Qed.

Lemma reciprocal_removal_witness :
  NoDup (map photoIdSet
           (MatchDeduplicator.deduplicateMatches [groupG1; groupG2; groupG2])).
Proof.
  apply (proj2 (reciprocal_removal [groupG1; groupG2; groupG2])).
  intros m Hm. apply list_elem_of_In in Hm. simpl in Hm.
  destruct Hm as [<-|[<-|[<-|[]]]]; simpl;
    repeat (apply NoDup_cons; split; [set_solver|]); apply NoDup_nil_2.
Defined.

(** ** Subset removal in closed form *)

Section MaximalCandidates.
Import MatchDeduplicator.

Lemma List_filter_filter {A : Type} (f g : A -> bool) (l : list A) :
  List.filter f (List.filter g l) = List.filter (fun x => g x && f x) l.
Proof.
  induction l as [|x l IH]; simpl; [reflexivity|].
  destruct (g x); simpl; [destruct (f x)|]; by rewrite IH.
Qed.

Lemma isSubsetMatch_trans (a b c : MatchResult) :
  isSubsetMatch a b = true -> isSubsetMatch b c = true ->
  isSubsetMatch a c = true.
Proof. rewrite !isSubsetMatch_spec. set_solver. Qed.

Lemma isSubsetMatch_covered (c y z : MatchResult) :
  isSubsetMatch c y = true -> photoIdSet y ⊆ photoIdSet z ->
  isSubsetMatch c z = true.
Proof. rewrite !isSubsetMatch_spec. set_solver. Qed.

Lemma isSubsetMatch_irrefl (a : MatchResult) : isSubsetMatch a a = false.
Proof. apply isSubsetMatch_false. set_solver. Qed.

Lemma subsetStep_maximal (seen acc : list MatchResult) (c : MatchResult) :
  acc = List.filter (isMaximalIn seen) seen ->
  (forall x, x ∈ seen -> coveredBy x acc) ->
  subsetStep acc c = List.filter (isMaximalIn (seen ++ [c])) (seen ++ [c]).
Proof.
  intros Hacc Hcov.
  assert (forall x, isMaximalIn (seen ++ [c]) x
                    = isMaximalIn seen x && negb (isSubsetMatch x c)) as Hsplit.
  { intros x. unfold isMaximalIn. rewrite existsb_app. simpl.
    rewrite orb_false_r. by rewrite negb_orb. }
  rewrite subsetStep_alt, List.filter_app.
  destruct (existsb (fun accepted => isSubsetMatch c accepted) acc) eqn:E.
  - apply existsb_elem_of in E as (a0 & Ha0 & Hca).
    assert (a0 ∈ seen /\ isMaximalIn seen a0 = true) as [Ha0s Ha0m]
      by (rewrite Hacc in Ha0; by apply elem_of_List_filter in Ha0).
    assert (isMaximalIn (seen ++ [c]) c = false) as Hc.
    { rewrite Hsplit. unfold isMaximalIn.
      replace (existsb (isSubsetMatch c) seen) with true; [done|].
      symmetry. apply existsb_elem_of. eauto. }
    simpl. rewrite Hc, app_nil_r, Hacc.
    apply List.filter_ext_in. intros x Hx%list_elem_of_In. rewrite Hsplit.
    destruct (isMaximalIn seen x) eqn:Hm; [|done]. simpl.
    destruct (isSubsetMatch x c) eqn:Hxc; [|done]. exfalso.
    unfold isMaximalIn in Hm. apply negb_true_iff in Hm.
    rewrite existsb_false_elem_of in Hm.
    specialize (Hm a0 Ha0s). by rewrite (isSubsetMatch_trans x c a0) in Hm.
  - rewrite existsb_false_elem_of in E.
    assert (isMaximalIn (seen ++ [c]) c = true) as Hc.
    { rewrite Hsplit, isSubsetMatch_irrefl, andb_true_r.
      unfold isMaximalIn. apply negb_true_iff, existsb_false_elem_of.
      intros y Hy. destruct (isSubsetMatch c y) eqn:Hcy; [|done].
      destruct (Hcov y Hy) as (z & Hz & Hyz).
      by rewrite <- (E z Hz), (isSubsetMatch_covered c y z). }
    simpl. rewrite Hc. f_equal.
    rewrite Hacc, List_filter_filter.
    apply List.filter_ext. intros x. by rewrite Hsplit.
Qed.

Lemma fold_subsetStep_maximal (l : list MatchResult) :
  forall seen acc,
    acc = List.filter (isMaximalIn seen) seen ->
    (forall x, x ∈ seen -> coveredBy x acc) ->
    fold_left subsetStep l acc
    = List.filter (isMaximalIn (seen ++ l)) (seen ++ l).
Proof.
  induction l as [|c l IH]; intros seen acc Hacc Hcov.
  - by rewrite app_nil_r.
  - cbn [fold_left]. rewrite (IH (seen ++ [c])).
    + by rewrite <- app_assoc.
    + by apply subsetStep_maximal.
    + intros x Hx. apply subsetStep_covers.
      apply elem_of_app in Hx as [Hx| ->%list_elem_of_singleton]; auto.
Qed.

Lemma removeSubsetMatches_maximal (l : list MatchResult) :
  removeSubsetMatches l = List.filter (isMaximalIn l) l.
Proof.
  unfold removeSubsetMatches.
  rewrite (fold_subsetStep_maximal l [] []); [done|done|].
  intros x Hx. by apply elem_of_nil in Hx.
Qed.

End MaximalCandidates.

(** X11.  [removeSubsetMatches] returns, in the order of its input, exactly
    the candidates whose photo-id set is a strict subset of the photo-id
    set of no candidate of the input; every dropped candidate is contained
    in a kept one, and a second run changes nothing. *)
Theorem subset_removal_keeps_maximal (matches : list MatchResult) :
  MatchDeduplicator.removeSubsetMatches matches
  = List.filter (isMaximalIn matches) matches /\
  (forall x, x ∈ MatchDeduplicator.removeSubsetMatches matches <->
     x ∈ matches /\ forall y, y ∈ matches -> ~ photoIdSet x ⊂ photoIdSet y) /\
  (forall x, x ∈ matches ->
     coveredBy x (MatchDeduplicator.removeSubsetMatches matches)) /\
  MatchDeduplicator.removeSubsetMatches
    (MatchDeduplicator.removeSubsetMatches matches)
  = MatchDeduplicator.removeSubsetMatches matches.
Proof.
  split; [apply removeSubsetMatches_maximal|]. split.
  { intros x. rewrite removeSubsetMatches_maximal, elem_of_List_filter.
    unfold isMaximalIn. rewrite negb_true_iff, existsb_false_elem_of.
    split; intros [Hx H]; (split; [done|]); intros y Hy.
    - by apply isSubsetMatch_false, H.
    - by apply isSubsetMatch_false, H. }
  split; [apply removeSubsetMatches_invariant|].
  unfold MatchDeduplicator.removeSubsetMatches at 1.
  rewrite fold_subsetStep_fix; [done|]. simpl.
  apply removeSubsetMatches_invariant.
Qed.

(** ** Clusters and their representatives *)

Section ClusterShape.
Import MatchDeduplicator.
Variable matches : list MatchResult.

Lemma fold_clusterInner_shape (m : MatchResult) (l : list MatchResult) :
  forall cluster processed,
  exists extra,
    fold_left (clusterInner m) l (cluster, processed)
    = (cluster ++ extra, list_to_set (map match_id extra) ∪ processed) /\
    forall x, x ∈ extra -> (3 # 10 < calculatePhotoOverlap m x)%Q.
Proof.
  induction l as [|o l IH]; intros cluster processed.
  - exists []. rewrite app_nil_r. simpl. split; [|by intros x Hx%elem_of_nil].
    f_equal. set_solver.
  - cbn [fold_left]. unfold clusterInner at 2.
    destruct (bool_decide (match_id o ∈ processed)); [apply IH|].
    destruct (Qgtb _ _) eqn:E; [|apply IH].
    destruct (IH (cluster ++ [o]) ({[ match_id o ]} ∪ processed))
      as (extra & -> & Hextra).
    exists (o :: extra). split.
    + rewrite <- app_assoc. simpl. f_equal. set_solver.
    + intros x [->|Hx]%elem_of_cons; [by apply Qgtb_true | auto].
Qed.

Lemma clusterOuter_cases (clusters : list (list MatchResult))
    (processed : gset string) (m : MatchResult) :
  (clusterOuter matches (clusters, processed) m = (clusters, processed)
   /\ match_id m ∈ processed) \/
  (exists extra,
     clusterOuter matches (clusters, processed) m
     = (clusters ++ [m :: extra],
        list_to_set (map match_id extra) ∪ ({[ match_id m ]} ∪ processed))
     /\ (match_id m ∉ processed)
     /\ forall x, x ∈ extra -> (3 # 10 < calculatePhotoOverlap m x)%Q).
Proof.
  unfold clusterOuter.
  destruct (bool_decide (match_id m ∈ processed)) eqn:E.
  - left. by apply bool_decide_eq_true in E.
  - right. apply bool_decide_eq_false in E.
    destruct (fold_clusterInner_shape m matches [m]
                ({[ match_id m ]} ∪ processed)) as (extra & -> & Hextra).
    by exists extra.
Qed.

Lemma fold_clusterOuter_shape (l : list MatchResult) :
  forall clusters processed,
    processed = list_to_set (map match_id (concat clusters)) ->
    Forall seededCluster clusters ->
    snd (fold_left (clusterOuter matches) l (clusters, processed))
    = list_to_set
        (map match_id
           (concat (fst (fold_left (clusterOuter matches) l (clusters, processed)))))
    /\ Forall seededCluster
         (fst (fold_left (clusterOuter matches) l (clusters, processed)))
    /\ (forall x, x ∈ l ->
          match_id x
          ∈ snd (fold_left (clusterOuter matches) l (clusters, processed)))
    /\ processed ⊆ snd (fold_left (clusterOuter matches) l (clusters, processed))
    /\ (length clusters
        <= length (fst (fold_left (clusterOuter matches) l (clusters, processed))))%nat.
Proof.
  induction l as [|m l IH]; intros clusters processed Hp Hgood.
  - simpl. split; [done|]. split; [done|].
    split; [by intros x Hx%elem_of_nil | done].
  - cbn [fold_left].
    destruct (clusterOuter_cases clusters processed m)
      as [[-> E]|(extra & -> & E & Hextra)].
    + destruct (IH clusters processed Hp Hgood) as (H1 & H2 & H3 & H4 & H5).
      split; [exact H1|]. split; [exact H2|].
      split; [|split; [exact H4 | exact H5]].
      intros x [->|Hx]%elem_of_cons; [by apply H4 | by apply H3].
    + destruct (IH (clusters ++ [m :: extra])
                  (list_to_set (map match_id extra)
                   ∪ ({[ match_id m ]} ∪ processed)))
        as (H1 & H2 & H3 & H4 & H5).
      * rewrite concat_app, map_app, list_to_set_app_L, <- Hp. simpl.
        rewrite app_nil_r. clear. set_solver.
      * apply Forall_app. split; [done|]. constructor; [|constructor].
        by exists m, extra.
      * split; [exact H1|]. split; [exact H2|]. split; [|split].
        -- intros x [->|Hx]%elem_of_cons; [|by apply H3].
           apply H4. clear. set_solver.
        -- etransitivity; [|exact H4]. clear. set_solver.
        -- rewrite length_app in H5. simpl in H5. lia.
Qed.

Lemma clusters_shape :
  Forall seededCluster (identifyPhotoClusters matches) /\
  (forall x, x ∈ matches ->
     match_id x ∈ map match_id (concat (identifyPhotoClusters matches))).
Proof.
  destruct (fold_clusterOuter_shape matches [] ∅) as (H1 & H2 & H3 & _);
    [done|constructor|].
  split; [exact H2|]. intros x Hx. specialize (H3 x Hx).
  rewrite H1 in H3. by apply elem_of_list_to_set in H3.
Qed.

Lemma NoDup_map_inj_on {A B : Type} (f : A -> B) (l : list A) (x y : A) :
  NoDup (map f l) -> x ∈ l -> y ∈ l -> f x = f y -> x = y.
Proof.
  induction l as [|z l IH]; simpl; [by intros _ Hx%elem_of_nil|].
  intros [Hz Hnd]%NoDup_cons [->|Hx]%elem_of_cons [->|Hy]%elem_of_cons E;
    [done| | |by apply IH].
  - exfalso. apply Hz. rewrite E. apply list_elem_of_In, in_map.
    by apply list_elem_of_In.
  - exfalso. apply Hz. rewrite <- E. apply list_elem_of_In, in_map.
    by apply list_elem_of_In.
Qed.

Lemma clusters_partition_of :
  NoDup (map match_id matches) ->
  concat (identifyPhotoClusters matches) ≡ₚ matches.
Proof.
  intros Hnd.
  destruct (fold_clusterOuter_placed matches matches [] ∅ (fun x H => H))
    as (Hnd' & Hin & _).
  { repeat split; simpl; [constructor | intros x Hx; by apply elem_of_nil in Hx ..]. }
  apply NoDup_Permutation.
  - eapply NoDup_fmap_1, Hnd'.
  - eapply NoDup_fmap_1, Hnd.
  - intros x. split; [apply Hin|]. intros Hx.
    destruct clusters_shape as [_ Hcov].
    pose proof (Hcov x Hx) as Hy. apply list_elem_of_In, in_map_iff in Hy.
    destruct Hy as (y & Hid & Hy%list_elem_of_In).
    by rewrite <- (NoDup_map_inj_on match_id matches y x Hnd (Hin y Hy) Hx Hid).
Qed.

End ClusterShape.

Section Representatives.
Import MatchDeduplicator.

Lemma betterMatch_score (best current : MatchResult) :
  (matchScore best <= matchScore (betterMatch best current))%Q /\
  (matchScore current <= matchScore (betterMatch best current))%Q.
Proof.
  unfold betterMatch. cbv zeta. fold (matchScore best) (matchScore current).
  destruct (Qgtb (matchScore current) (matchScore best)) eqn:E.
  - apply Qgtb_true in E. split; [by apply Qlt_le_weak | apply Qle_refl].
  - apply Qgtb_false in E. split; [apply Qle_refl | done].
Qed.

Lemma fold_betterMatch_best (rest : list MatchResult) :
  forall first x, x ∈ first :: rest ->
    (matchScore x <= matchScore (fold_left betterMatch rest first))%Q.
Proof.
  induction rest as [|c rest IH]; intros first x Hx; simpl.
  - apply list_elem_of_singleton in Hx as ->. apply Qle_refl.
  - destruct (betterMatch_score first c) as [H1 H2].
    apply elem_of_cons in Hx as [->|[->|Hx]%elem_of_cons].
    + eapply Qle_trans; [exact H1|]. apply IH. left.
    + eapply Qle_trans; [exact H2|]. apply IH. left.
    + apply IH. by right.
Qed.

Lemma representative_best (cluster : list MatchResult) :
  cluster <> [] ->
  exists r, representative cluster = [r] /\ r ∈ cluster /\
    forall x, x ∈ cluster -> (matchScore x <= matchScore r)%Q.
Proof.
  destruct cluster as [|first [|second rest]]; [done|..]; intros _.
  - exists first. split; [done|]. split; [left|].
    intros x ->%list_elem_of_singleton. apply Qle_refl.
  - exists (fold_left betterMatch (second :: rest) first).
    split; [done|]. split; [apply fold_betterMatch_elem|].
    apply fold_betterMatch_best.
Qed.

Lemma representatives_best (clusters : list (list MatchResult)) :
  Forall seededCluster clusters ->
  length (flat_map representative clusters) = length clusters /\
  (forall r, r ∈ flat_map representative clusters ->
     exists cluster, cluster ∈ clusters /\ r ∈ cluster /\
       forall x, x ∈ cluster -> (matchScore x <= matchScore r)%Q) /\
  (forall cluster, cluster ∈ clusters ->
     exists r, r ∈ flat_map representative clusters /\ r ∈ cluster /\
       forall x, x ∈ cluster -> (matchScore x <= matchScore r)%Q).
Proof.
  induction 1 as [|c cs (seed & rest & -> & _) _ (IH1 & IH2 & IH3)];
    cbn [flat_map].
  { split; [done|]. split; [by intros r Hr%elem_of_nil
                           | by intros c Hc%elem_of_nil]. }
  destruct (representative_best (seed :: rest)) as (r & Hr & Hin & Hbest);
    [done|].
  rewrite Hr. simpl. split; [by rewrite IH1|]. split.
  - intros r' [->|Hr']%elem_of_cons.
    + exists (seed :: rest). split; [left | done].
    + destruct (IH2 r' Hr') as (c & Hc & H). exists c. split; [by right | done].
  - intros c [->|Hc]%elem_of_cons.
    + exists r. split; [left | done].
    + destruct (IH3 c Hc) as (r' & Hr' & H). exists r'. split; [by right | done].
Qed.

End Representatives.

(** X12.  When the match ids are pairwise distinct, [identifyPhotoClusters]
    partitions its input: every match lies in exactly one cluster.  Each
    cluster starts with its seed, and every other member overlaps the seed
    by more than 30%. *)
Theorem clusters_partition (matches : list MatchResult)
    (distinct : NoDup (map match_id matches)) :
  concat (MatchDeduplicator.identifyPhotoClusters matches) ≡ₚ matches /\
  Forall seededCluster (MatchDeduplicator.identifyPhotoClusters matches).
Proof.
  split; [by apply clusters_partition_of | apply clusters_shape].
Qed.

Lemma clusters_partition_witness :
  concat (MatchDeduplicator.identifyPhotoClusters [chainA; chainB; chainC])
  ≡ₚ [chainA; chainB; chainC].
Proof.
  apply (clusters_partition [chainA; chainB; chainC]).
  apply (bool_decide_unpack _). vm_compute. exact I.
Defined.

(** X13.  For two or more matches [advancedDeduplication] returns one
    match per cluster, and the match returned for a cluster has the
    highest product of confidence and photo count among the members of
    that cluster. *)
Theorem representatives_maximise_score (matches : list MatchResult)
    (several : (1 < length matches)%nat) :
  length (MatchDeduplicator.advancedDeduplication matches)
  = length (MatchDeduplicator.identifyPhotoClusters matches) /\
  (forall r, r ∈ MatchDeduplicator.advancedDeduplication matches ->
     exists cluster,
       cluster ∈ MatchDeduplicator.identifyPhotoClusters matches /\
       r ∈ cluster /\
       forall x, x ∈ cluster -> (matchScore x <= matchScore r)%Q) /\
  (forall cluster, cluster ∈ MatchDeduplicator.identifyPhotoClusters matches ->
     exists r, r ∈ MatchDeduplicator.advancedDeduplication matches /\
       r ∈ cluster /\
       forall x, x ∈ cluster -> (matchScore x <= matchScore r)%Q).
Proof.
  unfold MatchDeduplicator.advancedDeduplication.
  destruct (Nat.leb_spec (length matches) 1) as [|_]; [lia|]. cbv zeta.
  destruct (representatives_best
              (MatchDeduplicator.identifyPhotoClusters matches))
    as (H1 & H2 & H3); [apply clusters_shape|].
  pose proof (stableSort_perm MatchDeduplicator.byConfidenceDesc
                (flat_map MatchDeduplicator.representative
                   (MatchDeduplicator.identifyPhotoClusters matches))) as Hperm.
  split; [by rewrite (Permutation_length Hperm)|]. split.
  - intros r Hr. apply H2. by rewrite <- Hperm.
  - intros c Hc. destruct (H3 c Hc) as (r & Hr & H).
    exists r. split; [by rewrite Hperm | done].
Qed.

Lemma representatives_maximise_score_witness :
  length (MatchDeduplicator.advancedDeduplication [chainA; chainB; chainC])
  = length (MatchDeduplicator.identifyPhotoClusters [chainA; chainB; chainC]).
Proof.
  apply (representatives_maximise_score [chainA; chainB; chainC]).
  simpl. lia.
Defined.

(** ** What survives the deduplication *)

Section Survivors.
Import MatchDeduplicator.

Lemma overlapFree_pairwise (l : list MatchResult) :
  overlapFree l ->
  forall i j a b, i <> j -> l !! i = Some a -> l !! j = Some b ->
    significantOverlap a b = false.
Proof.
  intros Hfree.
  assert (forall i j a b, (i < j)%nat -> l !! i = Some a -> l !! j = Some b ->
            significantOverlap b a = false) as Hlt.
  { intros i j a b Hij Ha Hb.
    pose proof (Hfree _ _ _ (eq_sym (take_drop_middle l j b Hb))) as H.
    rewrite existsb_false_elem_of in H. apply H.
    apply (list_elem_of_lookup_2 _ i). by rewrite lookup_take_lt. }
  intros i j a b Hij Ha Hb.
  destruct (Nat.lt_total i j) as [H|[H|H]]; [|done|].
  - rewrite significantOverlap_sym. by apply (Hlt i j).
  - by apply (Hlt j i).
Qed.

Lemma fold_temporalStep_head (l : list MatchResult) :
  forall x acc, exists r, fold_left temporalStep l (x :: acc) = x :: r.
Proof.
  induction l as [|c l IH]; intros x acc; [by exists acc|].
  cbn [fold_left].
  destruct (temporalStep_cases (x :: acc) c) as [[-> _]|[-> _]]; apply IH.
Qed.

Lemma fold_keepIfNewKey_head (l : list MatchResult) :
  forall x acc, exists r, fold_left keepIfNewKey l (x :: acc) = x :: r.
Proof.
  induction l as [|c l IH]; intros x acc; [by exists acc|].
  cbn [fold_left].
  destruct (keepIfNewKey_cases (x :: acc) c) as [[-> _]|[-> _]]; apply IH.
Qed.

Lemma removeTemporalOverlaps_head (x : MatchResult) (l : list MatchResult) :
  exists r, removeTemporalOverlaps (x :: l) = x :: r.
Proof. apply (fold_temporalStep_head l x []). Qed.

Lemma removeReciprocalMatches_head (x : MatchResult) (l : list MatchResult) :
  exists r, removeReciprocalMatches (x :: l) = x :: r.
Proof.
  rewrite removeReciprocalMatches_alt. apply (fold_keepIfNewKey_head l x []).
Qed.

Lemma removeSubsetMatches_nonempty (l : list MatchResult) :
  l <> [] -> removeSubsetMatches l <> [].
Proof.
  destruct l as [|x l]; [done|]. intros _ Hnil.
  destruct (removeSubsetMatches_invariant (x :: l)) as (_ & _ & Hcov).
  destruct (Hcov x) as (y & Hy & _); [left|].
  rewrite Hnil in Hy. by apply elem_of_nil in Hy.
Qed.

Lemma deduplicateMatches_nonempty (l : list MatchResult) :
  l <> [] -> deduplicateMatches l <> [].
Proof.
  intros Hl. destruct (Nat.leb_spec (length l) 1) as [H|H].
  - by rewrite deduplicateMatches_short.
  - rewrite deduplicateMatches_long by done.
    assert (stableSort byConfidenceDesc l <> []) as Hs.
    { intros E. pose proof (Permutation_length (stableSort_perm byConfidenceDesc l)) as P.
      rewrite E in P. simpl in P. lia. }
    apply removeSubsetMatches_nonempty in Hs.
    destruct (removeSubsetMatches _) as [|x k]; [done|].
    destruct (removeReciprocalMatches_head x k) as [r ->].
    by destruct (removeTemporalOverlaps_head x r) as [r' ->].
Qed.

Lemma advancedDeduplication_nonempty (l : list MatchResult) :
  l <> [] -> advancedDeduplication l <> [].
Proof.
  intros Hl. unfold advancedDeduplication.
  destruct (length l <=? 1)%nat; [done|]. cbv zeta.
  destruct (clusters_shape l) as [Hshape Hcov].
  destruct (representatives_best _ Hshape) as (Hlen & _ & _).
  intros E.
  pose proof (Permutation_length
                (stableSort_perm byConfidenceDesc
                   (flat_map representative (identifyPhotoClusters l)))) as P.
  rewrite E, Hlen in P. simpl in P.
  destruct l as [|x l]; [done|]. specialize (Hcov x ltac:(left)).
  destruct (identifyPhotoClusters (x :: l)); [|done].
  by apply elem_of_nil in Hcov.
Qed.

Lemma sorted_short (l : list MatchResult) :
  (length l <= 1)%nat -> Sorted (inOrder byConfidenceDesc) l.
Proof.
  intros H. destruct (short_list_cases l H) as [->|[x ->]]; repeat constructor.
Qed.

Lemma deduplicateMatches_sorted (l : list MatchResult) :
  Sorted (inOrder byConfidenceDesc) (deduplicateMatches l).
Proof.
  destruct (Nat.leb_spec (length l) 1) as [H|H].
  - rewrite deduplicateMatches_short by done. by apply sorted_short.
  - assert (Transitive (inOrder byConfidenceDesc)) as Htrans
      by (intros a b c; apply byConfidenceDesc_trans).
    apply StronglySorted_Sorted.
    eapply StronglySorted_sublist;
      [by apply deduplicateMatches_sublist_sorted|].
    apply Sorted_StronglySorted; [exact Htrans|].
    apply stableSort_sorted, byConfidenceDesc_total.
Qed.

Lemma advancedDeduplication_sorted (l : list MatchResult) :
  Sorted (inOrder byConfidenceDesc) l \/ (1 < length l)%nat ->
  Sorted (inOrder byConfidenceDesc) (advancedDeduplication l).
Proof.
  intros Hl. unfold advancedDeduplication.
  destruct (Nat.leb_spec (length l) 1) as [H|H].
  - destruct Hl; [done | lia].
  - apply stableSort_sorted, byConfidenceDesc_total.
Qed.

Lemma List_filter_Permutation {A : Type} (f : A -> bool) (l k : list A) :
  l ≡ₚ k -> List.filter f l ≡ₚ List.filter f k.
Proof.
  induction 1 as [|x l k _ IH|x y l|l k j _ IH1 _ IH2]; simpl.
  - done.
  - destruct (f x); [by constructor | done].
  - destruct (f x), (f y); try done. apply perm_swap.
  - by etransitivity.
Qed.

Lemma stableSort_arrival_order (l k : list MatchResult) :
  l ≡ₚ k ->
  (forall a b, a ∈ l -> b ∈ l -> (confidence a == confidence b)%Q -> a = b) ->
  stableSort byConfidenceDesc l = stableSort byConfidenceDesc k.
Proof.
  intros Hperm Hdistinct.
  assert (Transitive (inOrder byConfidenceDesc)) as Htrans
    by (intros a b c; apply byConfidenceDesc_trans).
  apply (Sorted_unique_strong (inOrder byConfidenceDesc)).
  - intros a b Ha Hb Hab Hba. apply Hdistinct.
    + by rewrite stableSort_perm in Ha.
    + by rewrite stableSort_perm, <- Hperm in Hb.
    + unfold inOrder, byConfidenceDesc in *.
      apply Qle_bool_iff in Hab, Hba. by apply Qle_antisym.
  - apply stableSort_sorted, byConfidenceDesc_total.
  - apply stableSort_sorted, byConfidenceDesc_total.
  - by rewrite !stableSort_perm.
Qed.

Lemma deduplicateMatches_arrival_order (l k : list MatchResult) :
  l ≡ₚ k ->
  (forall a b, a ∈ l -> b ∈ l -> (confidence a == confidence b)%Q -> a = b) ->
  deduplicateMatches l = deduplicateMatches k.
Proof.
  intros Hperm Hdistinct.
  pose proof (Permutation_length Hperm) as Hlen.
  destruct (Nat.leb_spec (length l) 1) as [H|H].
  - rewrite !deduplicateMatches_short by lia.
    destruct (short_list_cases l H) as [->|[x ->]].
    + by apply Permutation_nil in Hperm.
    + by apply Permutation_singleton_l in Hperm.
  - rewrite !deduplicateMatches_long by lia.
    by rewrite (stableSort_arrival_order l k).
Qed.

End Survivors.

(** X14.  No two results of [deduplicateMatches] overlap significantly:
    for two results at different positions it is not the case that their
    photo overlap exceeds 1/2 while their time windows overlap.  The same
    holds for the list returned by [removeTemporalOverlaps]. *)
Theorem survivors_do_not_overlap (matches : list MatchResult)
    (i j : nat) (a b : MatchResult) (different : i <> j) :
  (MatchDeduplicator.removeTemporalOverlaps matches !! i = Some a ->
   MatchDeduplicator.removeTemporalOverlaps matches !! j = Some b ->
   ~ ((1 # 2 < MatchDeduplicator.calculatePhotoOverlap a b)%Q /\
      (0 < MatchDeduplicator.calculateTimeOverlap a b)%Q)) /\
  (MatchDeduplicator.deduplicateMatches matches !! i = Some a ->
   MatchDeduplicator.deduplicateMatches matches !! j = Some b ->
   ~ ((1 # 2 < MatchDeduplicator.calculatePhotoOverlap a b)%Q /\
      (0 < MatchDeduplicator.calculateTimeOverlap a b)%Q)).
Proof.
  assert (forall l, overlapFree l -> l !! i = Some a -> l !! j = Some b ->
            ~ ((1 # 2 < MatchDeduplicator.calculatePhotoOverlap a b)%Q /\
               (0 < MatchDeduplicator.calculateTimeOverlap a b)%Q)) as H.
  { intros l Hfree Ha Hb Hov. apply significantOverlap_spec in Hov.
    by rewrite (overlapFree_pairwise l Hfree i j a b) in Hov. }
  split; [apply H, removeTemporalOverlaps_invariant|].
  destruct (Nat.leb_spec (length matches) 1) as [Hs|Hs].
  - rewrite deduplicateMatches_short by done. intros Ha Hb.
    apply lookup_lt_Some in Ha, Hb. lia.
  - rewrite deduplicateMatches_long by done.
    apply H, removeTemporalOverlaps_invariant.
Qed.

Lemma survivors_do_not_overlap_witness :
  ~ ((1 # 2 < MatchDeduplicator.calculatePhotoOverlap sharedA sharedB)%Q /\
     (0 < MatchDeduplicator.calculateTimeOverlap sharedA sharedB)%Q).
Proof.
  apply (proj1 (survivors_do_not_overlap [sharedA; sharedB] 0 1
                  sharedA sharedB ltac:(lia)));
    vm_compute; reflexivity.
Defined.

(** X15.  The pass returns its results by descending confidence, and it
    returns no result only when no candidate passes the validity filter:
    neither [deduplicateMatches] nor [advancedDeduplication] turns a
    non-empty list into an empty one. *)
Theorem pass_sorted_and_nonempty (rawMatches : list MatchResult) :
  Sorted (fun a b => (confidence b <= confidence a)%Q)
         (processMatchesWithDeduplication rawMatches) /\
  Sorted (fun a b => (confidence b <= confidence a)%Q)
         (MatchDeduplicator.deduplicateMatches rawMatches) /\
  (processMatchesWithDeduplication rawMatches = []
   <-> MatchDeduplicator.validateAndCleanMatches rawMatches = []) /\
  (rawMatches <> [] ->
   MatchDeduplicator.deduplicateMatches rawMatches <> [] /\
   MatchDeduplicator.advancedDeduplication rawMatches <> []).
Proof.
  assert (forall l, Sorted (inOrder MatchDeduplicator.byConfidenceDesc) l ->
            Sorted (fun a b => (confidence b <= confidence a)%Q) l) as Hw.
  { intros l. apply Sorted_weaken. intros a b H. by apply Qle_bool_iff. }
  split; [|split; [apply Hw, deduplicateMatches_sorted|split]].
  - apply Hw, advancedDeduplication_sorted. left.
    apply deduplicateMatches_sorted.
  - unfold processMatchesWithDeduplication. cbv zeta. split.
    + intros E.
      destruct (MatchDeduplicator.validateAndCleanMatches rawMatches) eqn:V;
        [done|]. exfalso. revert E.
      by apply advancedDeduplication_nonempty, deduplicateMatches_nonempty.
    + by intros ->.
  - intros H. split; [by apply deduplicateMatches_nonempty
                     | by apply advancedDeduplication_nonempty].
Qed.

Lemma pass_sorted_and_nonempty_witness :
  MatchDeduplicator.deduplicateMatches [chainA; chainB; chainC] <> [] /\
  MatchDeduplicator.advancedDeduplication [chainA; chainB; chainC] <> [].
Proof.
  apply (pass_sorted_and_nonempty [chainA; chainB; chainC]). discriminate.
Defined.

(** X29.  The result does not depend on the order in which the candidates
    arrive, as long as no two different candidates have the same
    confidence: on two lists with the same candidates [deduplicateMatches]
    returns the same list, and so does the whole pass. *)
Theorem arrival_order_is_irrelevant (matches reordered : list MatchResult)
    (same : matches ≡ₚ reordered)
    (distinct : forall a b, a ∈ matches -> b ∈ matches ->
                  (confidence a == confidence b)%Q -> a = b) :
  MatchDeduplicator.deduplicateMatches matches
  = MatchDeduplicator.deduplicateMatches reordered /\
  processMatchesWithDeduplication matches
  = processMatchesWithDeduplication reordered.
Proof.
  split; [by apply deduplicateMatches_arrival_order|].
  unfold processMatchesWithDeduplication. cbv zeta. f_equal.
  apply deduplicateMatches_arrival_order.
  - by apply List_filter_Permutation.
  - intros a b [Ha _]%elem_of_List_filter [Hb _]%elem_of_List_filter.
    by apply distinct.
Qed.

Lemma arrival_order_is_irrelevant_witness :
  processMatchesWithDeduplication [chainA; chainB; chainC]
  = processMatchesWithDeduplication [chainC; chainA; chainB].
Proof.
  apply (arrival_order_is_irrelevant [chainA; chainB; chainC]
           [chainC; chainA; chainB]).
  - symmetry. apply (Permutation_cons_append [chainA; chainB] chainC).
  - intros a b Ha Hb E.
    repeat (apply elem_of_cons in Ha as [->|Ha]);
      try (by apply elem_of_nil in Ha);
      repeat (apply elem_of_cons in Hb as [->|Hb]);
      try (by apply elem_of_nil in Hb);
      try reflexivity; by vm_compute in E.
Defined.

(** ** The candidate of a seed in closed form *)

Section Neighbors.
Import CandidateGenerator.
Context (native : bool) (cancelledAt : nat -> bool) (nowAt : nat -> Z).

Lemma scanStep_cases (seed other : PhotoWithHash)
    (matchingPhotos : list PhotoWithHash) (totalDistance validComparisons : Z) :
  scanStep native seed (matchingPhotos, totalDistance, validComparisons) other
  = if acceptedBy native seed other
    then (matchingPhotos ++ [other],
          totalDistance + digitDistance (hashOf seed) (hashOf other),
          validComparisons + 1)
    else (matchingPhotos, totalDistance, validComparisons).
Proof.
  unfold scanStep, acceptedBy.
  destruct (String.eqb _ _); [reflexivity|].
  destruct (hasHash other); [|reflexivity]. cbn [negb orb andb].
  destruct (_ >=? _); [|reflexivity].
  destruct (_ <=? _); [|reflexivity]. cbn [andb].
  rewrite calculateHammingDistance_spec.
  destruct (Nat.eqb _ _); reflexivity.
Qed.

Lemma fold_scanStep_closed (seed : PhotoWithHash) (l : list PhotoWithHash) :
  forall matchingPhotos totalDistance validComparisons,
    fold_left (scanStep native seed) l
              (matchingPhotos, totalDistance, validComparisons)
    = (matchingPhotos ++ neighborsOf native l seed,
       totalDistance
       + sumZ (map (fun n => digitDistance (hashOf seed) (hashOf n))
                   (neighborsOf native l seed)),
       validComparisons + Z.of_nat (length (neighborsOf native l seed))).
Proof.
  unfold neighborsOf.
  induction l as [|o l IH]; intros mp td vc.
  - simpl. by rewrite app_nil_r, !Z.add_0_r.
  - cbn [fold_left List.filter]. rewrite scanStep_cases.
    destruct (acceptedBy native seed o); rewrite IH; [|reflexivity].
    rewrite <- app_assoc. cbn [map sumZ fold_right length app].
    f_equal; [f_equal|]; unfold sumZ; lia.
Qed.

Lemma scan_closed (allProcessedPhotos : list PhotoWithHash)
    (seed : PhotoWithHash) :
  scan native allProcessedPhotos seed
  = (seed :: neighborsOf native allProcessedPhotos seed,
     sumZ (map (fun n => digitDistance (hashOf seed) (hashOf n))
               (neighborsOf native allProcessedPhotos seed)),
     Z.of_nat (length (neighborsOf native allProcessedPhotos seed))).
Proof. unfold scan. by rewrite fold_scanStep_closed. Qed.

Lemma matchFor_photos (round : nat) (allProcessedPhotos : list PhotoWithHash)
    (seed : PhotoWithHash) :
  match matchFor native nowAt round allProcessedPhotos seed with
  | Some m =>
      neighborsOf native allProcessedPhotos seed <> [] /\
      photos m
      = stableSort byCreationTime
          (seed :: neighborsOf native allProcessedPhotos seed)
  | None => neighborsOf native allProcessedPhotos seed = []
  end.
Proof.
  unfold matchFor. rewrite scan_closed.
  destruct (neighborsOf native allProcessedPhotos seed) as [|n ns]; [done|].
  done.
Qed.

Lemma acceptedBy_spec (seed other : PhotoWithHash) :
  acceptedBy native seed other = true <->
  photo_id other <> photo_id seed /\
  hasHash other = true /\
  creationTime seed - 15 * 60 * 1000 <= creationTime other
    <= creationTime seed + 15 * 60 * 1000 /\
  String.length (hashOf seed) = String.length (hashOf other) /\
  digitDistance (hashOf seed) (hashOf other) <= 20.
Proof.
  unfold acceptedBy. rewrite calculateHammingDistance_spec.
  rewrite !andb_true_iff, negb_true_iff, String.eqb_neq.
  unfold windowOf. cbn [start end_].
  destruct (Nat.eqb_spec (String.length (hashOf seed))
              (String.length (hashOf other))) as [E|E]; [|naive_solver].
  rewrite Z.geb_le, !Z.leb_le. naive_solver.
Qed.

Lemma acceptedBy_mutual (p q : PhotoWithHash) :
  hasHash p = true -> acceptedBy native p q = true ->
  acceptedBy native q p = true.
Proof.
  rewrite !acceptedBy_spec. intros Hp (Hid & _ & Hct & Hlen & Hd).
  rewrite digitDistance_sym. repeat split; try done; lia.
Qed.

End Neighbors.

Section CandidateFacts.
Import CandidateGenerator.
Context (native : bool) (cancelledAt : nat -> bool) (nowAt : nat -> Z).

Lemma matchFor_closed (round : nat) (allProcessedPhotos : list PhotoWithHash)
    (seed : PhotoWithHash) (m : MatchResult) :
  matchFor native nowAt round allProcessedPhotos seed = Some m ->
  neighborsOf native allProcessedPhotos seed <> [] /\
  photos m
  = stableSort byCreationTime (seed :: neighborsOf native allProcessedPhotos seed)
  /\ hammingDistance m
     = (inject_Z (sumZ (map (fun n => digitDistance (hashOf seed) (hashOf n))
                            (neighborsOf native allProcessedPhotos seed)))
        / inject_Z (Z.of_nat (length (neighborsOf native allProcessedPhotos seed))))%Q
  /\ confidence m = confidenceOf (hammingDistance m)
  /\ timeWindow m = windowOf seed /\ status m = pending.
Proof.
  unfold matchFor. rewrite scan_closed.
  destruct (neighborsOf native allProcessedPhotos seed) as [|n ns] eqn:E;
    [discriminate|].
  destruct (Nat.ltb_spec 1 (length (seed :: n :: ns))) as [_|H];
    [|simpl in H; lia].
  destruct (Z.gtb_spec (Z.of_nat (length (n :: ns))) 0) as [_|H];
    [|simpl in H; lia].
  by intros [= <-].
Qed.

Lemma matchFor_none (round : nat) (allProcessedPhotos : list PhotoWithHash)
    (seed : PhotoWithHash) :
  matchFor native nowAt round allProcessedPhotos seed = None <->
  neighborsOf native allProcessedPhotos seed = [].
Proof.
  pose proof (matchFor_photos native nowAt round allProcessedPhotos seed) as H.
  destruct (matchFor _ _ _ _ _); [|done]. destruct H as [H _].
  split; [discriminate | done].
Qed.

Lemma elem_of_neighborsOf (allProcessedPhotos : list PhotoWithHash)
    (seed p : PhotoWithHash) :
  p ∈ neighborsOf native allProcessedPhotos seed <->
  p ∈ allProcessedPhotos /\ acceptedBy native seed p = true.
Proof. apply elem_of_List_filter. Qed.

Lemma sumZ_bounded (ds : list Z) (bound : Z) :
  Forall (fun d => 0 <= d <= bound) ds ->
  0 <= sumZ ds <= bound * Z.of_nat (length ds).
Proof.
  induction 1 as [|d ds Hd _ IH]; cbn [sumZ fold_right length];
    [lia|]. unfold sumZ in IH. lia.
Qed.

Lemma neighbor_distances_bounded (allProcessedPhotos : list PhotoWithHash)
    (seed : PhotoWithHash) :
  Forall (fun d => 0 <= d <= 20)
    (map (fun n => digitDistance (hashOf seed) (hashOf n))
         (neighborsOf native allProcessedPhotos seed)).
Proof.
  apply Forall_map, Forall_forall. intros p Hp. simpl.
  apply elem_of_neighborsOf in Hp as [_ Hp].
  apply acceptedBy_spec in Hp as (_ & _ & _ & _ & Hd).
  pose proof (digitDistance_range (hashOf seed) (hashOf p)). lia.
Qed.

Lemma matchFor_average (round : nat) (allProcessedPhotos : list PhotoWithHash)
    (seed : PhotoWithHash) (m : MatchResult) :
  matchFor native nowAt round allProcessedPhotos seed = Some m ->
  (0 <= hammingDistance m <= 20)%Q.
Proof.
  intros (Hne & _ & -> & _)%matchFor_closed.
  pose proof (sumZ_bounded _ 20
                (neighbor_distances_bounded allProcessedPhotos seed)) as Hs.
  rewrite length_map in Hs.
  assert (0 < Z.of_nat (length (neighborsOf native allProcessedPhotos seed)))
    as Hlen by (destruct (neighborsOf _ _ _); [done | simpl; lia]).
  assert (0 < inject_Z (Z.of_nat
                (length (neighborsOf native allProcessedPhotos seed))))%Q as Hq
    by by apply inject_Z_pos.
  split.
  - apply Qle_shift_div_l; [exact Hq|]. rewrite Qmult_0_l.
    rewrite <- (Zle_Qle 0). lia.
  - apply Qle_shift_div_r; [exact Hq|].
    rewrite <- (inject_Z_mult 20), <- Zle_Qle. lia.
Qed.

Lemma matchFor_confidence (round : nat)
    (allProcessedPhotos : list PhotoWithHash) (seed : PhotoWithHash)
    (m : MatchResult) :
  matchFor native nowAt round allProcessedPhotos seed = Some m ->
  (confidence m == 100 - hammingDistance m * 3)%Q.
Proof.
  intros Hm. pose proof (matchFor_average _ _ _ _ Hm) as Havg.
  apply matchFor_closed in Hm as (_ & _ & _ & -> & _).
  unfold confidenceOf. apply Q.max_r. lra.
Qed.

Lemma matchFor_in_window (round : nat)
    (allProcessedPhotos : list PhotoWithHash) (seed : PhotoWithHash)
    (m : MatchResult) :
  matchFor native nowAt round allProcessedPhotos seed = Some m ->
  end_ (timeWindow m) - start (timeWindow m) = 30 * 60 * 1000 /\
  forall p, p ∈ photos m ->
    start (timeWindow m) <= creationTime p <= end_ (timeWindow m).
Proof.
  intros (_ & Hphotos & _ & _ & Hwin & _)%matchFor_closed.
  rewrite Hwin. unfold windowOf. cbn [start end_]. split; [lia|].
  intros p Hp. rewrite Hphotos, stableSort_perm in Hp.
  apply elem_of_cons in Hp as [->|Hp]; [lia|].
  apply elem_of_neighborsOf in Hp as [_ Hp].
  apply acceptedBy_spec in Hp. lia.
Qed.

Lemma matchFor_rejected (round : nat)
    (allProcessedPhotos : list PhotoWithHash) (seed : PhotoWithHash)
    (m : MatchResult) :
  matchFor native nowAt round allProcessedPhotos seed = Some m ->
  MatchDeduplicator.isValidMatch m = false <->
  length (photos m) = 2%nat /\ (10 < hammingDistance m)%Q.
Proof.
  intros Hm. pose proof (matchFor_average _ _ _ _ Hm) as Havg.
  pose proof (matchFor_confidence _ _ _ _ Hm) as Hc.
  destruct (matchFor_in_window _ _ _ _ Hm) as [Hspan _].
  unfold MatchDeduplicator.isValidMatch.
  assert (Qgtb (hammingDistance m) 25 = false) as ->
    by (apply Qgtb_false; lra).
  assert ((end_ (timeWindow m) - start (timeWindow m) >? 24 * 60 * 60 * 1000)
          = false) as ->.
  { rewrite Z.gtb_ltb. apply Z.ltb_ge. lia. }
  destruct (Nat.eqb_spec (length (photos m)) 2) as [E|E]; cbn [andb].
  - unfold Qltb.
    destruct (Qle_bool 70 (confidence m)) eqn:Q; cbn [negb].
    + apply Qle_bool_iff in Q. rewrite Hc in Q. split; [done|].
      intros [_ H]. lra.
    + split; [|done]. intros _. split; [done|].
      destruct (Qlt_le_dec 10 (hammingDistance m)) as [|H]; [done|].
      exfalso. assert (70 <= confidence m)%Q as H' by (rewrite Hc; lra).
      apply Qle_bool_iff in H'. congruence.
  - split; [done | by intros [? _]].
Qed.

End CandidateFacts.

(** X16.  The candidate built for a seed holds exactly the seed and every
    processed photo that has another id, has a hash, was created within 15
    minutes of the seed and is at distance 20 or less from it; no
    candidate is built exactly when there is no such photo. *)
Theorem candidate_contents
    (native : bool) (nowAt : nat -> Z) (round : nat)
    (allProcessedPhotos : list PhotoWithHash) (seed : PhotoWithHash) :
  (forall m,
     CandidateGenerator.matchFor native nowAt round allProcessedPhotos seed
     = Some m ->
     photos m ≡ₚ seed :: neighborsOf native allProcessedPhotos seed /\
     forall p, p ∈ photos m <->
       p = seed \/
       (p ∈ allProcessedPhotos /\
        photo_id p <> photo_id seed /\
        CandidateGenerator.hasHash p = true /\
        creationTime seed - 15 * 60 * 1000 <= creationTime p
          <= creationTime seed + 15 * 60 * 1000 /\
        exists distance,
          Web.calculateHammingDistance native
            (CandidateGenerator.hashOf seed) (CandidateGenerator.hashOf p)
          = Ret distance /\ distance <= 20)) /\
  (CandidateGenerator.matchFor native nowAt round allProcessedPhotos seed = None
   <-> forall p, p ∈ allProcessedPhotos -> acceptedBy native seed p = false).
Proof.
  split.
  - intros m (Hne & Hphotos & _)%matchFor_closed.
    assert (photos m ≡ₚ seed :: neighborsOf native allProcessedPhotos seed)
      as Hperm by (rewrite Hphotos; apply stableSort_perm).
    split; [exact Hperm|]. intros p. rewrite Hperm, elem_of_cons.
    rewrite elem_of_neighborsOf, acceptedBy_spec. split.
    + intros [->|(Hin & Hid & Hh & Hct & Hlen & Hd)]; [by left | right].
      split; [done|]. split; [done|]. split; [done|]. split; [done|].
      exists (digitDistance (CandidateGenerator.hashOf seed)
                            (CandidateGenerator.hashOf p)).
      by rewrite calculateHammingDistance_spec, Hlen, Nat.eqb_refl.
    + intros [->|(Hin & Hid & Hh & Hct & d & Hd & Hle)]; [by left | right].
      rewrite calculateHammingDistance_spec in Hd.
      destruct (Nat.eqb_spec
                  (String.length (CandidateGenerator.hashOf seed))
                  (String.length (CandidateGenerator.hashOf p))) as [E|E];
        [|discriminate].
      injection Hd as <-. done.
  - rewrite matchFor_none. unfold neighborsOf. split.
    + intros Hnil p Hp. destruct (acceptedBy native seed p) eqn:E; [|done].
      assert (p ∈ List.filter (acceptedBy native seed) allProcessedPhotos)
        as Hin by by apply elem_of_List_filter.
      rewrite Hnil in Hin. by apply elem_of_nil in Hin.
    + intros Hall.
      destruct (List.filter (acceptedBy native seed) allProcessedPhotos)
        as [|p ps] eqn:E; [done|].
      assert (p ∈ List.filter (acceptedBy native seed) allProcessedPhotos)
        as Hin by (rewrite E; left).
      apply elem_of_List_filter in Hin as [Hin Hacc].
      by rewrite (Hall p Hin) in Hacc.
Qed.

Lemma candidate_contents_witness :
  photos scenarioCandidate ≡ₚ scenarioP2 :: neighborsOf false scenarioBatch scenarioP2.
Proof.
  apply (candidate_contents false (fun _ => 0) 0 scenarioBatch scenarioP2).
  vm_compute. reflexivity.
Defined.

(** X17.  Similarity within the time window is mutual: when the candidate
    of a hashed seed [p] holds a photo [q] with another id, the candidate
    built for [q] over the same processed photos holds [p]. *)
Theorem neighbours_are_mutual
    (native : bool) (nowAt : nat -> Z) (round round' : nat)
    (allProcessedPhotos : list PhotoWithHash) (p q : PhotoWithHash)
    (mp : MatchResult)
    (processed : p ∈ allProcessedPhotos)
    (hashed : CandidateGenerator.hasHash p = true)
    (candidate :
       CandidateGenerator.matchFor native nowAt round allProcessedPhotos p
       = Some mp)
    (member : q ∈ photos mp)
    (other : photo_id q <> photo_id p) :
  exists mq,
    CandidateGenerator.matchFor native nowAt round' allProcessedPhotos q
    = Some mq /\ p ∈ photos mq.
Proof.
  apply matchFor_closed in candidate as (_ & Hphotos & _).
  rewrite Hphotos, stableSort_perm in member.
  apply elem_of_cons in member as [->|Hq]; [done|].
  apply elem_of_neighborsOf in Hq as [_ Hacc].
  apply acceptedBy_mutual in Hacc; [|done].
  assert (p ∈ neighborsOf native allProcessedPhotos q) as Hp
    by by apply elem_of_neighborsOf.
  destruct (CandidateGenerator.matchFor native nowAt round' allProcessedPhotos q)
    as [mq|] eqn:E.
  - exists mq. split; [done|].
    apply matchFor_closed in E as (_ & -> & _).
    rewrite stableSort_perm. by right.
  - apply matchFor_none in E. rewrite E in Hp. by apply elem_of_nil in Hp.
Qed.

Lemma neighbours_are_mutual_witness :
  exists mq,
    CandidateGenerator.matchFor false (fun _ => 0) 1 scenarioBatch scenarioP1
    = Some mq /\ scenarioP2 ∈ photos mq.
Proof.
  apply (neighbours_are_mutual false (fun _ => 0) 0 1 scenarioBatch
           scenarioP2 scenarioP1 scenarioCandidate).
  - right. left.
  - reflexivity.
  - vm_compute. reflexivity.
  - left.
  - discriminate.
Defined.

(** X18.  A candidate built by the generator always passes two of the
    three tests of the validity filter: all its photos lie in its time
    window, which spans 30 minutes, and its average distance is at most
    20, so that its confidence is at least 40.  The filter therefore drops
    a generated candidate exactly when it holds two photos whose distance
    exceeds 10. *)
Theorem generated_candidate_validity
    (native : bool) (nowAt : nat -> Z) (round : nat)
    (allProcessedPhotos : list PhotoWithHash) (seed : PhotoWithHash)
    (m : MatchResult)
    (candidate :
       CandidateGenerator.matchFor native nowAt round allProcessedPhotos seed
       = Some m) :
  (forall p, p ∈ photos m ->
     start (timeWindow m) <= creationTime p <= end_ (timeWindow m)) /\
  end_ (timeWindow m) - start (timeWindow m) = 30 * 60 * 1000 /\
  (0 <= hammingDistance m <= 20)%Q /\
  (40 <= confidence m <= 100)%Q /\
  (MatchDeduplicator.isValidMatch m = false <->
   length (photos m) = 2%nat /\ (10 < hammingDistance m)%Q).
Proof.
  pose proof (matchFor_average native nowAt _ _ _ _ candidate) as Havg.
  pose proof (matchFor_confidence native nowAt _ _ _ _ candidate) as Hc.
  destruct (matchFor_in_window native nowAt _ _ _ _ candidate) as [Hspan Hin].
  split; [exact Hin|]. split; [exact Hspan|]. split; [exact Havg|].
  split; [rewrite Hc; lra|].
  by apply (matchFor_rejected native nowAt round allProcessedPhotos seed).
Qed.

Lemma generated_candidate_validity_witness :
  MatchDeduplicator.isValidMatch scenarioCandidate = false <->
  length (photos scenarioCandidate) = 2%nat /\
  (10 < hammingDistance scenarioCandidate)%Q.
Proof.
  apply (generated_candidate_validity false (fun _ => 0) 0 scenarioBatch
           scenarioP2 scenarioCandidate).
  vm_compute. reflexivity.
Defined.

Section BatchFacts.
Import CandidateGenerator.
Context (native : bool) (cancelledAt : nat -> bool) (nowAt : nat -> Z).

Lemma seedStep_app (round : nat) (allProcessedPhotos : list PhotoWithHash)
    (rawMatches : list MatchResult) (newPhoto : PhotoWithHash) :
  seedStep native cancelledAt nowAt round allProcessedPhotos rawMatches newPhoto
  = rawMatches
    ++ seedStep native cancelledAt nowAt round allProcessedPhotos [] newPhoto.
Proof.
  unfold seedStep. destruct (_ || _); [by rewrite app_nil_r|].
  destruct (matchFor _ _ _ _ _); [done | by rewrite app_nil_r].
Qed.

Lemma findMatchesFrom_app (allProcessedPhotos newBatch : list PhotoWithHash) :
  forall round rawMatches,
    findMatchesFrom native cancelledAt nowAt round allProcessedPhotos newBatch
      rawMatches
    = rawMatches
      ++ findMatchesFrom native cancelledAt nowAt round allProcessedPhotos
           newBatch [].
Proof.
  induction newBatch as [|p rest IH]; intros round rawMatches; simpl.
  - by rewrite app_nil_r.
  - rewrite IH, (IH _ (seedStep _ _ _ _ _ [] p)), app_assoc.
    by rewrite <- seedStep_app.
Qed.

Lemma seedStep_length (round : nat) (allProcessedPhotos : list PhotoWithHash)
    (newPhoto : PhotoWithHash) :
  (length (seedStep native cancelledAt nowAt round allProcessedPhotos [] newPhoto)
   <= if hasHash newPhoto then 1 else 0)%nat.
Proof.
  unfold seedStep. destruct (hasHash newPhoto); simpl; [|lia].
  destruct (cancelledAt round); simpl; [lia|].
  destruct (matchFor _ _ _ _ _); simpl; lia.
Qed.

Lemma findMatchesFrom_length (allProcessedPhotos newBatch : list PhotoWithHash) :
  forall round,
    (length (findMatchesFrom native cancelledAt nowAt round allProcessedPhotos
               newBatch [])
     <= length (List.filter hasHash newBatch))%nat.
Proof.
  induction newBatch as [|p rest IH]; intros round; simpl; [lia|].
  rewrite findMatchesFrom_app, length_app.
  pose proof (seedStep_length round allProcessedPhotos p).
  pose proof (IH (S round)).
  destruct (hasHash p); simpl; lia.
Qed.

Lemma findMatchesFrom_idle (allProcessedPhotos newBatch : list PhotoWithHash) :
  forall round rawMatches,
    (forall k p, (round <= k)%nat -> p ∈ newBatch ->
       hasHash p = false \/ cancelledAt k = true) ->
    findMatchesFrom native cancelledAt nowAt round allProcessedPhotos newBatch
      rawMatches = rawMatches.
Proof.
  induction newBatch as [|p rest IH]; intros round rawMatches Hidle; simpl;
    [done|].
  assert (seedStep native cancelledAt nowAt round allProcessedPhotos
            rawMatches p = rawMatches) as ->.
  { unfold seedStep.
    destruct (Hidle round p) as [-> | ->]; [lia | left | done|].
    by rewrite orb_true_r. }
  apply IH. intros k q Hk Hq. apply Hidle; [lia | by right].
Qed.

Lemma generated_ids_distinct (round : nat)
    (allProcessedPhotos : list PhotoWithHash) (seed : PhotoWithHash)
    (m : MatchResult) :
  NoDup (map photo_id allProcessedPhotos) ->
  matchFor native nowAt round allProcessedPhotos seed = Some m ->
  NoDup (map photo_id (photos m)).
Proof.
  intros Hnd (_ & -> & _)%matchFor_closed.
  rewrite (stableSort_perm byCreationTime). cbn [map].
  apply NoDup_cons. split.
  - intros Hin%list_elem_of_In%in_map_iff. destruct Hin as (p & Hid & Hp).
    apply list_elem_of_In, elem_of_neighborsOf in Hp as [_ Hp].
    by apply acceptedBy_spec in Hp as [Hne _].
  - eapply sublist_NoDup; [exact Hnd|].
    apply (fmap_sublist photo_id), sublist_List_filter.
Qed.

End BatchFacts.

(** X19.  [findMatchesInBatch] only appends to [rawMatches]: what was
    there stays in front, in place, and at most one candidate is added for
    each photo of the new batch that has a hash.  Nothing is added when
    the run has been cancelled or when no photo of the batch has a hash. *)
Theorem batch_only_appends
    (native : bool) (cancelledAt : nat -> bool) (nowAt : nat -> Z)
    (allProcessedPhotos newBatch : list PhotoWithHash)
    (rawMatches : list MatchResult) :
  CandidateGenerator.findMatchesInBatch native cancelledAt nowAt
    allProcessedPhotos newBatch rawMatches
  = rawMatches
    ++ CandidateGenerator.findMatchesInBatch native cancelledAt nowAt
         allProcessedPhotos newBatch [] /\
  (length (CandidateGenerator.findMatchesInBatch native cancelledAt nowAt
             allProcessedPhotos newBatch [])
   <= length (List.filter CandidateGenerator.hasHash newBatch))%nat /\
  ((forall round, cancelledAt round = true) ->
   CandidateGenerator.findMatchesInBatch native cancelledAt nowAt
     allProcessedPhotos newBatch rawMatches = rawMatches) /\
  ((forall p, p ∈ newBatch -> CandidateGenerator.hasHash p = false) ->
   CandidateGenerator.findMatchesInBatch native cancelledAt nowAt
     allProcessedPhotos newBatch rawMatches = rawMatches).
Proof.
  unfold CandidateGenerator.findMatchesInBatch.
  split; [apply findMatchesFrom_app|].
  split; [apply findMatchesFrom_length|].
  split; intros H; apply findMatchesFrom_idle; intros k p _ Hp; auto.
Qed.

Lemma batch_only_appends_witness :
  CandidateGenerator.findMatchesInBatch false (fun _ => true) (fun _ => 0)
    scenarioBatch scenarioBatch [scenarioCandidate] = [scenarioCandidate].
Proof.
  apply (proj1 (proj2 (proj2
           (batch_only_appends false (fun _ => true) (fun _ => 0)
              scenarioBatch scenarioBatch [scenarioCandidate])))).
  reflexivity.
Defined.

(** X20.  When the processed photos have pairwise distinct ids, every
    candidate that the generator builds lists each photo id once; the
    result of [deduplicateMatches] on such candidates then never holds two
    candidates with equal photo-id sets. *)
Theorem generated_candidates_have_distinct_ids
    (native : bool) (cancelledAt : nat -> bool) (nowAt : nat -> Z)
    (allProcessedPhotos newBatch : list PhotoWithHash)
    (distinct : NoDup (map photo_id allProcessedPhotos)) :
  (forall m,
     m ∈ CandidateGenerator.findMatchesInBatch native cancelledAt nowAt
           allProcessedPhotos newBatch [] ->
     NoDup (map photo_id (photos m))) /\
  NoDup (map photoIdSet
           (MatchDeduplicator.deduplicateMatches
              (CandidateGenerator.findMatchesInBatch native cancelledAt nowAt
                 allProcessedPhotos newBatch []))).
Proof.
  assert (forall m,
            m ∈ CandidateGenerator.findMatchesInBatch native cancelledAt nowAt
                  allProcessedPhotos newBatch [] ->
            NoDup (map photo_id (photos m))) as Hids.
  { intros m Hm. apply findMatchesFrom_elem in Hm as [Hm|(r & seed & _ & Hm)].
    - by apply elem_of_nil in Hm.
    - by eapply generated_ids_distinct. }
  split; [exact Hids|].
  set (raw := CandidateGenerator.findMatchesInBatch _ _ _ _ _ _) in *.
  destruct (Nat.leb_spec (length raw) 1) as [H|H].
  - rewrite deduplicateMatches_short by assumption.
    apply short_list_cases in H as [->|[x ->]]; simpl;
      [constructor | apply NoDup_singleton].
  - eapply NoDup_map_coarser; [|by apply deduplicateMatches_keys].
    intros a b Ha Hb. apply pairKeyOf_same_set; apply Hids.
    + eapply elem_of_submseteq; [exact Ha | apply deduplicateMatches_submseteq].
    + eapply elem_of_submseteq; [exact Hb | apply deduplicateMatches_submseteq].
Qed.

Lemma generated_candidates_have_distinct_ids_witness :
  NoDup (map photoIdSet (MatchDeduplicator.deduplicateMatches scenarioRaw)).
Proof.
  apply (generated_candidates_have_distinct_ids false (fun _ => false)
           (fun _ => 0) scenarioBatch scenarioBatch).
  apply (bool_decide_unpack _). vm_compute. exact I.
Defined.

(** ** The search screen *)

Section MatchGroups.
Import GalleryTab.

Lemma fold_creationTime_bounds (lo hi : Z) (photos : list PhotoWithHash) :
  (forall p, p ∈ photos -> lo <= creationTime p <= hi) ->
  forall sum,
    sum + lo * Z.of_nat (length photos)
    <= fold_left (fun sum p => sum + creationTime p) photos sum
    <= sum + hi * Z.of_nat (length photos).
Proof.
  induction photos as [|p photos IH]; intros Hb sum; cbn [fold_left length];
    [lia|].
  assert (lo <= creationTime p <= hi) by (apply Hb; left).
  specialize (IH (fun q Hq => Hb q (list_elem_of_further _ _ _ Hq))
                 (sum + creationTime p)).
  lia.
Qed.

Lemma averageTimeOf_bounds (lo hi : Z) (photos : list PhotoWithHash) :
  photos <> [] ->
  (forall p, p ∈ photos -> lo <= creationTime p <= hi) ->
  (inject_Z lo <= averageTimeOf photos <= inject_Z hi)%Q.
Proof.
  intros Hne Hb. unfold averageTimeOf. cbv zeta.
  pose proof (fold_creationTime_bounds lo hi photos Hb 0) as Hsum.
  assert (0 < Z.of_nat (length photos)) as Hlen
    by (destruct photos; [done | simpl; lia]).
  assert (0 < inject_Z (Z.of_nat (length photos)))%Q as Hq
    by by apply inject_Z_pos.
  split.
  - apply Qle_shift_div_l; [exact Hq|].
    rewrite <- inject_Z_mult, <- Zle_Qle. lia.
  - apply Qle_shift_div_r; [exact Hq|].
    rewrite <- inject_Z_mult, <- Zle_Qle. lia.
Qed.

Lemma byAverageTimeDesc_total (a b : MatchGroup) :
  byAverageTimeDesc a b = true \/ byAverageTimeDesc b a = true.
Proof.
  unfold byAverageTimeDesc.
  destruct (Qlt_le_dec (averageTime a) (averageTime b)) as [H|H].
  - right. apply Qle_bool_iff. by apply Qlt_le_weak.
  - left. by apply Qle_bool_iff.
Qed.

Lemma isApproved_spec (m : MatchResult) :
  isApproved m = true <-> status m = approved.
Proof. unfold isApproved. by destruct (status m). Qed.

End MatchGroups.

(** X21.  For matches that all hold a photo, [createMatchGroupsFromResults]
    returns one group for every approved match and none for the others,
    each with the id, photos and time window of its match, in descending
    order of average time.  The average time of a group lies between any
    two bounds that hold for the creation times of its photos. *)
Theorem match_groups_from_results (matches : list MatchResult)
    (populated : forall m, m ∈ matches -> photos m <> []) :
  GalleryTab.createMatchGroupsFromResults matches
  ≡ₚ map GalleryTab.groupOf (List.filter GalleryTab.isApproved matches) /\
  (forall g, g ∈ GalleryTab.createMatchGroupsFromResults matches <->
     exists m, m ∈ matches /\ status m = approved /\ g = GalleryTab.groupOf m) /\
  Sorted (fun a b => (GalleryTab.averageTime b <= GalleryTab.averageTime a)%Q)
         (GalleryTab.createMatchGroupsFromResults matches) /\
  (forall g lo hi,
     g ∈ GalleryTab.createMatchGroupsFromResults matches ->
     (forall p, p ∈ GalleryTab.group_photos g -> lo <= creationTime p <= hi) ->
     (inject_Z lo <= GalleryTab.averageTime g <= inject_Z hi)%Q).
Proof.
  unfold GalleryTab.createMatchGroupsFromResults. cbv zeta.
  pose proof (stableSort_perm GalleryTab.byAverageTimeDesc
                (map GalleryTab.groupOf
                     (List.filter GalleryTab.isApproved matches))) as Hperm.
  assert (forall g,
            g ∈ stableSort GalleryTab.byAverageTimeDesc
                  (map GalleryTab.groupOf
                       (List.filter GalleryTab.isApproved matches)) <->
            exists m, m ∈ matches /\ status m = approved
                      /\ g = GalleryTab.groupOf m) as Hmem.
  { intros g. rewrite Hperm. split.
    - intros Hg%list_elem_of_In%in_map_iff. destruct Hg as (m & <- & Hm).
      apply list_elem_of_In, elem_of_List_filter in Hm as [Hm Ha].
      exists m. by rewrite <- isApproved_spec.
    - intros (m & Hm & Ha & ->). apply list_elem_of_In, in_map.
      apply list_elem_of_In, elem_of_List_filter.
      by rewrite isApproved_spec. }
  split; [exact Hperm|]. split; [exact Hmem|]. split.
  - eapply Sorted_weaken;
      [|apply stableSort_sorted, byAverageTimeDesc_total].
    intros a b H. by apply Qle_bool_iff.
  - intros g lo hi Hg Hb. apply Hmem in Hg as (m & Hm & _ & ->).
    apply averageTimeOf_bounds; [by apply populated | done].
Qed.

Lemma match_groups_from_results_witness :
  (inject_Z 0
   <= GalleryTab.averageTime
        (GalleryTab.groupOf (GalleryTab.withStatus approved scenarioCandidate))
   <= inject_Z (5 * 60 * 1000))%Q.
Proof.
  apply (match_groups_from_results
           [GalleryTab.withStatus approved scenarioCandidate]).
  - by intros m ->%list_elem_of_singleton.
  - left.
  - intros p Hp. simpl in Hp.
    repeat (apply elem_of_cons in Hp as [->|Hp]; [simpl; lia|]).
    by apply elem_of_nil in Hp.
Defined.

Lemma List_filter_none {A : Type} (f : A -> bool) (l : list A) :
  (forall x, x ∈ l -> f x = false) -> List.filter f l = [].
Proof.
  induction l as [|x l IH]; intros H; simpl; [done|].
  rewrite (H x) by left. apply IH. intros y Hy. apply H. by right.
Qed.

Section BatchLoop.
Import GalleryTab.
Context (native : bool) (calculatePHash : string -> option string).
Context (cancelledAtBatch : nat -> bool) (cancelledAtSeed : nat -> nat -> bool).
Context (nowAt : nat -> nat -> Z).
Variable sortedPhotos : list PhotoWithHash.

Abbreviation hashedPhoto := (hashed calculatePHash).
Abbreviation step :=
  (batchStep native calculatePHash cancelledAtBatch cancelledAtSeed nowAt
             sortedPhotos).

Lemma builtWithin_mono (j j' : nat) (m : MatchResult) :
  (j <= j')%nat -> builtWithin hashedPhoto sortedPhotos j m ->
  builtWithin hashedPhoto sortedPhotos j' m.
Proof.
  intros Hj (Hs & Hlen & k & seed & Hk & H). split; [done|]. split; [done|].
  exists k, seed. split; [lia | done].
Qed.

Lemma hashed_prefix (k : nat) :
  map hashedPhoto (take (k * batchSize) sortedPhotos)
  ++ map hashedPhoto (take batchSize (drop (k * batchSize) sortedPhotos))
  = map hashedPhoto (take ((k + 1) * batchSize) sortedPhotos).
Proof.
  rewrite <- map_app, take_take_drop. do 2 f_equal. lia.
Qed.

(** The state of the loop after the batches [0 .. n-1]. *)
Lemma batches_invariant (n : nat) :
  exists stopped j rawMatches,
    fold_left step (seq 0 n) (false, [], [])
    = (stopped, map hashedPhoto (take (j * batchSize) sortedPhotos), rawMatches)
    /\ (j <= n)%nat
    /\ (stopped = false -> j = n)
    /\ (stopped = true -> exists k, (k < n)%nat /\ cancelledAtBatch k = true)
    /\ forall m, m ∈ rawMatches -> builtWithin hashedPhoto sortedPhotos j m.
Proof.
  induction n as [|n (stopped & j & rawMatches & Hfold & Hj & Hrun & Hstop & Hraw)].
  - exists false, 0%nat, []. simpl. split; [done|]. split; [lia|].
    split; [done|]. split; [done|]. by intros m Hm%elem_of_nil.
  - rewrite seq_S, fold_left_app, Hfold. cbn [fold_left Nat.add].
    unfold batchStep.
    destruct stopped; cbn [orb].
    + exists true, j, rawMatches. split; [done|]. split; [lia|].
      split; [done|]. split; [|done]. intros _.
      destruct (Hstop eq_refl) as (k & Hk & Hc). exists k. split; [lia | done].
    + rewrite (Hrun eq_refl) in *.
      destruct (cancelledAtBatch n) eqn:Hc.
      * exists true, n, rawMatches. split; [done|]. split; [lia|].
        split; [done|]. split; [|done]. intros _. exists n. split; [lia | done].
      * cbv zeta. rewrite hashed_prefix.
        exists false, (n + 1)%nat. eexists. split; [reflexivity|].
        split; [lia|]. split; [lia|]. split; [done|].
        intros m Hm.
        apply findMatchesFrom_elem in Hm as [Hm|(r & seed & Hseed & Hm)].
        -- eapply builtWithin_mono; [|by apply Hraw]. lia.
        -- apply matchFor_closed in Hm as (Hne & Hphotos & _ & _ & Hwin & Hst).
           split; [done|]. split.
           { rewrite Hphotos,
               (Permutation_length (stableSort_perm _ _)).
             destruct (neighborsOf _ _ _); [done | simpl; lia]. }
           exists n, seed. split; [lia|]. split; [done|].
           assert (forall p, p ∈ photos m <->
                     p ∈ seed :: neighborsOf native
                            (map hashedPhoto
                               (take ((n + 1) * batchSize) sortedPhotos)) seed)
             as Hmem by (intros p; by rewrite Hphotos, stableSort_perm).
           split; [apply Hmem; left|]. split; [done|].
           intros p [->|Hp]%Hmem%elem_of_cons.
           ++ rewrite <- hashed_prefix. apply elem_of_app. by right.
           ++ by apply elem_of_neighborsOf in Hp as [Hp _].
Qed.

(** Every candidate of the loop was built by [findMatchesInBatch]. *)
Lemma batches_generated (n : nat) (m : MatchResult) :
  m ∈ snd (fold_left step (seq 0 n) (false, [], [])) ->
  exists k round allProcessedPhotos seed,
    CandidateGenerator.matchFor native (nowAt k) round allProcessedPhotos seed
    = Some m.
Proof.
  induction n as [|n IH]; [by intros Hm%elem_of_nil|].
  rewrite seq_S, fold_left_app. cbn [fold_left Nat.add].
  destruct (fold_left step (seq 0 n) (false, [], []))
    as [[stopped photosWithHashes] rawMatches].
  unfold batchStep. cbn [snd] in IH.
  destruct (stopped || cancelledAtBatch n); [exact IH|]. cbn [snd].
  intros [Hm|(r & seed & _ & Hm)]%findMatchesFrom_elem; [by apply IH|].
  by eexists n, r, _, seed.
Qed.

End BatchLoop.

(** The candidates with which the batch loop ends. *)
Lemma processBatches_candidates
    (native : bool) (calculatePHash : string -> option string)
    (cancelledAtBatch : nat -> bool) (cancelledAtSeed : nat -> nat -> bool)
    (nowAt : nat -> nat -> Z) (photoData : list PhotoWithHash) :
  exists stopped photosWithHashes rawMatches j,
    GalleryTab.processBatches native calculatePHash cancelledAtBatch
      cancelledAtSeed nowAt photoData
    = (stopped, photosWithHashes, rawMatches) /\
    forall m, m ∈ rawMatches ->
      builtWithin (GalleryTab.hashed calculatePHash)
        (stableSort GalleryTab.byCreationTimeDesc photoData) j m.
Proof.
  unfold GalleryTab.processBatches. cbv zeta.
  destruct (batches_invariant native calculatePHash cancelledAtBatch
              cancelledAtSeed nowAt
              (stableSort GalleryTab.byCreationTimeDesc photoData)
              ((length (stableSort GalleryTab.byCreationTimeDesc photoData)
                + GalleryTab.batchSize - 1) / GalleryTab.batchSize))
    as (stopped & j & rawMatches & Hfold & _ & _ & _ & Hraw).
  rewrite Hfold. by eexists stopped, _, rawMatches, j.
Qed.

(** X22.  The run hashes the photos newest first, five at a time, without
    skipping any: what it has hashed is always a front part of the sorted
    list, the whole list when no batch found the run cancelled.  Every
    candidate in [rawMatches] is pending and was built for a seed of some
    batch from photos hashed in that batch or an earlier one. *)
Theorem batches_in_order
    (native : bool) (calculatePHash : string -> option string)
    (cancelledAtBatch : nat -> bool) (cancelledAtSeed : nat -> nat -> bool)
    (nowAt : nat -> nat -> Z) (photoData : list PhotoWithHash) :
  let sortedPhotos := stableSort GalleryTab.byCreationTimeDesc photoData in
  exists stopped j rawMatches,
    GalleryTab.processBatches native calculatePHash cancelledAtBatch
      cancelledAtSeed nowAt photoData
    = (stopped,
       map (GalleryTab.hashed calculatePHash)
           (take (j * GalleryTab.batchSize) sortedPhotos),
       rawMatches) /\
    ((forall k, cancelledAtBatch k = false) ->
     stopped = false /\
     take (j * GalleryTab.batchSize) sortedPhotos = sortedPhotos) /\
    forall m, m ∈ rawMatches ->
      builtWithin (GalleryTab.hashed calculatePHash) sortedPhotos j m.
Proof.
  intros sortedPhotos. unfold GalleryTab.processBatches. cbv zeta.
  fold sortedPhotos.
  destruct (batches_invariant native calculatePHash cancelledAtBatch
              cancelledAtSeed nowAt sortedPhotos
              ((length sortedPhotos + GalleryTab.batchSize - 1)
               / GalleryTab.batchSize))
    as (stopped & j & rawMatches & Hfold & Hj & Hrun & Hstop & Hraw).
  exists stopped, j, rawMatches. split; [exact Hfold|]. split; [|exact Hraw].
  intros Hnever.
  assert (stopped = false) as ->.
  { destruct stopped; [|done]. destruct (Hstop eq_refl) as (k & _ & Hk).
    by rewrite Hnever in Hk. }
  split; [done|]. rewrite (Hrun eq_refl). apply take_ge.
  unfold GalleryTab.batchSize.
  pose proof (Nat.div_mod_eq (length sortedPhotos + 5 - 1) 5).
  pose proof (Nat.mod_upper_bound (length sortedPhotos + 5 - 1) 5). lia.
Qed.

Lemma batches_in_order_witness :
  exists stopped j rawMatches,
    GalleryTab.processBatches false (fun _ => Some "0000000000000000")
      (fun _ => false) (fun _ _ => false) (fun _ _ => 0) scenarioBatch
    = (stopped,
       map (GalleryTab.hashed (fun _ => Some "0000000000000000"))
           (take (j * GalleryTab.batchSize)
                 (stableSort GalleryTab.byCreationTimeDesc scenarioBatch)),
       rawMatches) /\
    stopped = false /\
    take (j * GalleryTab.batchSize)
         (stableSort GalleryTab.byCreationTimeDesc scenarioBatch)
    = stableSort GalleryTab.byCreationTimeDesc scenarioBatch.
Proof.
  destruct (batches_in_order false (fun _ => Some "0000000000000000")
              (fun _ => false) (fun _ _ => false) (fun _ _ => 0) scenarioBatch)
    as (stopped & j & rawMatches & H1 & H2 & _).
  exists stopped, j, rawMatches. split; [exact H1|]. by apply H2.
Defined.

(** ** What a run publishes *)

Section Publications.
Import CandidateGenerator.
Context (native : bool) (cancelledAt : nat -> bool) (nowAt : nat -> Z).

Lemma seedStep_cases (round : nat) (allProcessedPhotos : list PhotoWithHash)
    (rawMatches : list MatchResult) (newPhoto : PhotoWithHash) :
  (seedStep native cancelledAt nowAt round allProcessedPhotos rawMatches newPhoto
   = rawMatches /\
   seedPublishes native cancelledAt nowAt round allProcessedPhotos rawMatches
     newPhoto = []) \/
  (exists matchResult,
     seedStep native cancelledAt nowAt round allProcessedPhotos rawMatches
       newPhoto = rawMatches ++ [matchResult] /\
     seedPublishes native cancelledAt nowAt round allProcessedPhotos rawMatches
       newPhoto
     = [processMatchesWithDeduplication (rawMatches ++ [matchResult])]).
Proof.
  unfold seedStep, seedPublishes. destruct (_ || _); [by left|].
  destruct (matchFor _ _ _ _ _) as [m|]; [right; by exists m | by left].
Qed.

(** The publications of [findMatchesInBatch]: one for every match that it
    pushes, of the deduplicated array as it stands after that push. *)
Lemma publishedFrom_closed (allProcessedPhotos newBatch : list PhotoWithHash) :
  forall round rawMatches,
    let final :=
      findMatchesFrom native cancelledAt nowAt round allProcessedPhotos
        newBatch rawMatches in
    publishedFrom native cancelledAt nowAt round allProcessedPhotos newBatch
      rawMatches
    = map (fun n => processMatchesWithDeduplication (take n final))
          (seq (S (length rawMatches)) (length final - length rawMatches)).
Proof.
  induction newBatch as [|p rest IH]; intros round rawMatches; cbv zeta.
  - cbn [publishedFrom findMatchesFrom]. by rewrite Nat.sub_diag.
  - cbn [publishedFrom findMatchesFrom]. rewrite IH.
    destruct (seedStep_cases round allProcessedPhotos rawMatches p)
      as [[-> ->]|(m & -> & ->)]; [done|].
    rewrite (findMatchesFrom_app native cancelledAt nowAt allProcessedPhotos
               rest (S round) (rawMatches ++ [m])).
    set (extra := findMatchesFrom _ _ _ _ _ _ []).
    rewrite !length_app. cbn [length].
    replace (length rawMatches + 1 + length extra - length rawMatches)%nat
      with (S (length extra)) by lia.
    replace (length rawMatches + 1 + length extra - (length rawMatches + 1))%nat
      with (length extra) by lia.
    cbn [seq map app]. f_equal.
    + f_equal. rewrite take_app_le by (rewrite length_app; simpl; lia).
      rewrite take_ge; [done|]. rewrite length_app. simpl. lia.
    + by replace (S (length rawMatches + 1)) with (S (S (length rawMatches)))
        by lia.
Qed.

End Publications.

Section TracedLoop.
Import GalleryTab.
Context (native : bool) (calculatePHash : string -> option string).
Context (cancelledAtBatch : nat -> bool) (cancelledAtSeed : nat -> nat -> bool).
Context (nowAt : nat -> nat -> Z).
Variable sortedPhotos : list PhotoWithHash.

Abbreviation plainStep :=
  (batchStep native calculatePHash cancelledAtBatch cancelledAtSeed nowAt
             sortedPhotos).
Abbreviation traced :=
  (tracedStep native calculatePHash cancelledAtBatch cancelledAtSeed nowAt
              sortedPhotos).

(** The state of the traced loop after the batches [0 .. n-1]: the state
    of the loop itself, and one publication for every candidate pushed so
    far. *)
Lemma traced_invariant (n : nat) :
  let st := fold_left plainStep (seq 0 n) (false, [], []) in
  fold_left traced (seq 0 n) ((false, [], []), [])
  = (st,
     map (fun i => processMatchesWithDeduplication (take i (snd st)))
         (seq 1 (length (snd st)))).
Proof.
  induction n as [|n IH]; cbv zeta; [reflexivity|].
  rewrite !seq_S, !fold_left_app, IH. cbn [fold_left Nat.add].
  destruct (fold_left plainStep (seq 0 n) (false, [], []))
    as [[stopped photosWithHashes] rawMatches].
  cbn [snd tracedStep]. f_equal.
  unfold batchPublishes, batchStep.
  destruct (stopped || cancelledAtBatch n); [by rewrite app_nil_r|].
  cbv zeta. cbn [snd].
  unfold CandidateGenerator.publishedInBatch,
    CandidateGenerator.findMatchesInBatch.
  rewrite publishedFrom_closed. cbv zeta.
  rewrite (findMatchesFrom_app native (cancelledAtSeed n) (nowAt n) _ _ 0
             rawMatches).
  set (extra := CandidateGenerator.findMatchesFrom _ _ _ _ _ _ []).
  rewrite length_app.
  replace (length rawMatches + length extra - length rawMatches)%nat
    with (length extra) by lia.
  rewrite (seq_app (length rawMatches) (length extra) 1), map_app.
  f_equal. apply map_ext_in. intros i Hi%in_seq.
  by rewrite take_app_le by lia.
Qed.

End TracedLoop.

(** The run in closed form. *)
Lemma tracedBatches_closed
    (native : bool) (calculatePHash : string -> option string)
    (cancelledAtBatch : nat -> bool) (cancelledAtSeed : nat -> nat -> bool)
    (nowAt : nat -> nat -> Z) (photoData : list PhotoWithHash) :
  let st :=
    GalleryTab.processBatches native calculatePHash cancelledAtBatch
      cancelledAtSeed nowAt photoData in
  GalleryTab.tracedBatches native calculatePHash cancelledAtBatch
    cancelledAtSeed nowAt photoData
  = (st,
     map (fun i => processMatchesWithDeduplication (take i (snd st)))
         (seq 1 (length (snd st)))).
Proof. apply traced_invariant. Qed.

Lemma resultsAfter_app (updates1 updates2 : list GalleryTab.Update)
    (before : list MatchResult) :
  GalleryTab.resultsAfter (updates1 ++ updates2) before
  = GalleryTab.resultsAfter updates2 (GalleryTab.resultsAfter updates1 before).
Proof. apply fold_left_app. Qed.

Lemma last_cons_default {A : Type} (l : list A) :
  forall x d, List.last (x :: l) d = List.last l x.
Proof.
  induction l as [|y r IH]; intros x d; [reflexivity|].
  change (List.last (x :: y :: r) d) with (List.last (y :: r) d).
  by rewrite !IH.
Qed.

Lemma resultsAfter_published (published : list (list MatchResult))
    (before : list MatchResult) :
  GalleryTab.resultsAfter (map GalleryTab.SetMatchResults published) before
  = List.last published before.
Proof.
  revert before. induction published as [|l published IH]; intros before;
    [reflexivity|].
  cbn [map GalleryTab.resultsAfter fold_left].
  fold (GalleryTab.resultsAfter (map GalleryTab.SetMatchResults published) l).
  by rewrite IH, last_cons_default.
Qed.

Lemma groupsAfter_app (updates1 updates2 : list GalleryTab.Update)
    (before : list GalleryTab.MatchGroup) :
  GalleryTab.groupsAfter (updates1 ++ updates2) before
  = GalleryTab.groupsAfter updates2 (GalleryTab.groupsAfter updates1 before).
Proof. apply fold_left_app. Qed.

Lemma groupsAfter_published (published : list (list MatchResult))
    (before : list GalleryTab.MatchGroup) :
  GalleryTab.groupsAfter (map GalleryTab.SetMatchResults published) before
  = before.
Proof. induction published as [|l published IH]; [reflexivity | exact IH]. Qed.

(** The updates of a run in closed form. *)
Lemma run_updates_closed
    (native : bool) (calculatePHash : string -> option string)
    (cancelledAtBatch : nat -> bool) (cancelledAtSeed : nat -> nat -> bool)
    (nowAt : nat -> nat -> Z) (cancelledAtEnd : bool)
    (photoData : list PhotoWithHash) :
  let rawMatches :=
    snd (GalleryTab.processBatches native calculatePHash cancelledAtBatch
           cancelledAtSeed nowAt photoData) in
  GalleryTab.findMatchingGroupsWithRealTimeResults native calculatePHash
    cancelledAtBatch cancelledAtSeed nowAt cancelledAtEnd photoData
  = GalleryTab.SetMatchResults []
    :: map GalleryTab.SetMatchResults
         (map (fun n => processMatchesWithDeduplication (take n rawMatches))
              (seq 1 (length rawMatches)))
    ++ (if cancelledAtEnd then []
        else [GalleryTab.SetMatchResults
                (processMatchesWithDeduplication rawMatches);
              GalleryTab.SetMatchGroups
                (GalleryTab.createMatchGroupsFromResults
                   (processMatchesWithDeduplication rawMatches))]).
Proof.
  intros rawMatches. unfold GalleryTab.findMatchingGroupsWithRealTimeResults.
  rewrite tracedBatches_closed. cbv zeta. subst rawMatches.
  by destruct (GalleryTab.processBatches _ _ _ _ _ _) as [[? ?] ?].
Qed.

(** Every list given to [setMatchResults] is the deduplicated copy of a
    front part of the candidates with which the batch loop ends. *)
Lemma published_origin
    (native : bool) (calculatePHash : string -> option string)
    (cancelledAtBatch : nat -> bool) (cancelledAtSeed : nat -> nat -> bool)
    (nowAt : nat -> nat -> Z) (cancelledAtEnd : bool)
    (photoData : list PhotoWithHash) (results : list MatchResult) :
  GalleryTab.SetMatchResults results
  ∈ GalleryTab.findMatchingGroupsWithRealTimeResults native calculatePHash
      cancelledAtBatch cancelledAtSeed nowAt cancelledAtEnd photoData ->
  exists n,
    results
    = processMatchesWithDeduplication
        (take n (snd (GalleryTab.processBatches native calculatePHash
                        cancelledAtBatch cancelledAtSeed nowAt photoData))).
Proof.
  rewrite run_updates_closed. cbv zeta.
  set (rawMatches := snd (GalleryTab.processBatches _ _ _ _ _ _)).
  intros [[= ->]|Hin]%elem_of_cons; [by exists 0%nat|].
  apply elem_of_app in Hin as [Hin|Hin].
  - apply list_elem_of_fmap in Hin as (l & [= ->] & Hl).
    apply list_elem_of_fmap in Hl as (n & -> & _). by exists n.
  - destruct cancelledAtEnd; [by apply elem_of_nil in Hin|].
    apply elem_of_cons in Hin as [[= ->]|Hin].
    + exists (length rawMatches). by rewrite take_ge by lia.
    + by apply list_elem_of_singleton in Hin.
Qed.

(** X23.  A run of [findMatchingGroupsWithRealTimeResults] first clears the
    results, then gives [setMatchResults] the deduplicated candidates
    after every candidate found, and, unless it is cancelled, once more
    after the loop, followed by one call of [setMatchGroups].  Cancelled
    or not, the value of [matchResults] after these updates is the
    deduplicated candidates of the batch loop; the groups are set to the
    empty list by a run that is not cancelled and left alone by a
    cancelled one.  Every result ever published is pending and holds at
    least two photos, each of them the hashed copy of a photo of the
    input. *)
Theorem run_publishes_pending_results
    (native : bool) (calculatePHash : string -> option string)
    (cancelledAtBatch : nat -> bool) (cancelledAtSeed : nat -> nat -> bool)
    (nowAt : nat -> nat -> Z) (cancelledAtEnd : bool)
    (photoData : list PhotoWithHash) :
  let rawMatches :=
    snd (GalleryTab.processBatches native calculatePHash cancelledAtBatch
           cancelledAtSeed nowAt photoData) in
  let updates :=
    GalleryTab.findMatchingGroupsWithRealTimeResults native calculatePHash
      cancelledAtBatch cancelledAtSeed nowAt cancelledAtEnd photoData in
  updates
  = GalleryTab.SetMatchResults []
    :: map (fun n => GalleryTab.SetMatchResults
                       (processMatchesWithDeduplication (take n rawMatches)))
           (seq 1 (length rawMatches))
    ++ (if cancelledAtEnd then []
        else [GalleryTab.SetMatchResults
                (processMatchesWithDeduplication rawMatches);
              GalleryTab.SetMatchGroups []]) /\
  (forall before,
     GalleryTab.resultsAfter updates before
     = processMatchesWithDeduplication rawMatches) /\
  (forall before,
     GalleryTab.groupsAfter updates before
     = if cancelledAtEnd then before else []) /\
  (forall results m,
     GalleryTab.SetMatchResults results ∈ updates -> m ∈ results ->
     status m = pending /\
     (2 <= length (photos m))%nat /\
     forall p, p ∈ photos m ->
       exists original, original ∈ photoData /\
         p = GalleryTab.hashed calculatePHash original).
Proof.
  intros rawMatches updates.
  destruct (processBatches_candidates native calculatePHash cancelledAtBatch
              cancelledAtSeed nowAt photoData)
    as (stopped & photosWithHashes & raw & j & Hrun & Hraw).
  assert (rawMatches = raw) as Hsame by (subst rawMatches; by rewrite Hrun).
  assert (forall n m, m ∈ processMatchesWithDeduplication (take n rawMatches) ->
            m ∈ raw) as Hsub.
  { intros n m Hm. rewrite <- Hsame.
    eapply elem_of_sublist; [|apply sublist_take].
    eapply elem_of_submseteq; [exact Hm | apply process_submseteq]. }
  assert (GalleryTab.createMatchGroupsFromResults
            (processMatchesWithDeduplication rawMatches) = []) as Hgroups.
  { unfold GalleryTab.createMatchGroupsFromResults. cbv zeta.
    rewrite List_filter_none; [done|].
    intros m Hm. rewrite <- (take_ge rawMatches (length rawMatches)) in Hm
      by lia.
    apply Hsub, Hraw in Hm as [Hm _].
    unfold GalleryTab.isApproved. by rewrite Hm. }
  assert (updates
          = GalleryTab.SetMatchResults []
            :: map GalleryTab.SetMatchResults
                 (map (fun n => processMatchesWithDeduplication
                                  (take n rawMatches))
                      (seq 1 (length rawMatches)))
            ++ (if cancelledAtEnd then []
                else [GalleryTab.SetMatchResults
                        (processMatchesWithDeduplication rawMatches);
                      GalleryTab.SetMatchGroups []])) as Hupdates.
  { subst updates. rewrite run_updates_closed. cbv zeta. fold rawMatches.
    by rewrite Hgroups. }
  split; [by rewrite Hupdates, map_map|].
  split; [|split].
  - intros before. rewrite Hupdates.
    change (?u :: ?l ++ ?r) with ([u] ++ l ++ r).
    rewrite !resultsAfter_app, resultsAfter_published.
    destruct cancelledAtEnd; [|reflexivity].
    cbn [GalleryTab.resultsAfter fold_left].
    destruct (length rawMatches) as [|n] eqn:Hlen.
    + apply nil_length_inv in Hlen. by rewrite Hlen.
    + rewrite seq_S, map_app. cbn [map]. rewrite last_last. cbn [Nat.add].
      by rewrite <- Hlen, take_ge by lia.
  - intros before. rewrite Hupdates.
    change (?u :: ?l ++ ?r) with ([u] ++ l ++ r).
    rewrite !groupsAfter_app.
    rewrite groupsAfter_published. by destruct cancelledAtEnd.
  - intros results m Hin Hm.
    assert (m ∈ raw) as Hmraw.
    { apply published_origin in Hin as [n ->]. by apply (Hsub n). }
    destruct (Hraw m Hmraw)
      as (Hst & Hlen & k & seed & _ & Hseed & Hinm & _ & Hall).
    split; [done|]. split; [done|].
    intros p Hp%Hall%list_elem_of_In%in_map_iff.
    destruct Hp as (original & <- & Ho). exists original. split; [|done].
    apply list_elem_of_In in Ho.
    rewrite <- (stableSort_perm GalleryTab.byCreationTimeDesc photoData).
    by eapply elem_of_sublist; [|apply sublist_take].
Qed.

(** A run over two photos taken five minutes apart, cancelled after its
    only batch: it has published a result, and it has set no groups. *)
Lemma run_publishes_pending_results_witness :
  GalleryTab.resultsAfter
    (GalleryTab.findMatchingGroupsWithRealTimeResults false
       (fun hashOfUri => Some hashOfUri) (fun _ => false)
       (fun _ _ => false) (fun _ _ => 0) true scenarioLibrary) []
  <> [] /\
  GalleryTab.groupsAfter
    (GalleryTab.findMatchingGroupsWithRealTimeResults false
       (fun hashOfUri => Some hashOfUri) (fun _ => false)
       (fun _ _ => false) (fun _ _ => 0) true scenarioLibrary) []
  = [].
Proof.
  pose proof (run_publishes_pending_results false
                (fun hashOfUri => Some hashOfUri) (fun _ => false)
                (fun _ _ => false) (fun _ _ => 0) true scenarioLibrary)
    as (_ & Hresults & Hgroups & _).
  cbv zeta in Hresults, Hgroups. rewrite Hresults, Hgroups.
  split; [|reflexivity]. vm_compute. discriminate.
Defined.

(** X30.  Every result that a run gives to [setMatchResults], inside the
    batch loop or after it, has passed the validity filter as the
    generator built it: its photos lie inside its 30-minute time window,
    its average distance is at most 20 and its confidence is
    [100 - 3 * distance], at least 40.  A published pair of photos is at
    distance 10 or less and has a confidence of 70 or more. *)
Theorem published_results_quality
    (native : bool) (calculatePHash : string -> option string)
    (cancelledAtBatch : nat -> bool) (cancelledAtSeed : nat -> nat -> bool)
    (nowAt : nat -> nat -> Z) (cancelledAtEnd : bool)
    (photoData : list PhotoWithHash)
    (results : list MatchResult)
    (published :
       GalleryTab.SetMatchResults results
       ∈ GalleryTab.findMatchingGroupsWithRealTimeResults native calculatePHash
           cancelledAtBatch cancelledAtSeed nowAt cancelledAtEnd photoData) :
  forall m, m ∈ results ->
    MatchDeduplicator.isValidMatch m = true /\
    (forall p, p ∈ photos m ->
       start (timeWindow m) <= creationTime p <= end_ (timeWindow m)) /\
    end_ (timeWindow m) - start (timeWindow m) = 30 * 60 * 1000 /\
    (0 <= hammingDistance m <= 20)%Q /\
    (confidence m == 100 - hammingDistance m * 3)%Q /\
    (length (photos m) = 2%nat ->
     (hammingDistance m <= 10)%Q /\ (70 <= confidence m)%Q).
Proof.
  apply published_origin in published as [n ->].
  unfold GalleryTab.processBatches. cbv zeta.
  pose proof (batches_generated native calculatePHash cancelledAtBatch
                cancelledAtSeed nowAt
                (stableSort GalleryTab.byCreationTimeDesc photoData)
                ((length (stableSort GalleryTab.byCreationTimeDesc photoData)
                  + GalleryTab.batchSize - 1) / GalleryTab.batchSize))
    as Hgen.
  destruct (fold_left _ _ _) as [[stopped photosWithHashes] rawMatches].
  cbn [snd] in *. intros m Hm.
  assert (m ∈ MatchDeduplicator.validateAndCleanMatches (take n rawMatches))
    as Hvalid.
  { unfold processMatchesWithDeduplication in Hm. cbv zeta in Hm.
    eapply elem_of_submseteq; [|apply deduplicateMatches_submseteq].
    eapply elem_of_submseteq; [exact Hm|apply advancedDeduplication_submseteq]. }
  apply elem_of_List_filter in Hvalid as [Hraw Hvalid].
  assert (m ∈ rawMatches) as Hraw'
    by (eapply elem_of_sublist; [exact Hraw | apply sublist_take]).
  destruct (Hgen m Hraw') as (k & round & allProcessedPhotos & seed & Hbuilt).
  pose proof (matchFor_average _ _ _ _ _ _ Hbuilt) as Havg.
  pose proof (matchFor_confidence _ _ _ _ _ _ Hbuilt) as Hc.
  destruct (matchFor_in_window _ _ _ _ _ _ Hbuilt) as [Hspan Hin].
  split; [exact Hvalid|]. split; [exact Hin|]. split; [exact Hspan|].
  split; [exact Havg|]. split; [exact Hc|].
  intros Hpair.
  assert ((hammingDistance m <= 10)%Q) as Hd.
  { destruct (Qlt_le_dec 10 (hammingDistance m)) as [Hfar|]; [|done].
    exfalso.
    assert (MatchDeduplicator.isValidMatch m = false) as Hno
      by by apply (matchFor_rejected _ _ _ _ _ _ Hbuilt).
    congruence. }
  split; [exact Hd|]. rewrite Hc. lra.
Qed.

Lemma published_results_quality_witness :
  Forall (fun update =>
            match update with
            | GalleryTab.SetMatchResults results =>
                Forall (fun m => (70 <= confidence m)%Q) results
            | GalleryTab.SetMatchGroups _ => True
            end)
         (GalleryTab.findMatchingGroupsWithRealTimeResults false
            (fun hashOfUri => Some hashOfUri) (fun _ => false)
            (fun _ _ => false) (fun _ _ => 0) true scenarioLibrary).
Proof.
  apply Forall_forall. intros [results|groups] Hu; [|exact I].
  apply Forall_forall. intros m Hm.
  assert (length (photos m) = 2%nat) as Hpair.
  { revert results Hu m Hm.
    assert (Forall (fun update =>
              match update with
              | GalleryTab.SetMatchResults results =>
                  Forall (fun m => length (photos m) = 2%nat) results
              | GalleryTab.SetMatchGroups _ => True
              end)
              (GalleryTab.findMatchingGroupsWithRealTimeResults false
                 (fun hashOfUri => Some hashOfUri) (fun _ => false)
                 (fun _ _ => false) (fun _ _ => 0) true scenarioLibrary)) as H
      by (vm_compute; repeat constructor).
    intros results Hu m Hm. rewrite Forall_forall in H.
    specialize (H _ Hu). cbv beta iota in H. rewrite Forall_forall in H.
    by apply H. }
  by apply (published_results_quality false
              (fun hashOfUri => Some hashOfUri) (fun _ => false)
              (fun _ _ => false) (fun _ _ => 0) true scenarioLibrary
              results Hu m Hm).
Defined.

Section Handlers.
Import GalleryTab.

Lemma withoutPhoto_spec (photoId : string) (photos : list PhotoWithHash)
    (p : PhotoWithHash) :
  p ∈ withoutPhoto photoId photos <-> p ∈ photos /\ photo_id p <> photoId.
Proof.
  unfold withoutPhoto.
  by rewrite elem_of_List_filter, negb_true_iff, String.eqb_neq.
Qed.

Lemma withoutPhoto_absent (photoId : string) (photos : list PhotoWithHash) :
  (forall p, p ∈ photos -> photo_id p <> photoId) ->
  withoutPhoto photoId photos = photos.
Proof.
  intros H. apply List_filter_all. intros p Hp.
  by apply negb_true_iff, String.eqb_neq, H.
Qed.

Lemma withoutPhoto_idem (photoId : string) (photos : list PhotoWithHash) :
  withoutPhoto photoId (withoutPhoto photoId photos)
  = withoutPhoto photoId photos.
Proof.
  apply withoutPhoto_absent. by intros p [_ Hp]%withoutPhoto_spec.
Qed.

Lemma filter_map_fix {A : Type} (f : A -> A) (keep : A -> bool) (l : list A) :
  (forall x, x ∈ l -> f x = x /\ keep x = true) ->
  List.filter keep (map f l) = l.
Proof.
  induction l as [|x l IH]; intros H; simpl; [done|].
  destruct (H x) as [-> ->]; [left|]. f_equal. apply IH.
  intros y Hy. apply H. by right.
Qed.

Lemma elem_of_filter_map {A : Type} (f : A -> A) (keep : A -> bool)
    (l : list A) (y : A) :
  y ∈ List.filter keep (map f l) <->
  exists x, x ∈ l /\ y = f x /\ keep (f x) = true.
Proof.
  rewrite elem_of_List_filter. split.
  - intros [Hy%list_elem_of_In%in_map_iff Hk]. destruct Hy as (x & <- & Hx).
    exists x. by rewrite <- list_elem_of_In in Hx.
  - intros (x & Hx & -> & Hk). split; [|done].
    by apply list_elem_of_In, in_map, list_elem_of_In.
Qed.

End Handlers.

(** X24.  After [handlePhotoDeleted] the deleted id occurs in no photo list
    of the state, every remaining match and group holds at least two
    photos, and the other fields of a remaining match are those it had.
    Handling the same id again changes nothing. *)
Theorem photo_deletion (photoId : string) (st : GalleryTab.State) :
  let st' := GalleryTab.handlePhotoDeleted photoId st in
  (forall p, p ∈ GalleryTab.allPhotos st' <->
     p ∈ GalleryTab.allPhotos st /\ photo_id p <> photoId) /\
  (forall m', m' ∈ GalleryTab.matchResults st' ->
     (2 <= length (photos m'))%nat /\
     (forall p, p ∈ photos m' -> photo_id p <> photoId) /\
     exists m, m ∈ GalleryTab.matchResults st /\
       match_id m' = match_id m /\ confidence m' = confidence m /\
       status m' = status m /\ hammingDistance m' = hammingDistance m /\
       photos m' = GalleryTab.withoutPhoto photoId (photos m)) /\
  (forall g', g' ∈ GalleryTab.matchGroups st' ->
     (2 <= length (GalleryTab.group_photos g'))%nat /\
     forall p, p ∈ GalleryTab.group_photos g' -> photo_id p <> photoId) /\
  GalleryTab.handlePhotoDeleted photoId st' = st'.
Proof.
  intros st'. subst st'. unfold GalleryTab.handlePhotoDeleted.
  cbn [GalleryTab.allPhotos GalleryTab.matchResults GalleryTab.matchGroups].
  assert (forall m',
            m' ∈ List.filter (fun m => (1 <? length (photos m))%nat)
                   (map (fun m =>
                      {| match_id := match_id m;
                         photos := GalleryTab.withoutPhoto photoId (photos m);
                         confidence := confidence m;
                         timeWindow := timeWindow m;
                         status := status m;
                         hammingDistance := hammingDistance m |})
                      (GalleryTab.matchResults st)) ->
            (2 <= length (photos m'))%nat /\
            (forall p, p ∈ photos m' -> photo_id p <> photoId) /\
            exists m, m ∈ GalleryTab.matchResults st /\
              match_id m' = match_id m /\ confidence m' = confidence m /\
              status m' = status m /\ hammingDistance m' = hammingDistance m /\
              photos m' = GalleryTab.withoutPhoto photoId (photos m)) as Hm.
  { intros m' (m & Hin & -> & Hk)%elem_of_filter_map.
    cbn [photos match_id confidence status hammingDistance] in *.
    apply Nat.ltb_lt in Hk. split; [lia|]. split.
    - by intros p [_ Hp]%withoutPhoto_spec.
    - by exists m. }
  assert (forall g',
            g' ∈ List.filter
                   (fun group =>
                      (1 <? length (GalleryTab.group_photos group))%nat)
                   (map (fun group =>
                      {| GalleryTab.group_id := GalleryTab.group_id group;
                         GalleryTab.group_photos :=
                           GalleryTab.withoutPhoto photoId
                             (GalleryTab.group_photos group);
                         GalleryTab.group_timeWindow :=
                           GalleryTab.group_timeWindow group;
                         GalleryTab.averageTime := GalleryTab.averageTime group |})
                      (GalleryTab.matchGroups st)) ->
            (2 <= length (GalleryTab.group_photos g'))%nat /\
            forall p, p ∈ GalleryTab.group_photos g' -> photo_id p <> photoId)
    as Hg.
  { intros g' (g & Hin & -> & Hk)%elem_of_filter_map.
    cbn [GalleryTab.group_photos] in *.
    apply Nat.ltb_lt in Hk. split; [lia|].
    by intros p [_ Hp]%withoutPhoto_spec. }
  split; [intros p; apply withoutPhoto_spec|].
  split; [exact Hm|]. split; [exact Hg|].
  f_equal.
  - apply withoutPhoto_idem.
  - apply filter_map_fix. intros g' [Hlen Hid]%Hg. split.
    + destruct g' as [gid gphotos gwin gavg].
      cbn [GalleryTab.group_id GalleryTab.group_photos
           GalleryTab.group_timeWindow GalleryTab.averageTime] in *.
      f_equal. by apply withoutPhoto_absent.
    + apply Nat.ltb_lt. lia.
  - apply filter_map_fix. intros m' (Hlen & Hid & _)%Hm. split.
    + destruct m' as [mid mphotos mconf mwin mstat mdist].
      cbn [match_id photos confidence timeWindow status hammingDistance] in *.
      f_equal. by apply withoutPhoto_absent.
    + apply Nat.ltb_lt. lia.
Qed.

Lemma photo_deletion_witness :
  Forall (fun p => photo_id p <> "p2")
         (photos (exampleMatch "G1" ["p1"; "p3"] 90 0 10)).
Proof.
  apply Forall_forall.
  apply (photo_deletion "p2"
           {| GalleryTab.allPhotos := []; GalleryTab.matchGroups := [];
              GalleryTab.matchResults := [groupG1; groupG2] |}).
  left.
Defined.

(** X25.  [handleApproveMatch] and [handleRejectMatch] change nothing but
    the status of the matches with the given id, which becomes approved or
    rejected.  When all matches are pending, the groups made afterwards by
    [createMatchGroupsFromResults] are those of the matches with the
    approved id, and none after a rejection (each match holding a
    photo). *)
Theorem approve_and_reject (matchId : string) (prev : list MatchResult) :
  Forall2 (fun m m' =>
             match_id m' = match_id m /\ photos m' = photos m /\
             confidence m' = confidence m /\ timeWindow m' = timeWindow m /\
             hammingDistance m' = hammingDistance m /\
             status m' = if String.eqb (match_id m) matchId
                         then approved else status m)
          prev (GalleryTab.handleApproveMatch matchId prev) /\
  Forall2 (fun m m' =>
             match_id m' = match_id m /\ photos m' = photos m /\
             confidence m' = confidence m /\ timeWindow m' = timeWindow m /\
             hammingDistance m' = hammingDistance m /\
             status m' = if String.eqb (match_id m) matchId
                         then rejected else status m)
          prev (GalleryTab.handleRejectMatch matchId prev) /\
  ((forall m, m ∈ prev -> status m = pending /\ photos m <> []) ->
   GalleryTab.createMatchGroupsFromResults
     (GalleryTab.handleApproveMatch matchId prev)
   ≡ₚ map GalleryTab.groupOf
        (List.filter (fun m => String.eqb (match_id m) matchId) prev) /\
   GalleryTab.createMatchGroupsFromResults
     (GalleryTab.handleRejectMatch matchId prev) = []).
Proof.
  split; [|split].
  - unfold GalleryTab.handleApproveMatch.
    induction prev as [|m prev IH]; simpl; constructor; [|exact IH].
    by destruct (String.eqb (match_id m) matchId).
  - unfold GalleryTab.handleRejectMatch.
    induction prev as [|m prev IH]; simpl; constructor; [|exact IH].
    by destruct (String.eqb (match_id m) matchId).
  - intros Hpending. split.
    + unfold GalleryTab.createMatchGroupsFromResults. cbv zeta.
      rewrite stableSort_perm.
      unfold GalleryTab.handleApproveMatch.
      induction prev as [|m prev IH]; [done|].
      assert (status m = pending) as Hm by (apply Hpending; left).
      specialize (IH (fun x Hx => Hpending x (list_elem_of_further _ _ _ Hx))).
      cbn [map List.filter].
      destruct (String.eqb (match_id m) matchId) eqn:E.
      * cbn [GalleryTab.isApproved GalleryTab.withStatus status map].
        by rewrite IH.
      * unfold GalleryTab.isApproved at 1. by rewrite Hm.
    + unfold GalleryTab.createMatchGroupsFromResults. cbv zeta.
      rewrite List_filter_none; [done|].
      intros m' Hm'%list_elem_of_In%in_map_iff.
      destruct Hm' as (m & <- & Hm%list_elem_of_In).
      unfold GalleryTab.isApproved.
      destruct (String.eqb (match_id m) matchId); [done|].
      by rewrite (proj1 (Hpending m Hm)).
Qed.

Lemma approve_and_reject_witness :
  GalleryTab.createMatchGroupsFromResults
    (GalleryTab.handleApproveMatch "G2" [groupG1; groupG2])
  ≡ₚ [GalleryTab.groupOf groupG2].
Proof.
  apply (approve_and_reject "G2" [groupG1; groupG2]).
  intros m Hm. repeat (apply elem_of_cons in Hm as [->|Hm]; [done|]).
  by apply elem_of_nil in Hm.
Defined.

(** ** Similar photos in the detail view *)

Section SimilarPhotos.
Import PhotoDetail.
Context (native : bool) (calculatePHash : string -> option string).

Lemma compareWith_spec (currentHash : string) (otherPhoto : PhotoWithHash)
    (r : SimilarPhoto) :
  compareWith native calculatePHash currentHash otherPhoto = Some r ->
  similar_photo r = otherPhoto /\
  0 <= distance r <= 20 /\
  similarity r = 100 - 4 * distance r /\
  exists otherHash,
    calculatePHash (uri otherPhoto) = Some otherHash /\
    Web.calculateHammingDistance native currentHash otherHash
    = Ret (distance r).
Proof.
  unfold compareWith.
  destruct (calculatePHash (uri otherPhoto)) as [otherHash|]; [|done].
  destruct (Web.calculateHammingDistance native currentHash otherHash)
    as [d| |] eqn:E; [|done..].
  destruct (Z.leb_spec d 20) as [Hd|]; [|done]. intros [= <-].
  cbn [similar_photo distance similarity].
  assert (0 <= d) as Hd0.
  { rewrite calculateHammingDistance_spec in E.
    destruct (Nat.eqb _ _); [|done]. injection E as <-.
    apply digitDistance_range. }
  split; [done|]. split; [lia|]. split; [lia|]. by exists otherHash.
Qed.

Lemma omap_map_id {A B : Type} (f : A -> option B) (l : list A) :
  omap (fun result => result) (map f l) = omap f l.
Proof.
  induction l as [|x l IH]; [done|]. csimpl.
  destruct (f x); csimpl; by rewrite IH.
Qed.

(** The batch loop collects the results photo by photo. *)
Lemma batchRounds_closed (currentHash : string)
    (otherPhotos : list PhotoWithHash) (n : nat) :
  fold_left (batchRound native calculatePHash currentHash otherPhotos)
            (seq 0 n) []
  = omap (compareWith native calculatePHash currentHash)
         (take (n * batchSize) otherPhotos).
Proof.
  induction n as [|n IH]; [done|].
  rewrite seq_S, fold_left_app, IH. cbn [fold_left Nat.add].
  unfold batchRound. cbv zeta.
  replace (S n * batchSize)%nat with (n * batchSize + batchSize)%nat by lia.
  rewrite <- take_take_drop, omap_app. f_equal. apply omap_map_id.
Qed.

Lemma findSimilarPhotos_closed (currentHash : string)
    (currentPhoto : PhotoWithHash) (allPhotos : list PhotoWithHash) :
  currentHash <> "" ->
  findSimilarPhotos native calculatePHash (Some currentHash) currentPhoto
    allPhotos
  = Some (omap (compareWith native calculatePHash currentHash)
               (List.filter
                  (fun p => negb (String.eqb (photo_id p)
                                             (photo_id currentPhoto)))
                  allPhotos)).
Proof.
  intros Hne. unfold findSimilarPhotos.
  apply String.eqb_neq in Hne as ->. cbv zeta.
  rewrite batchRounds_closed. do 2 f_equal. apply take_ge.
  unfold batchSize.
  generalize (length (List.filter
                (fun p => negb (String.eqb (photo_id p) (photo_id currentPhoto)))
                allPhotos)).
  intros len.
  pose proof (Nat.div_mod_eq (len + 5 - 1) 5).
  pose proof (Nat.mod_upper_bound (len + 5 - 1) 5). lia.
Qed.

Lemma byDistance_total (a b : SimilarPhoto) :
  byDistance a b = true \/ byDistance b a = true.
Proof. unfold byDistance. lia. Qed.

End SimilarPhotos.

(** X26.  [findSimilarPhotos] answers only when the hash of the current
    photo is there.  Its results are the photos at distance 20 or less, in
    the order of [allPhotos], whatever the batching; none of them has the
    id of the current photo, and the similarity shown for a result is
    [100 - 4 * distance], between 20 and 100.  The list shown is ordered
    by ascending distance. *)
Theorem similar_photos
    (native : bool) (calculatePHash : string -> option string)
    (pHash : option string) (currentPhoto : PhotoWithHash)
    (allPhotos : list PhotoWithHash) :
  (PhotoDetail.findSimilarPhotos native calculatePHash pHash currentPhoto
     allPhotos = None <-> pHash = None \/ pHash = Some "") /\
  forall similarResults,
    PhotoDetail.findSimilarPhotos native calculatePHash pHash currentPhoto
      allPhotos = Some similarResults ->
    (exists currentHash, pHash = Some currentHash /\
       similarResults
       = omap (PhotoDetail.compareWith native calculatePHash currentHash)
              (List.filter
                 (fun p => negb (String.eqb (photo_id p)
                                            (photo_id currentPhoto)))
                 allPhotos)) /\
    (forall r, r ∈ similarResults ->
       PhotoDetail.similar_photo r ∈ allPhotos /\
       photo_id (PhotoDetail.similar_photo r) <> photo_id currentPhoto /\
       0 <= PhotoDetail.distance r <= 20 /\
       PhotoDetail.similarity r = 100 - 4 * PhotoDetail.distance r /\
       20 <= PhotoDetail.similarity r <= 100) /\
    PhotoDetail.shown similarResults ≡ₚ similarResults /\
    Sorted (fun a b => PhotoDetail.distance a <= PhotoDetail.distance b)
           (PhotoDetail.shown similarResults).
Proof.
  split.
  { unfold PhotoDetail.findSimilarPhotos. destruct pHash as [h|].
    - destruct (String.eqb_spec h "") as [->|Hne].
      + split; [by right | done].
      + split; [done|]. intros [|[= ->]]; done.
    - split; [by left | done]. }
  intros similarResults Hres.
  destruct pHash as [currentHash|]; [|done].
  destruct (String.eqb_spec currentHash "") as [->|Hne]; [done|].
  rewrite findSimilarPhotos_closed in Hres by done. injection Hres as <-.
  split; [by exists currentHash|]. split.
  - intros r (p & Hp & Hr)%list_elem_of_omap.
    apply elem_of_List_filter in Hp as [Hp Hid].
    apply negb_true_iff, String.eqb_neq in Hid.
    apply compareWith_spec in Hr as (-> & Hd & Hs & _).
    repeat split; try done; lia.
  - split; [apply stableSort_perm|].
    eapply Sorted_weaken; [|apply stableSort_sorted, byDistance_total].
    intros a b H. unfold inOrder, PhotoDetail.byDistance in H. lia.
Qed.

Lemma similar_photos_witness :
  PhotoDetail.findSimilarPhotos false (fun hashOfUri => Some hashOfUri)
    (Some "") (scenarioUpload "P1" 0 "0000000000000000") scenarioLibrary
  = None.
Proof.
  apply (similar_photos false (fun hashOfUri => Some hashOfUri) (Some "")
           (scenarioUpload "P1" 0 "0000000000000000") scenarioLibrary).
  by right.
Defined.

(** ** The view counter *)

Section Quota.
Import ViewCounter.

Lemma saveState_state (fails : bool) (w : World) :
  state (saveState fails w) = state w.
Proof. unfold saveState. destruct (state w) eqn:E, fails; done. Qed.

Lemma decrementView_loaded (env : Env) (w : World) (s : ViewCounterState) :
  state w = Some s ->
  decrementView env w
  = if remainingViews s >? 0
    then ({| remainingViews := remainingViews s - 1;
             totalViews := totalViews s + 1;
             lastUpdated := now env 1 |},
          saveState (setItemFails env 1)
            {| state := Some {| remainingViews := remainingViews s - 1;
                                totalViews := totalViews s + 1;
                                lastUpdated := now env 1 |};
               stored := stored w |})
    else (s, w).
Proof. intros H. unfold decrementView. by rewrite H. Qed.

Lemma decrementView_counts (env : Env) (w : World) (s : ViewCounterState) :
  state w = Some s -> 0 <= remainingViews s ->
  exists s',
    state (snd (decrementView env w)) = Some s' /\
    fst (decrementView env w) = s' /\
    remainingViews s' = Z.max 0 (remainingViews s - 1) /\
    totalViews s' = totalViews s + (remainingViews s - remainingViews s').
Proof.
  intros Hs Hr. rewrite (decrementView_loaded env w s Hs).
  destruct (Z.gtb_spec (remainingViews s) 0) as [Hpos|Hzero].
  - eexists. cbn [fst snd]. rewrite saveState_state. cbn [state].
    split; [reflexivity|]. split; [reflexivity|].
    cbn [remainingViews totalViews]. lia.
  - exists s. cbn [fst snd]. split; [done|]. split; [done|]. lia.
Qed.

Lemma initialize_state (env : Env) (w : World) :
  state (snd (initialize env w)) = Some (fst (initialize env w)).
Proof.
  unfold initialize. cbv zeta. destruct (getItemFails env); [done|].
  destruct (stored w); [done|]. cbn [fst snd]. by rewrite saveState_state.
Qed.

Lemma afterViews_loaded (envs : list Env) :
  forall (w : World) (s : ViewCounterState),
    state w = Some s -> 0 <= remainingViews s ->
    exists s',
      state (afterViews envs w) = Some s' /\
      remainingViews s'
      = Z.max 0 (remainingViews s - Z.of_nat (length envs)) /\
      totalViews s' = totalViews s + (remainingViews s - remainingViews s').
Proof.
  induction envs as [|env envs IH]; intros w s Hs Hr.
  - exists s. cbn [afterViews fold_left length]. split; [done|]. lia.
  - destruct (decrementView_counts env w s Hs Hr) as (s1 & Hs1 & _ & Hr1 & Ht1).
    destruct (IH (snd (decrementView env w)) s1 Hs1 ltac:(lia))
      as (s' & Hs' & Hr' & Ht').
    exists s'. cbn [afterViews fold_left length]. split; [exact Hs'|].
    split; lia.
Qed.

Lemma decrementView_unloaded (env : Env) (w : World) :
  state w = None ->
  decrementView env w = decrementView env (snd (initialize env w)).
Proof.
  intros H.
  rewrite (decrementView_loaded env (snd (initialize env w))
             (fst (initialize env w)) (initialize_state env w)).
  unfold decrementView. rewrite H.
  by destruct (initialize env w) as [s0 w0].
Qed.

Lemma initialize_first (env : Env) :
  remainingViews (fst (initialize env firstRun)) = 100 /\
  totalViews (fst (initialize env firstRun)) = 0.
Proof. unfold initialize. cbv zeta. by destruct (getItemFails env). Qed.

End Quota.

(** X27.  A view is counted only while views remain: [decrementView]
    lowers [remainingViews] by one and raises [totalViews] by one, and at 0
    it changes nothing, so that the counter never becomes negative.  From
    the first run on, [n] calls leave [max 0 (100 - n)] views and a total
    of [min n 100], whatever the storage does. *)
Theorem view_quota (envs : list ViewCounter.Env) (env : ViewCounter.Env)
    (w : ViewCounter.World) (s : ViewCounter.ViewCounterState)
    (loaded : ViewCounter.state w = Some s)
    (valid : 0 <= ViewCounter.remainingViews s) :
  (exists s',
     ViewCounter.decrementView env w
     = (s', snd (ViewCounter.decrementView env w)) /\
     ViewCounter.state (snd (ViewCounter.decrementView env w)) = Some s' /\
     ViewCounter.remainingViews s'
     = Z.max 0 (ViewCounter.remainingViews s - 1) /\
     ViewCounter.remainingViews s' + ViewCounter.totalViews s'
     = ViewCounter.remainingViews s + ViewCounter.totalViews s) /\
  (ViewCounter.remainingViews s = 0 -> ViewCounter.decrementView env w = (s, w)) /\
  (envs <> [] ->
   exists s',
     ViewCounter.state (afterViews envs firstRun) = Some s' /\
     ViewCounter.remainingViews s' = Z.max 0 (100 - Z.of_nat (length envs)) /\
     ViewCounter.totalViews s' = Z.min (Z.of_nat (length envs)) 100).
Proof.
  split; [|split].
  - destruct (decrementView_counts env w s loaded valid)
      as (s' & Hs' & Hfst & Hr & Ht).
    exists s'. split; [|split; [done|split; [done|lia]]].
    rewrite <- Hfst. by destruct (ViewCounter.decrementView env w).
  - intros Hz. rewrite (decrementView_loaded env w s loaded), Hz. done.
  - destruct envs as [|env0 envs]; [done|]. intros _.
    assert (afterViews (env0 :: envs) firstRun
            = afterViews (env0 :: envs)
                (snd (ViewCounter.initialize env0 firstRun))) as ->.
    { cbn [afterViews fold_left]. by rewrite decrementView_unloaded. }
    destruct (initialize_first env0) as [Hr0 Ht0].
    destruct (afterViews_loaded (env0 :: envs) _ _
                (initialize_state env0 firstRun) ltac:(lia))
      as (s' & Hs' & Hr' & Ht').
    exists s'. split; [exact Hs'|]. lia.
Qed.

Lemma view_quota_witness :
  exists s',
    ViewCounter.state (afterViews (repeat calmEnv 101) firstRun) = Some s' /\
    ViewCounter.remainingViews s'
    = Z.max 0 (100 - Z.of_nat (length (repeat calmEnv 101))) /\
    ViewCounter.totalViews s'
    = Z.min (Z.of_nat (length (repeat calmEnv 101))) 100.
Proof.
  apply (view_quota (repeat calmEnv 101) calmEnv
           {| ViewCounter.state :=
                Some {| ViewCounter.remainingViews := 1;
                        ViewCounter.totalViews := 0;
                        ViewCounter.lastUpdated := 0 |};
              ViewCounter.stored := None |}
           {| ViewCounter.remainingViews := 1;
              ViewCounter.totalViews := 0;
              ViewCounter.lastUpdated := 0 |}).
  - reflexivity.
  - simpl. lia.
  - discriminate.
Defined.

(** X28.  A counted view is written to the storage unless [setItem] fails:
    after a successful [decrementView] the stored state is the one
    returned, and a restarted application reads it back; after a failed
    write the storage is as it was.  When the storage cannot be read at
    start, the counter starts again from 100 views. *)
Theorem view_counter_storage (env restart : ViewCounter.Env)
    (w : ViewCounter.World) (s : ViewCounter.ViewCounterState)
    (loaded : ViewCounter.state w = Some s)
    (left_over : 0 < ViewCounter.remainingViews s) :
  let s' := fst (ViewCounter.decrementView env w) in
  let w' := snd (ViewCounter.decrementView env w) in
  (ViewCounter.setItemFails env 1 = false ->
   ViewCounter.stored w' = Some s' /\
   (ViewCounter.getItemFails restart = false ->
    fst (ViewCounter.getCurrentState restart
           {| ViewCounter.state := None;
              ViewCounter.stored := ViewCounter.stored w' |}) = s')) /\
  (ViewCounter.setItemFails env 1 = true ->
   ViewCounter.stored w' = ViewCounter.stored w) /\
  (ViewCounter.getItemFails restart = true ->
   ViewCounter.remainingViews
     (fst (ViewCounter.getCurrentState restart
             {| ViewCounter.state := None;
                ViewCounter.stored := ViewCounter.stored w' |})) = 100).
Proof.
  intros s' w'. subst s' w'.
  rewrite (decrementView_loaded env w s loaded).
  destruct (Z.gtb_spec (ViewCounter.remainingViews s) 0) as [_|]; [|lia].
  cbn [fst snd]. unfold ViewCounter.saveState. cbn [ViewCounter.state].
  split; [|split].
  - intros ->. cbn [ViewCounter.stored]. split; [done|].
    intros Hget. unfold ViewCounter.getCurrentState, ViewCounter.initialize.
    cbn [ViewCounter.state ViewCounter.stored]. by rewrite Hget.
  - by intros ->.
  - intros Hget. unfold ViewCounter.getCurrentState, ViewCounter.initialize.
    cbn [ViewCounter.state]. by rewrite Hget.
Qed.

Lemma view_counter_storage_witness :
  ViewCounter.stored
    (snd (ViewCounter.decrementView calmEnv
            {| ViewCounter.state :=
                 Some {| ViewCounter.remainingViews := 1;
                         ViewCounter.totalViews := 0;
                         ViewCounter.lastUpdated := 0 |};
               ViewCounter.stored := None |}))
  = Some {| ViewCounter.remainingViews := 0;
            ViewCounter.totalViews := 1;
            ViewCounter.lastUpdated := 0 |}.
Proof.
  apply (view_counter_storage calmEnv calmEnv
           {| ViewCounter.state :=
                Some {| ViewCounter.remainingViews := 1;
                        ViewCounter.totalViews := 0;
                        ViewCounter.lastUpdated := 0 |};
              ViewCounter.stored := None |}
           {| ViewCounter.remainingViews := 1;
              ViewCounter.totalViews := 0;
              ViewCounter.lastUpdated := 0 |}).
  - reflexivity.
  - simpl. lia.
  - reflexivity.
Defined.
